(** * SCXQ2: bytecode codec, canonical JSON and pack verifier

    A shallow embedding of [dist/verify.js], [dist/engine.js] and
    [dist/canon.js], with the properties of the specification stated and
    settled against it. *)

From Stdlib Require Import ZArith List String Ascii Lia Bool DecimalString.
From stdpp Require Import base list gmap sorting strings.
Local Open Scope Z_scope.
Set Warnings "-register-all".

(** ** JavaScript data *)

(** A JavaScript string is a sequence of UTF-16 code units. *)
Abbreviation jsstring := (list Z).

(** The code units of an ASCII literal of the source. *)
Definition js (s : string) : jsstring :=
  map (fun a => Z.of_nat (nat_of_ascii a)) (list_ascii_of_string s).

Definition is_code_unit (c : Z) : Prop := 0 <= c < 65536.

(** Every string value of the language satisfies this. *)
Definition wf_string (s : jsstring) : Prop := Forall is_code_unit s.

(** Numbers: the integers and the three values that are not finite. *)
Inductive number :=
| Num (z : Z)
| NaN
| Infinity
| NegInfinity.
Coercion Num : Z >-> number.

Global Instance number_eq_dec : EqDecision number.
Proof. solve_decision. Defined.

(** JSON-like values: what [JSON.parse] yields, plus [undefined] and the
    numbers that are not finite.  An object is its own properties in
    enumeration order. *)
Inductive value :=
| VUndef
| VNull
| VBool (b : bool)
| VNum (n : number)
| VStr (s : jsstring)
| VArr (elems : list value)
| VObj (props : list (jsstring * value)).

(** *** 32-bit integer operators *)

Definition ToInt32 (x : Z) : Z := (x + 2 ^ 31) mod 2 ^ 32 - 2 ^ 31.

(** [x << n] *)
Definition js_shl (x n : Z) : Z := ToInt32 (Z.shiftl (ToInt32 x) (n mod 32)).
(** [x >> n] *)
Definition js_sar (x n : Z) : Z := Z.shiftr (ToInt32 x) (n mod 32).
(** [x | y] *)
Definition js_or (x y : Z) : Z := Z.lor (ToInt32 x) (ToInt32 y).
(** [x & y] *)
Definition js_and (x y : Z) : Z := Z.land (ToInt32 x) (ToInt32 y).

(** [String.fromCharCode(c)] keeps the low 16 bits. *)
Definition fromCharCode (c : Z) : Z := c mod 65536.

Definition is_byte (b : Z) : Prop := 0 <= b < 256.

(** ** verify.js: the decoder *)

Module Policy.
(** [SCXQ2_DEFAULT_POLICY] *)
Record t := {
  requireRoundtrip : bool;
  requireProof : bool;
  maxDictEntries : Z;
  maxDictEntryUnits : Z;
  maxBlocks : Z;
  maxBlockB64Bytes : Z;
  maxOutputUnits : Z;
  allowEdges : bool;
  allowUnknownPackFields : bool;
  allowUnknownBlockFields : bool;
  allowedModes : list jsstring;
  allowedEncodings : list jsstring;
  failOnFirstError : bool
}.
End Policy.

Definition SCXQ2_DEFAULT_POLICY : Policy.t := {|
  Policy.requireRoundtrip := true;
  Policy.requireProof := true;
  Policy.maxDictEntries := 65535;
  Policy.maxDictEntryUnits := 1048576;
  Policy.maxBlocks := 1024;
  Policy.maxBlockB64Bytes := 67108864;
  Policy.maxOutputUnits := 134217728;
  Policy.allowEdges := true;
  Policy.allowUnknownPackFields := true;
  Policy.allowUnknownBlockFields := true;
  Policy.allowedModes := [js "SCXQ2-DICT16-B64"];
  Policy.allowedEncodings := [js "SCXQ2-1"];
  Policy.failOnFirstError := true
|}.

(** The [limits] argument of the decoder: [lim_maxOutputUnits] is [None]
    when the field is absent, [undefined] or [null]. *)
Record limits := { lim_maxOutputUnits : option Z }.

Definition no_limits : limits := {| lim_maxOutputUnits := None |}.

(** The failure results [{ ok: false, kind, byte_offset, ... }]. *)
Inductive decode_error :=
| invalid_byte (byte_offset : nat) (byte : Z)
| truncated_sequence (byte_offset : nat)
| dict_index_oob (byte_offset : nat) (index : Z)
| dict_entry_invalid (byte_offset : nat) (index : Z)
| output_limit (byte_offset : nat).

Inductive decode_result :=
| DecOk (v : jsstring)
| DecErr (e : decode_error).

(** [de.byte_offset] *)
Definition byte_offset (e : decode_error) : nat :=
  match e with
  | invalid_byte off _ | truncated_sequence off | dict_index_oob off _
  | dict_entry_invalid off _ | output_limit off => off
  end.

(** [bytes[i]]; an index past the end reads [undefined], which the bitwise
    operators take as 0. *)
Definition byte_at (bytes : list Z) (i : nat) : Z := default 0 (bytes !! i).

(** [(bytes[i + 1] << 8) | bytes[i + 2]] *)
Definition pair_at (bytes : list Z) (i : nat) : Z :=
  js_or (js_shl (byte_at bytes (i + 1)) 8) (byte_at bytes (i + 2)).

(** What one iteration of a loop does: go on with a new state, or return. *)
Inductive step (S R : Type) :=
| Continue (s : S)
| Return (r : R).
Arguments Continue {S R} s.
Arguments Return {S R} r.

(** The body of the [for] loop of [scxq2DecodeUtf16], entered with
    [i < m]; the state is [(i, out, outUnits)]. *)
Definition decode_body (dictArr : list value) (bytes : list Z) (maxOut : Z)
    (i : nat) (out : jsstring) (outUnits : nat)
    : step (nat * jsstring * nat) decode_result :=
  let m := length bytes in
  let b := byte_at bytes i in
  let emitted i' out' outUnits' :=
    if Z.of_nat outUnits' >? maxOut
    then Return (DecErr (output_limit (Nat.min (m - 1) i')))
    else Continue (i', out', outUnits') in
  if b <=? 127 then
    emitted (i + 1)%nat (out ++ [fromCharCode b]) (outUnits + 1)%nat
  else if b =? 128 then
    if (m <=? i + 2)%nat then Return (DecErr (truncated_sequence i)) else
    let j := pair_at bytes i in
    if (j <? 0) || (j >=? Z.of_nat (length dictArr))
    then Return (DecErr (dict_index_oob i j)) else
    match dictArr !! Z.to_nat j with
    | Some (VStr tok) =>
        emitted (i + 3)%nat (out ++ tok) (outUnits + length tok)%nat
    | _ => Return (DecErr (dict_entry_invalid i j))
    end
  else if b =? 129 then
    if (m <=? i + 2)%nat then Return (DecErr (truncated_sequence i)) else
    let u := pair_at bytes i in
    emitted (i + 3)%nat (out ++ [fromCharCode u]) (outUnits + 1)%nat
  else Return (DecErr (invalid_byte i b)).

(** The loop itself; one unit of fuel per test of [i < m]. *)
Fixpoint decode_loop (fuel : nat) (dictArr : list value) (bytes : list Z)
    (maxOut : Z) (i : nat) (out : jsstring) (outUnits : nat)
    : option decode_result :=
  match fuel with
  | O => None
  | S fuel' =>
    if negb (i <? length bytes)%nat then Some (DecOk out) else
    match decode_body dictArr bytes maxOut i out outUnits with
    | Continue (i', out', outUnits') =>
        decode_loop fuel' dictArr bytes maxOut i' out' outUnits'
    | Return r => Some r
    end
  end.

(** [limits?.maxOutputUnits ?? SCXQ2_DEFAULT_POLICY.maxOutputUnits] *)
Definition maxOut_of (lim : limits) : Z :=
  default (Policy.maxOutputUnits SCXQ2_DEFAULT_POLICY) (lim_maxOutputUnits lim).

(** Boolean tests in hypotheses, as arithmetic facts. *)
Ltac tests_to_props :=
  repeat match goal with
  | H : negb _ = true |- _ => apply negb_true_iff in H
  | H : negb _ = false |- _ => apply negb_false_iff in H
  | H : orb _ _ = false |- _ => apply orb_false_iff in H as [? ?]
  | H : (_ <=? _)%nat = true |- _ => apply Nat.leb_le in H
  | H : (_ <=? _)%nat = false |- _ => apply Nat.leb_gt in H
  | H : (_ <? _)%nat = true |- _ => apply Nat.ltb_lt in H
  | H : (_ <? _)%nat = false |- _ => apply Nat.ltb_ge in H
  | H : (_ >? _) = true |- _ => rewrite Z.gtb_ltb in H
  | H : (_ >? _) = false |- _ => rewrite Z.gtb_ltb in H
  | H : (_ >=? _) = true |- _ => rewrite Z.geb_leb in H
  | H : (_ >=? _) = false |- _ => rewrite Z.geb_leb in H
  | H : (_ <=? _) = true |- _ => apply Z.leb_le in H
  | H : (_ <=? _) = false |- _ => apply Z.leb_gt in H
  | H : (_ <? _) = true |- _ => apply Z.ltb_lt in H
  | H : (_ <? _) = false |- _ => apply Z.ltb_ge in H
  | H : (_ =? _) = true |- _ => apply Z.eqb_eq in H
  | H : (_ =? _) = false |- _ => apply Z.eqb_neq in H
  end.

Lemma decode_loop_unfold fuel D bytes M i out n :
  decode_loop (S fuel) D bytes M i out n =
  if negb (i <? length bytes)%nat then Some (DecOk out) else
  match decode_body D bytes M i out n with
  | Continue (i', out', n') => decode_loop fuel D bytes M i' out' n'
  | Return r => Some r
  end.
Proof. reflexivity. Qed.


(** An iteration that goes on has consumed one or three bytes inside the
    stream, has only appended to the output, and has passed the limit
    check. *)
Lemma decode_body_continue D bytes M i out n i' out' n' :
  (i < length bytes)%nat ->
  decode_body D bytes M i out n = Continue (i', out', n') ->
  (i < i' <= length bytes)%nat /\
  (exists w, out' = out ++ w /\ n' = (n + length w)%nat) /\
  Z.of_nat n' <= M.
Proof.
  intros Hi. unfold decode_body.
  repeat case_match; intros [= <- <- <-]; tests_to_props;
    repeat split; try lia; eauto.
Qed.

(** The decoder always returns. *)
Lemma decode_loop_total fuel D bytes M i out n :
  (length bytes - i < fuel)%nat ->
  is_Some (decode_loop fuel D bytes M i out n).
Proof.
  revert i out n. induction fuel as [|fuel IH]; intros i out n Hf; [lia|].
  rewrite decode_loop_unfold.
  destruct (i <? length bytes)%nat eqn:Hi; simpl; [|eauto].
  apply Nat.ltb_lt in Hi.
  destruct (decode_body D bytes M i out n) as [[[i' out'] n']|r] eqn:Hb; [|eauto].
  apply decode_body_continue in Hb as [? _]; [|done].
  apply IH. lia.
Qed.

(** [scxq2DecodeUtf16(dictArr, bytes, limits)]: the loop, with the fuel
    that lets it return. *)
Definition scxq2DecodeUtf16 (dictArr : list value) (bytes : list Z)
    (lim : limits) : decode_result :=
  is_Some_proj
    (decode_loop_total (S (length bytes)) dictArr bytes (maxOut_of lim) 0 [] 0
       (proj2 (Nat.lt_succ_r _ _) (Nat.le_sub_l _ _))).

Definition lim1000 : limits := {| lim_maxOutputUnits := Some 1000 |}.

(** ** base64.js *)

Definition b64_alphabet : jsstring :=
  js "ABCDEFGHIJKLMNOPQRSTUVWXYZabcdefghijklmnopqrstuvwxyz0123456789+/".

Definition b64_char (n : Z) : Z := default 0 (b64_alphabet !! Z.to_nat n).

(** [Buffer.from(arr).toString("base64")], and [btoa] on the same bytes:
    the standard alphabet with [=] padding. *)
Fixpoint base64_encode (bytes : list Z) : jsstring :=
  match bytes with
  | [] => []
  | [a] => [b64_char (a / 4); b64_char (a mod 4 * 16); 61; 61]
  | [a; b] =>
      [b64_char (a / 4); b64_char (a mod 4 * 16 + b / 16);
       b64_char (b mod 16 * 4); 61]
  | a :: b :: c :: rest =>
      [b64_char (a / 4); b64_char (a mod 4 * 16 + b / 16);
       b64_char (b mod 16 * 4 + c / 64); b64_char (c mod 64)]
      ++ base64_encode rest
  end.

(** [new Uint8Array(bytes)] stores every element modulo 256. *)
Definition bytesToBase64 (bytes : list Z) : jsstring :=
  base64_encode (map (fun b => b mod 256) bytes).

(** [[A-Za-z0-9+/]] *)
Definition is_b64_digit (c : Z) : bool :=
  ((65 <=? c) && (c <=? 90)) || ((97 <=? c) && (c <=? 122))
  || ((48 <=? c) && (c <=? 57)) || (c =? 43) || (c =? 47).

(** What is left of a string after its longest prefix in [[A-Za-z0-9+/]*]. *)
Fixpoint after_b64_digits (s : jsstring) : jsstring :=
  match s with
  | c :: rest => if is_b64_digit c then after_b64_digits rest else s
  | [] => []
  end.

(** [isValidBase64(b64)] on a string: the test of
    [/^[A-Za-z0-9+/]*={0,2}$/], and [clean.length % 4 === 0]. *)
Definition isValidBase64 (b64 : jsstring) : bool :=
  let clean :=
    if bool_decide (take 7 b64 = js "base64:") then drop 7 b64 else b64 in
  bool_decide (after_b64_digits clean ∈ [[]; [61]; [61; 61]])
  && (Z.of_nat (length clean) mod 4 =? 0).

(** ** engine.js: the encoder *)

(** [new Map(entries)]: entries are set in order, so a later entry for the
    same key replaces an earlier one. *)
Definition new_Map (entries : list (jsstring * nat)) : gmap jsstring nat :=
  foldl (fun m e => <[e.1 := e.2]> m) ∅ entries.

(** [text.startsWith(tok, i)] *)
Definition startsWith (text tok : jsstring) (i : nat) : bool :=
  bool_decide (take (length tok) (drop i text) = tok).

(** [text.charCodeAt(i)] for [i] inside the string. *)
Definition charCodeAt (text : jsstring) (i : nat) : Z := default 0 (text !! i).

Record encode_opts := { opt_enableEdgeOps : bool }.

Record encoded := {
  enc_bytes : list Z;
  enc_b64 : jsstring;
  enc_edges : option (list (Z * Z))
}.

(** The outer [for] loop of [encodeSCXQ2].  The inner loop over [dict]
    stops at the first token that matches at [i]: that is [find].  [tok]
    is then an entry of [dict], so [map.get(tok)] is defined. *)
Fixpoint encode_loop (fuel : nat) (text : jsstring) (dict : list jsstring)
    (map : gmap jsstring nat) (i : nat) (bytes : list Z)
    (edges : option (list (Z * Z))) (lastDictIdx : Z)
    : option (list Z * option (list (Z * Z))) :=
  match fuel with
  | O => None
  | S fuel' =>
    if negb (i <? length text)%nat then Some (bytes, edges) else
    match find (fun tok => startsWith text tok i) dict with
    | Some tok =>
        let idx := Z.of_nat (default 0%nat (map !! tok)) in
        encode_loop fuel' text dict map (i + length tok)%nat
          (bytes ++ [128; js_sar idx 8; js_and idx 255])
          (if lastDictIdx >=? 0
           then (fun es => es ++ [(lastDictIdx, idx)]) <$> edges
           else edges)
          idx
    | None =>
        let c := charCodeAt text i in
        encode_loop fuel' text dict map (i + 1)%nat
          (bytes ++ (if c <? 128 then [c]
                     else [129; js_sar c 8; js_and c 255]))
          edges (-1)
    end
  end.

(** [encodeSCXQ2(text, dict, opts)]; [None] when the loop has not ended
    within [fuel] iterations. *)
Definition encodeSCXQ2 (fuel : nat) (text : jsstring) (dict : list jsstring)
    (opts : encode_opts) : option encoded :=
  let map := new_Map (imap (fun i t => (t, i)) dict) in
  let edges := if opt_enableEdgeOps opts then Some [] else None in
  match encode_loop fuel text dict map 0 [] edges (-1) with
  | Some (bytes, edges) =>
      Some {| enc_bytes := bytes; enc_b64 := bytesToBase64 bytes;
              enc_edges := edges |}
  | None => None
  end.

Definition no_opts : encode_opts := {| opt_enableEdgeOps := false |}.

(** ** The inverse law, as the specification states it *)

(** [decode(D, encode(D, S)) == S]: the encoder returns, and the decoder,
    given the same dictionary and the encoder's bytes, returns [S]. *)
Definition inverse_law (text : jsstring) (dict : list jsstring) : Prop :=
  exists fuel r,
    encodeSCXQ2 fuel text dict no_opts = Some r /\
    scxq2DecodeUtf16 (VStr <$> dict) (enc_bytes r) no_limits = DecOk text.

(** ** Operations on values *)

(** [ToBoolean]: [!v] is [negb (truthy v)]. *)
Definition truthy (v : value) : bool :=
  match v with
  | VUndef | VNull => false
  | VBool b => b
  | VNum (Num z) => negb (z =? 0)
  | VNum NaN => false
  | VNum _ => true
  | VStr s => negb (bool_decide (s = []))
  | VArr _ | VObj _ => true
  end.

(** [v && typeof v === "object"], equally [v !== null && typeof v === "object"] *)
Definition is_object (v : value) : bool :=
  match v with VArr _ | VObj _ => true | _ => false end.

(** [Array.isArray(v)] *)
Definition isArray (v : value) : bool :=
  match v with VArr _ => true | _ => false end.

(** [typeof v === "string"] *)
Definition is_string (v : value) : bool :=
  match v with VStr _ => true | _ => false end.

(** [a === b].  Two objects or arrays reached along different paths of a
    parsed tree are different objects. *)
Definition strict_eq (a b : value) : bool :=
  match a, b with
  | VUndef, VUndef | VNull, VNull => true
  | VBool x, VBool y => Bool.eqb x y
  | VNum (Num x), VNum (Num y) => x =? y
  | VNum Infinity, VNum Infinity | VNum NegInfinity, VNum NegInfinity => true
  | VStr s, VStr t => bool_decide (s = t)
  | _, _ => false
  end.

(** [v === "literal"] *)
Definition is_str (v : value) (s : jsstring) : bool := strict_eq v (VStr s).

(** [P.allowedModes.includes(v)] on a list of strings *)
Definition includes (l : list jsstring) (v : value) : bool :=
  existsb (is_str v) l.

(** The decimal digits of a number, as [String(n)] prints an integer. *)
Definition Number_toString (n : Z) : jsstring :=
  js (NilZero.string_of_int (Z.to_int n)).

(** An array index is the canonical decimal form of an integer below
    [2^32 - 1]: no sign, no leading zero. *)
Definition array_index (k : jsstring) : option Z :=
  let digit c := (48 <=? c) && (c <=? 57) in
  match k with
  | [] => None
  | c :: rest =>
      if forallb digit k && (negb (c =? 48) || bool_decide (rest = [])) then
        let n := foldl (fun acc d => acc * 10 + (d - 48)) 0 k in
        if n <? 4294967295 then Some n else None
      else None
  end.

(** *** Property lists

    The own properties of an object, in enumeration order; the values
    are of any type. *)
Section props.
Context {A : Type}.

(** Lookup of an own property in a property list. *)
Fixpoint lookup_prop (props : list (jsstring * A)) (k : jsstring)
    : option A :=
  match props with
  | [] => None
  | (k', v) :: rest => if decide (k' = k) then Some v else lookup_prop rest k
  end.

(** [out[k] = v] on a plain object, by its own properties.  A present key
    keeps its place; a new array index goes among the array indices, which
    come first in ascending order; any other new key goes last.  The key
    [__proto__] sets the prototype and adds no own property. *)
Fixpoint insert_index (n : Z) (k : jsstring) (v : A)
    (props : list (jsstring * A)) : list (jsstring * A) :=
  match props with
  | [] => [(k, v)]
  | (k', v') :: rest =>
      match array_index k' with
      | Some n' =>
          if n' <? n then (k', v') :: insert_index n k v rest
          else (k, v) :: props
      | None => (k, v) :: props
      end
  end.

Fixpoint replace_prop (k : jsstring) (v : A)
    (props : list (jsstring * A)) : list (jsstring * A) :=
  match props with
  | [] => []
  | (k', v') :: rest =>
      if decide (k' = k) then (k, v) :: rest
      else (k', v') :: replace_prop k v rest
  end.

Definition obj_set (props : list (jsstring * A)) (k : jsstring)
    (v : A) : list (jsstring * A) :=
  if decide (k = js "__proto__") then props
  else if bool_decide (is_Some (lookup_prop props k)) then replace_prop k v props
  else match array_index k with
       | Some n => insert_index n k v props
       | None => props ++ [(k, v)]
       end.

(** [delete o[field]] *)
Definition obj_delete (props : list (jsstring * A)) (k : jsstring)
    : list (jsstring * A) :=
  filter (fun p => p.1 <> k) props.

End props.

(** [v[k]] for an object or an array [v]; properties of the prototypes are
    not modelled, no key the sources use names one. *)
Definition get (v : value) (k : jsstring) : value :=
  match v with
  | VObj props => default VUndef (lookup_prop props k)
  | VArr elems =>
      if decide (k = js "length") then VNum (Z.of_nat (length elems))
      else match array_index k with
           | Some n => default VUndef (elems !! Z.to_nat n)
           | None => VUndef
           end
  | _ => VUndef
  end.

(** [k in v] *)
Definition has (v : value) (k : jsstring) : bool :=
  match v with
  | VObj props => bool_decide (is_Some (lookup_prop props k))
  | VArr elems =>
      bool_decide (k = js "length") ||
      match array_index k with
      | Some n => n <? Z.of_nat (length elems)
      | None => false
      end
  | _ => false
  end.

(** [Object.keys(v)] *)
Definition Object_keys (v : value) : list jsstring :=
  match v with
  | VObj props => map fst props
  | VArr elems => map (fun i => Number_toString (Z.of_nat i)) (seq 0 (length elems))
  | _ => []
  end.

(** [s < t] on strings compares code units; [str_leb s t] is [s <= t]. *)
Fixpoint str_leb (s t : jsstring) : bool :=
  match s, t with
  | [], _ => true
  | _ :: _, [] => false
  | a :: s', b :: t' =>
      if a <? b then true else if a =? b then str_leb s' t' else false
  end.

Definition str_le (s t : jsstring) : Prop := str_leb s t = true.

Global Instance str_le_dec : RelDecision str_le.
Proof. intros s t. unfold str_le. apply _. Defined.

(** [keys.sort()]: ascending by code units. *)
Definition sort_keys (keys : list jsstring) : list jsstring :=
  merge_sort str_le keys.

(** ** canon.js (and the same functions of verify.js) *)

(** [sortKeysDeep]: [value_at k] is [sortKeysDeep(value[k])]. *)
Fixpoint sortKeysDeep (v : value) : value :=
  match v with
  | VArr elems => VArr (map sortKeysDeep elems)
  | VObj props =>
      let value_at :=
        (fix value_at (ps : list (jsstring * value)) (k : jsstring) : value :=
           match ps with
           | [] => VUndef
           | (k', v') :: ps' =>
               if decide (k' = k) then sortKeysDeep v' else value_at ps' k
           end) props in
      VObj (foldl (fun out k => obj_set out k (value_at k)) []
                  (sort_keys (map fst props)))
  | _ => v
  end.

(** [strip(obj, fields)] and [copyMinus(obj, field)]: a copy of the own
    properties without the named ones. *)
Definition strip (obj : value) (fields : list jsstring) : value :=
  match obj with
  | VObj props => VObj (foldl obj_delete props fields)
  | VArr elems =>
      VObj (foldl obj_delete
              (imap (fun i v => (Number_toString (Z.of_nat i), v)) elems) fields)
  | _ => VObj []
  end.

Definition copyMinus (obj : value) (field : jsstring) : value :=
  strip obj [field].

(** ** The host *)

(** The regular expressions of [collectTokens]:
    - [re_identifier]: [/[A-Za-z_$][A-Za-z0-9_$]{2,}/g]
    - [re_whitespace]: [/[ \t]{2,}/g]
    - [re_punctuation]: [/[{}()[\];,.=:+\-*/<>!&|%^]{2,}/g]
    - [re_string_literal]: a double-quoted or a single-quoted run of 3 to 64
      characters other than the quote and the newline, in groups 1 and 2
    - [re_json_key]: a double-quoted run of 1 to 64 characters other than
      the quote, the backslash and the newline, in group 1, followed by
      white space and a colon *)
Inductive pattern :=
| re_identifier
| re_whitespace
| re_punctuation
| re_string_literal
| re_json_key.

(** A match [m]: [m[0]] and the groups, [None] for a group that did not
    take part. *)
Definition regexp_match := list (option jsstring).

(** What the sources take from the platform. *)
Class Host := {
  (** [crypto.createHash("sha256").update(s, "utf8").digest("hex")], and
      the WebCrypto digest of the same bytes *)
  sha256HexUtf8 : jsstring -> jsstring;
  (** [JSON.stringify], on objects and arrays *)
  JSON_stringify : value -> jsstring;
  (** [Buffer.from(s, "base64")]: lenient, it returns a buffer for every
      string *)
  Buffer_from_base64 : jsstring -> list Z;
  (** [new TextEncoder().encode(s).length] *)
  utf8_length : jsstring -> Z;
  (** [text.matchAll(re)] *)
  matchAll : pattern -> jsstring -> list regexp_match;
  (** [isoUtc()]: the clock, as text *)
  isoUtc : jsstring
}.

(** [canon(obj)] *)
Definition canon `{Host} (obj : value) : jsstring :=
  JSON_stringify (sortKeysDeep obj).

(** ** Orderings of the keys of a value *)

(** [key_permuted v v']: [v'] is [v] with the keys of its objects, at
    every depth, listed in another order; the keys of an object are
    distinct, and each key carries the same value, up to the order of the
    keys inside it. *)
Inductive key_permuted : value -> value -> Prop :=
| kp_prim v : is_object v = false -> key_permuted v v
| kp_arr elems elems' :
    Forall2 key_permuted elems elems' ->
    key_permuted (VArr elems) (VArr elems')
| kp_obj props moved props' :
    NoDup (map fst props) ->
    Permutation props moved ->
    Forall2 (fun p q => p.1 = q.1 /\ key_permuted p.2 q.2) moved props' ->
    key_permuted (VObj props) (VObj props').

(** ** verify.js: the pack verifier *)

(** [v.name], [v["name"]] *)
Definition prop (v : value) (name : string) : value := get v (js name).

(** [name in v] *)
Definition has_prop (v : value) (name : string) : bool := has v (js name).

(** String and object literals. *)
Definition str (s : string) : value := VStr (js s).
Definition obj (fields : list (string * value)) : value :=
  VObj (map (fun f => (js f.1, f.2)) fields).

(** [v.length] of an array *)
Definition array_elems (v : value) : list value :=
  match v with VArr elems => elems | _ => [] end.

Definition KNOWN_PACK_FIELDS : list jsstring :=
  map js ["@type"; "@version"; "mode"; "encoding"; "created_utc";
          "dict"; "blocks"; "proof"; "pack_sha256_canon"]%string.

Definition KNOWN_BLOCK_FIELDS : list jsstring :=
  map js ["@type"; "@version"; "mode"; "encoding";
          "lane_id"; "source_sha256_utf8"; "dict_sha256_canon";
          "b64"; "block_sha256_canon"; "edges"; "ops";
          "created_utc"; "original_bytes_utf8"]%string.

(** The [opts] argument: the fields it overrides. *)
Module Opts.
Record t := {
  requireRoundtrip : option bool;
  requireProof : option bool;
  maxDictEntries : option Z;
  maxDictEntryUnits : option Z;
  maxBlocks : option Z;
  maxBlockB64Bytes : option Z;
  maxOutputUnits : option Z;
  allowEdges : option bool;
  allowUnknownPackFields : option bool;
  allowUnknownBlockFields : option bool;
  allowedModes : option (list jsstring);
  allowedEncodings : option (list jsstring);
  failOnFirstError : option bool
}.
(** [{}] *)
Definition none : t :=
  Build_t None None None None None None None None None None None None None.

(** [{ ...opts, requireProof: false }] and
    [{ ...opts, requireRoundtrip: false }] *)
Definition without_proof (opts : t) : t :=
  Build_t (requireRoundtrip opts) (Some false) (maxDictEntries opts)
    (maxDictEntryUnits opts) (maxBlocks opts) (maxBlockB64Bytes opts)
    (maxOutputUnits opts) (allowEdges opts) (allowUnknownPackFields opts)
    (allowUnknownBlockFields opts) (allowedModes opts) (allowedEncodings opts)
    (failOnFirstError opts).

Definition without_roundtrip (opts : t) : t :=
  Build_t (Some false) (requireProof opts) (maxDictEntries opts)
    (maxDictEntryUnits opts) (maxBlocks opts) (maxBlockB64Bytes opts)
    (maxOutputUnits opts) (allowEdges opts) (allowUnknownPackFields opts)
    (allowUnknownBlockFields opts) (allowedModes opts) (allowedEncodings opts)
    (failOnFirstError opts).
End Opts.

(** [{ ...SCXQ2_DEFAULT_POLICY, ...(opts || {}) }] *)
Definition merge_policy (opts : Opts.t) : Policy.t :=
  let d := SCXQ2_DEFAULT_POLICY in {|
  Policy.requireRoundtrip :=
    default (Policy.requireRoundtrip d) (Opts.requireRoundtrip opts);
  Policy.requireProof := default (Policy.requireProof d) (Opts.requireProof opts);
  Policy.maxDictEntries :=
    default (Policy.maxDictEntries d) (Opts.maxDictEntries opts);
  Policy.maxDictEntryUnits :=
    default (Policy.maxDictEntryUnits d) (Opts.maxDictEntryUnits opts);
  Policy.maxBlocks := default (Policy.maxBlocks d) (Opts.maxBlocks opts);
  Policy.maxBlockB64Bytes :=
    default (Policy.maxBlockB64Bytes d) (Opts.maxBlockB64Bytes opts);
  Policy.maxOutputUnits :=
    default (Policy.maxOutputUnits d) (Opts.maxOutputUnits opts);
  Policy.allowEdges := default (Policy.allowEdges d) (Opts.allowEdges opts);
  Policy.allowUnknownPackFields :=
    default (Policy.allowUnknownPackFields d) (Opts.allowUnknownPackFields opts);
  Policy.allowUnknownBlockFields :=
    default (Policy.allowUnknownBlockFields d)
            (Opts.allowUnknownBlockFields opts);
  Policy.allowedModes := default (Policy.allowedModes d) (Opts.allowedModes opts);
  Policy.allowedEncodings :=
    default (Policy.allowedEncodings d) (Opts.allowedEncodings opts);
  Policy.failOnFirstError :=
    default (Policy.failOnFirstError d) (Opts.failOnFirstError opts)
|}.

(** [err(code, phase, message, at = {})] *)
Definition err (code phase message : string) (at_ : value) : value :=
  obj [("@type", str "scxq2.error"); ("@version", str "1.0.0");
       ("code", str code); ("phase", str phase); ("severity", str "fatal");
       ("message", str message); ("at", at_)]%string.

(** [fail(e)] *)
Definition fail (e : value) : value :=
  obj [("@type", str "scxq2.verify.result"); ("@version", str "1.0.0");
       ("ok", VBool false); ("error", e)]%string.

(** [ok(packSha, dictSha, blocks)] *)
Definition ok (packSha dictSha : value) (blocks : Z) : value :=
  obj [("@type", str "scxq2.verify.result"); ("@version", str "1.0.0");
       ("ok", VBool true); ("pack_sha256_canon", packSha);
       ("dict_sha256_canon", dictSha); ("blocks", VNum blocks)]%string.

(** [res.error.code] *)
Definition error_code (res : value) : value := prop (prop res "error") "code".

(** [{ field: f }] and [{ field: f, index: k }] *)
Definition at_field (f : string) : value := obj [("field", str f)]%string.
Definition at_index (f : string) (k : nat) : value :=
  obj [("field", str f); ("index", VNum (Z.of_nat k))]%string.

(** [hasUnknownFields(obj, knownSet)] *)
Definition hasUnknownFields (o : value) (known : list jsstring) : bool :=
  existsb (fun k => negb (bool_decide (k ∈ known))) (Object_keys o).

(** [\d] *)
Definition is_digit (c : Z) : bool := (48 <=? c) && (c <=? 57).

(** [isoUtcLike(s)]: the regular expression
    [^\d{4}-\d{2}-\d{2}T\d{2}:\d{2}:\d{2}(\.\d+)?Z$]. *)
Definition isoUtcLike (v : value) : bool :=
  match v with
  | VStr (y1 :: y2 :: y3 :: y4 :: 45 :: m1 :: m2 :: 45 :: d1 :: d2 :: 84 ::
          h1 :: h2 :: 58 :: n1 :: n2 :: 58 :: s1 :: s2 :: rest) =>
      forallb is_digit [y1; y2; y3; y4; m1; m2; d1; d2; h1; h2; n1; n2; s1; s2]
      && match rest with
         | [90] => true
         | 46 :: f1 :: frac =>
             is_digit f1 &&
             match reverse frac with
             | [] => false
             | z :: digits => (z =? 90) && forallb is_digit digits
             end
         | _ => false
         end
  | _ => false
  end.

(** [[A-Za-z0-9+/=]] *)
Definition is_b64_char (c : Z) : bool :=
  ((65 <=? c) && (c <=? 90)) || ((97 <=? c) && (c <=? 122))
  || ((48 <=? c) && (c <=? 57)) || (c =? 43) || (c =? 47) || (c =? 61).

(** [strictB64Decode(b64)]: [None] is [null].  [Buffer.from] does not
    throw on a string, so the [catch] branch is never taken. *)
Definition strictB64Decode `{Host} (b64 : value) : option (list Z) :=
  match b64 with
  | VStr s =>
      if bool_decide (s = []) then None
      else if negb (forallb is_b64_char s) then None
      else Some (Buffer_from_base64 s)
  | _ => None
  end.

(** [lane_id ?? undefined] *)
Definition or_undefined (v : value) : value :=
  match v with VNull => VUndef | _ => v end.

(** [mapDecodeErr(de, lane_id, index)]; the [default] case of the
    [switch] answers kinds that the decoder does not produce. *)
Definition mapDecodeErr (de : decode_error) (lane_id : value) (index : nat)
    : value :=
  let at_ off :=
    obj [("lane_id", or_undefined lane_id); ("index", VNum (Z.of_nat index));
         ("byte_offset", VNum (Z.of_nat off))]%string in
  match de with
  | invalid_byte off _ =>
      err "scxq2.error.decode_invalid_byte" "decode" "invalid byte" (at_ off)
  | truncated_sequence off =>
      err "scxq2.error.decode_truncated_sequence" "decode"
          "truncated sequence" (at_ off)
  | dict_index_oob off _ =>
      err "scxq2.error.decode_dict_index_oob" "decode"
          "dict index out of bounds" (at_ off)
  | dict_entry_invalid off _ =>
      err "scxq2.error.decode_dict_entry_invalid" "decode"
          "dict entry invalid" (at_ off)
  | output_limit off =>
      err "scxq2.error.decode_output_limit" "decode"
          "output limit exceeded" (at_ off)
  end.

(** Each step of the verifier is a run of checks: [Some r] when a check
    returns the result [r], [None] when all of them pass. *)
Definition length_of (v : value) : Z := Z.of_nat (length (array_elems v)).

(** STEP 1 — pack structure *)
Definition pack_structure (P : Policy.t) (pack : value) : option value :=
  if negb (truthy pack) || negb (is_object pack) then
    Some (fail (err "scxq2.error.pack_missing" "pack" "pack missing" (obj [])))
  else if negb (is_str (prop pack "@type") (js "scxq2.pack")) then
    Some (fail (err "scxq2.error.pack_type_invalid" "pack" "bad @type"
                    (at_field "@type")))
  else if negb (is_str (prop pack "@version") (js "1.0.0")) then
    Some (fail (err "scxq2.error.pack_version_unsupported" "pack"
                    "unsupported @version" (at_field "@version")))
  else if negb (includes (Policy.allowedModes P) (prop pack "mode")) then
    Some (fail (err "scxq2.error.pack_mode_mismatch" "pack" "mode not allowed"
                    (at_field "mode")))
  else if negb (includes (Policy.allowedEncodings P) (prop pack "encoding")) then
    Some (fail (err "scxq2.error.pack_encoding_mismatch" "pack"
                    "encoding not allowed" (at_field "encoding")))
  else if negb (Policy.allowUnknownPackFields P)
          && hasUnknownFields pack KNOWN_PACK_FIELDS then
    Some (fail (err "scxq2.error.pack_field_forbidden" "pack"
                    "unknown pack field" (obj [])))
  else if has_prop pack "created_utc"
          && negb (isoUtcLike (prop pack "created_utc")) then
    Some (fail (err "scxq2.error.pack_created_utc_invalid" "pack"
                    "invalid created_utc" (at_field "created_utc")))
  else if negb (truthy (prop pack "dict")) then
    Some (fail (err "scxq2.error.dict_missing" "dict" "dict missing"
                    (at_field "dict")))
  else if negb (isArray (prop pack "blocks"))
          || (length_of (prop pack "blocks") <? 1) then
    Some (fail (err "scxq2.error.pack_blocks_missing" "pack"
                    "blocks missing/empty" (at_field "blocks")))
  else if length_of (prop pack "blocks") >? Policy.maxBlocks P then
    Some (fail (err "scxq2.error.decode_input_limit" "pack" "too many blocks"
                    (at_field "blocks")))
  else if Policy.requireProof P && negb (truthy (prop pack "proof")) then
    Some (fail (err "scxq2.error.pack_proof_missing" "pack" "proof required"
                    (at_field "proof")))
  else None.

(** The loop over [dict.dict], from index [j]. *)
Fixpoint dict_entries (P : Policy.t) (entries : list value) (j : nat)
    : option value :=
  match entries with
  | [] => None
  | e :: rest =>
      match e with
      | VStr s =>
          if Z.of_nat (length s) >? Policy.maxDictEntryUnits P then
            Some (fail (err "scxq2.error.dict_entry_exceeds_limit" "dict"
                            "dict entry too long" (at_index "dict.dict" j)))
          else dict_entries P rest (S j)
      | _ =>
          Some (fail (err "scxq2.error.dict_entry_type_invalid" "dict"
                          "dict entry not string" (at_index "dict.dict" j)))
      end
  end.

(** STEP 2 — dict structure, up to the test of the array *)
Definition dict_header (P : Policy.t) (dict : value) : option value :=
  if negb (truthy dict) || negb (is_object dict) then
    Some (fail (err "scxq2.error.dict_type_invalid" "dict" "dict not object"
                    (at_field "dict")))
  else if negb (is_str (prop dict "@type") (js "scxq2.dict")) then
    Some (fail (err "scxq2.error.dict_type_invalid" "dict" "bad dict @type"
                    (at_field "dict.@type")))
  else if negb (is_str (prop dict "@version") (js "1.0.0")) then
    Some (fail (err "scxq2.error.dict_version_unsupported" "dict"
                    "unsupported dict @version" (at_field "dict.@version")))
  else if negb (includes (Policy.allowedModes P) (prop dict "mode")) then
    Some (fail (err "scxq2.error.pack_mode_mismatch" "dict"
                    "dict mode mismatch" (at_field "dict.mode")))
  else if negb (includes (Policy.allowedEncodings P) (prop dict "encoding")) then
    Some (fail (err "scxq2.error.pack_encoding_mismatch" "dict"
                    "dict encoding mismatch" (at_field "dict.encoding")))
  else if negb (isArray (prop dict "dict")) then
    Some (fail (err "scxq2.error.dict_entry_type_invalid" "dict"
                    "dict.dict must be array" (at_field "dict.dict")))
  else None.

(** STEP 2, from the size check on *)
Definition dict_body (P : Policy.t) (dict : value) : option value :=
  if length_of (prop dict "dict") >? Policy.maxDictEntries P then
    Some (fail (err "scxq2.error.dict_size_exceeds_limit" "dict"
                    "dict too large" (at_field "dict.dict")))
  else
    match dict_entries P (array_elems (prop dict "dict")) 0 with
    | Some r => Some r
    | None =>
        if negb (truthy (prop dict "dict_sha256_canon")) then
          Some (fail (err "scxq2.error.dict_sha_missing" "canon"
                          "dict sha missing" (at_field "dict.dict_sha256_canon")))
        else None
    end.

Definition dict_structure (P : Policy.t) (dict : value) : option value :=
  match dict_header P dict with
  | Some r => Some r
  | None => dict_body P dict
  end.

(** The checks of STEP 3 on the block [b] at index [k]. *)
Definition block_checks (P : Policy.t) (dictSha b : value) (k : nat)
    : option value :=
  if negb (truthy b) || negb (is_object b)
     || negb (is_str (prop b "@type") (js "scxq2.block")) then
    Some (fail (err "scxq2.error.block_type_invalid" "block" "bad block @type"
                    (at_index "blocks" k)))
  else if negb (includes (Policy.allowedModes P) (prop b "mode")) then
    Some (fail (err "scxq2.error.block_mode_mismatch" "block"
                    "block mode mismatch" (at_index "blocks.mode" k)))
  else if negb (includes (Policy.allowedEncodings P) (prop b "encoding")) then
    Some (fail (err "scxq2.error.block_encoding_mismatch" "block"
                    "block encoding mismatch" (at_index "blocks.encoding" k)))
  else if negb (is_string (prop b "b64")) || is_str (prop b "b64") [] then
    Some (fail (err "scxq2.error.block_b64_missing" "block" "b64 missing"
                    (at_index "blocks.b64" k)))
  else if negb (truthy (prop b "dict_sha256_canon")) then
    Some (fail (err "scxq2.error.block_dict_link_missing" "block"
                    "missing dict link" (at_index "blocks.dict_sha256_canon" k)))
  else if negb (strict_eq (prop b "dict_sha256_canon") dictSha) then
    Some (fail (err "scxq2.error.block_dict_link_mismatch" "block"
                    "dict link mismatch" (at_index "blocks.dict_sha256_canon" k)))
  else if negb (truthy (prop b "block_sha256_canon")) then
    Some (fail (err "scxq2.error.block_sha_missing" "canon" "block sha missing"
                    (at_index "blocks.block_sha256_canon" k)))
  else if Policy.requireRoundtrip P
          && negb (truthy (prop b "source_sha256_utf8")) then
    Some (fail (err "scxq2.error.block_source_sha_missing" "block"
                    "source sha required" (at_index "blocks.source_sha256_utf8" k)))
  else if negb (Policy.allowUnknownBlockFields P)
          && hasUnknownFields b KNOWN_BLOCK_FIELDS then
    Some (fail (err "scxq2.error.pack_field_forbidden" "block"
                    "unknown block field" (at_index "blocks" k)))
  else if negb (Policy.allowEdges P) && has_prop b "edges" then
    Some (fail (err "scxq2.error.policy_disabled_feature" "block"
                    "edges not allowed" (at_index "blocks.edges" k)))
  else None.

(** A [for] loop over the blocks from index [k], returning at the first
    block on which [body] returns. *)
Fixpoint for_blocks (body : value -> nat -> option value)
    (blocks : list value) (k : nat) : option value :=
  match blocks with
  | [] => None
  | b :: rest =>
      match body b k with
      | Some r => Some r
      | None => for_blocks body rest (S k)
      end
  end.

(** STEP 3 — block structure *)
Definition block_structure (P : Policy.t) (pack : value) : option value :=
  let dictSha := prop (prop pack "dict") "dict_sha256_canon" in
  for_blocks (block_checks P dictSha) (array_elems (prop pack "blocks")) 0.

Section verifier.
Context `{Host}.

(** STEP 4 — canonical hash verification *)
Definition pack_sha (pack : value) : option value :=
  if negb (truthy (prop pack "pack_sha256_canon")) then
    Some (fail (err "scxq2.error.pack_sha_missing" "canon" "pack sha missing"
                    (at_field "pack_sha256_canon")))
  else
    let packSha :=
      sha256HexUtf8 (canon (copyMinus pack (js "pack_sha256_canon"))) in
    if negb (strict_eq (VStr packSha) (prop pack "pack_sha256_canon")) then
      Some (fail (err "scxq2.error.pack_sha_mismatch" "canon"
                      "pack sha mismatch" (at_field "pack_sha256_canon")))
    else None.

Definition dict_sha (dict : value) : option value :=
  let dictSha2 :=
    sha256HexUtf8 (canon (copyMinus dict (js "dict_sha256_canon"))) in
  if negb (strict_eq (VStr dictSha2) (prop dict "dict_sha256_canon")) then
    Some (fail (err "scxq2.error.dict_sha_mismatch" "canon"
                    "dict sha mismatch" (at_field "dict.dict_sha256_canon")))
  else None.

Definition block_sha (b : value) (k : nat) : option value :=
  let bSha2 :=
    sha256HexUtf8 (canon (copyMinus b (js "block_sha256_canon"))) in
  if negb (strict_eq (VStr bSha2) (prop b "block_sha256_canon")) then
    Some (fail (err "scxq2.error.block_sha_mismatch" "canon"
                    "block sha mismatch"
                    (at_index "blocks.block_sha256_canon" k)))
  else None.

Definition canonical_hashes (pack : value) : option value :=
  match pack_sha pack with
  | Some r => Some r
  | None =>
      match dict_sha (prop pack "dict") with
      | Some r => Some r
      | None => for_blocks block_sha (array_elems (prop pack "blocks")) 0
      end
  end.

(** STEP 5 — base64 decode, decode law, roundtrip, on the block [b] at
    index [k] *)
Definition block_decode (P : Policy.t) (dict b : value) (k : nat)
    : option value :=
  match strictB64Decode (prop b "b64") with
  | None =>
      Some (fail (err "scxq2.error.block_b64_invalid" "block"
                      "invalid base64" (at_index "blocks.b64" k)))
  | Some bytes =>
      if Z.of_nat (length bytes) >? Policy.maxBlockB64Bytes P then
        Some (fail (err "scxq2.error.decode_input_limit" "decode"
                        "block bytes exceed limit" (at_index "blocks.b64" k)))
      else
        match scxq2DecodeUtf16 (array_elems (prop dict "dict")) bytes
                {| lim_maxOutputUnits := Some (Policy.maxOutputUnits P) |} with
        | DecErr de => Some (fail (mapDecodeErr de (prop b "lane_id") k))
        | DecOk v =>
            if Policy.requireRoundtrip P
               && negb (strict_eq (VStr (sha256HexUtf8 v))
                                  (prop b "source_sha256_utf8")) then
              Some (fail (err "scxq2.error.proof_roundtrip_sha_mismatch"
                              "proof" "roundtrip sha mismatch"
                              (obj [("lane_id", prop b "lane_id");
                                    ("index", VNum (Z.of_nat k))]%string)))
            else None
        end
  end.

Definition decode_blocks (P : Policy.t) (pack : value) : option value :=
  for_blocks (block_decode P (prop pack "dict"))
    (array_elems (prop pack "blocks")) 0.

(** The loop over the witness fields of the proof. *)
Fixpoint witness_fields (proof : value) (fields : list string)
    : option value :=
  match fields with
  | [] => None
  | f :: rest =>
      if negb (truthy (prop proof f)) then
        Some (fail (err "scxq2.error.proof_witness_missing" "proof"
                        "missing proof witness"
                        (obj [("field", VStr (js "proof." ++ js f))]%string)))
      else witness_fields proof rest
  end.

(** STEP 6 — proof object *)
Definition proof_object (P : Policy.t) (pack : value) : option value :=
  if Policy.requireProof P then
    let proof := prop pack "proof" in
    if negb (truthy proof) || negb (is_object proof) then
      Some (fail (err "scxq2.error.proof_type_invalid" "proof"
                      "proof invalid" (at_field "proof")))
    else if negb (is_str (prop proof "@type") (js "cc.proof")) then
      Some (fail (err "scxq2.error.proof_type_invalid" "proof"
                      "bad proof @type" (at_field "proof.@type")))
    else if negb (is_str (prop proof "@version") (js "1.0.0")) then
      Some (fail (err "scxq2.error.proof_version_unsupported" "proof"
                      "unsupported proof version" (at_field "proof.@version")))
    else if negb (strict_eq (prop proof "ok") (VBool true)) then
      Some (fail (err "scxq2.error.proof_ok_false" "proof" "proof ok false"
                      (at_field "proof.ok")))
    else
      witness_fields proof
        ["engine"; "source_sha256_utf8"; "dict_sha256_canon";
         "block_sha256_canon"; "roundtrip_sha256_utf8"]%string
  else None.

(** The steps in order: the first result returned is the result. *)
Fixpoint first_result (steps : list (option value)) (otherwise : value)
    : value :=
  match steps with
  | [] => otherwise
  | Some r :: _ => r
  | None :: rest => first_result rest otherwise
  end.

(** [scxq2PackVerify(pack, opts = {})] *)
Definition scxq2PackVerify (pack : value) (opts : Opts.t) : value :=
  let P := merge_policy opts in
  first_result
    [pack_structure P pack;
     dict_structure P (prop pack "dict");
     block_structure P pack;
     canonical_hashes pack;
     decode_blocks P pack;
     proof_object P pack]
    (ok (prop pack "pack_sha256_canon")
        (prop (prop pack "dict") "dict_sha256_canon")
        (length_of (prop pack "blocks"))).
End verifier.

(** ** engine.js: decompression *)

(** How a call ends. *)
Inductive outcome (A : Type) :=
| Returns (a : A)
| Throws (msg : jsstring).
Arguments Returns {A} a.
Arguments Throws {A} msg.

Definition CC_ENGINE_id : string := "asx://cc/engine/scxq2.v1".
Definition SCXQ2_ENCODING_mode : string := "SCXQ2-DICT16-B64".
Definition SCXQ2_ENCODING_encoding : string := "SCXQ2-1".

(** [verifyPack(dictJson, blockJson)] *)
Definition verifyPack (dictJson blockJson : value) : outcome unit :=
  if negb (truthy dictJson) || negb (is_object dictJson) then
    Throws (js "SCXQ2: missing dict")
  else if negb (truthy blockJson) || negb (is_object blockJson) then
    Throws (js "SCXQ2: missing block")
  else if negb (is_str (prop dictJson "@type") (js "scxq2.dict")) then
    Throws (js "SCXQ2: invalid dict @type")
  else if negb (is_str (prop blockJson "@type") (js "scxq2.block")) then
    Throws (js "SCXQ2: invalid block @type")
  else if negb (isArray (prop dictJson "dict")) then
    Throws (js "SCXQ2: dict must be array")
  else if negb (is_string (prop blockJson "b64")) then
    Throws (js "SCXQ2: block b64 must be string")
  else if negb (is_str (prop dictJson "mode") (js SCXQ2_ENCODING_mode)) then
    Throws (js "SCXQ2: invalid dict mode")
  else if negb (is_str (prop blockJson "mode") (js SCXQ2_ENCODING_mode)) then
    Throws (js "SCXQ2: invalid block mode")
  else if negb (is_str (prop dictJson "encoding") (js SCXQ2_ENCODING_encoding)) then
    Throws (js "SCXQ2: invalid dict encoding")
  else if negb (is_str (prop blockJson "encoding") (js SCXQ2_ENCODING_encoding)) then
    Throws (js "SCXQ2: invalid block encoding")
  else if truthy (prop blockJson "dict_sha256_canon")
          && truthy (prop dictJson "dict_sha256_canon")
          && negb (strict_eq (prop blockJson "dict_sha256_canon")
                             (prop dictJson "dict_sha256_canon")) then
    Throws (js "SCXQ2: dict linkage mismatch")
  else Returns tt.

(** [base64ToBytes(b64)] on a string: the prefix [base64:] is optional. *)
Definition base64ToBytes `{Host} (b64 : jsstring) : list Z :=
  let clean :=
    if bool_decide (take 7 b64 = js "base64:") then drop 7 b64 else b64 in
  Buffer_from_base64 clean.

(** [dict[idx]] *)
Definition element (arr : list value) (idx : Z) : value :=
  if idx <? 0 then VUndef else default VUndef (arr !! Z.to_nat idx).

(** The body of the [for] loop of [ccDecompress], with the [i++] that
    follows it; the state is [(i, out)]. *)
Definition decompress_body (dict : list value) (bytes : list Z) (i : nat)
    (out : jsstring) : step (nat * jsstring) (outcome jsstring) :=
  let b := byte_at bytes i in
  if b =? 128 then
    let idx := pair_at bytes i in
    match element dict idx with
    | VStr tok => Continue ((i + 3)%nat, out ++ tok)
    | _ =>
        Return (Throws (js "SCXQ2: invalid dict reference at index "
                        ++ Number_toString idx))
    end
  else if b =? 129 then
    Continue ((i + 3)%nat, out ++ [fromCharCode (pair_at bytes i)])
  else Continue ((i + 1)%nat, out ++ [fromCharCode b]).

Fixpoint decompress_loop (fuel : nat) (dict : list value) (bytes : list Z)
    (i : nat) (out : jsstring) : option (outcome jsstring) :=
  match fuel with
  | O => None
  | S fuel' =>
    if negb (i <? length bytes)%nat then Some (Returns out) else
    match decompress_body dict bytes i out with
    | Continue (i', out') => decompress_loop fuel' dict bytes i' out'
    | Return r => Some r
    end
  end.

(** The loop returns within one iteration per byte. *)
Lemma decompress_loop_total fuel dict bytes i out :
  (length bytes - i < fuel)%nat ->
  is_Some (decompress_loop fuel dict bytes i out).
Proof.
  revert i out. induction fuel as [|fuel IH]; intros i out Hf; [lia|].
  simpl. destruct (i <? length bytes)%nat eqn:Hi; simpl; [|eauto].
  tests_to_props.
  destruct (decompress_body dict bytes i out) as [[i' out']|r] eqn:Hb; [|eauto].
  apply IH. unfold decompress_body in Hb.
  repeat case_match; simplify_eq; lia.
Qed.

(** [ccDecompress(dictJson, blockJson)] *)
Definition ccDecompress `{Host} (dictJson blockJson : value)
    : outcome jsstring :=
  match verifyPack dictJson blockJson with
  | Throws msg => Throws msg
  | Returns _ =>
      let dict := array_elems (prop dictJson "dict") in
      let bytes :=
        base64ToBytes
          (match prop blockJson "b64" with VStr s => s | _ => [] end) in
      is_Some_proj
        (decompress_loop_total (S (length bytes)) dict bytes 0 []
           (proj2 (Nat.lt_succ_r _ _) (Nat.le_sub_l _ _)))
  end.

(** ** engine.js: compression *)

(** [Math.max(a, b)] and [Math.min(a, b)] *)
Definition Math_max (a b : number) : number :=
  match a, b with
  | NaN, _ | _, NaN => NaN
  | Infinity, _ | _, Infinity => Infinity
  | NegInfinity, x | x, NegInfinity => x
  | Num x, Num y => Num (Z.max x y)
  end.

Definition Math_min (a b : number) : number :=
  match a, b with
  | NaN, _ | _, NaN => NaN
  | NegInfinity, _ | _, NegInfinity => NegInfinity
  | Infinity, x | x, Infinity => x
  | Num x, Num y => Num (Z.min x y)
  end.

(** [clamp(v, lo, hi)] *)
Definition clamp (v lo hi : number) : number := Math_min hi (Math_max lo v).

(** [n >= m] and [n < m] for an integer [n] *)
Definition ge_number (n : Z) (m : number) : bool :=
  match m with
  | Num z => n >=? z
  | NegInfinity => true
  | NaN | Infinity => false
  end.

Definition lt_number (n : Z) (m : number) : bool :=
  match m with
  | Num z => n <? z
  | Infinity => true
  | NaN | NegInfinity => false
  end.

(** The options of [ccCompress]: [None] for a field that is absent,
    [undefined] or [null]; the flags after [!!]. *)
Module CCOpts.
Record t := {
  maxDict : option number;
  minLen : option number;
  created_utc : option jsstring;
  source_file : option value;
  enableFieldOps : bool;
  enableEdgeOps : bool;
  noStrings : bool;
  noWS : bool;
  noPunct : bool
}.
(** [{}] *)
Definition none : t :=
  Build_t None None None None false false false false false.
End CCOpts.

(** The result of [normalizeOpts]. *)
Record normalized := {
  o_maxDict : number;
  o_minLen : number;
  o_created_utc : jsstring;
  o_source_file : value;
  o_enableFieldOps : bool;
  o_enableEdgeOps : bool;
  o_noStrings : bool;
  o_noWS : bool;
  o_noPunct : bool
}.

Definition normalizeOpts `{Host} (opts : CCOpts.t) : normalized := {|
  o_maxDict := clamp (default (Num 1024) (CCOpts.maxDict opts)) 1 65535;
  o_minLen := clamp (default (Num 3) (CCOpts.minLen opts)) 2 128;
  o_created_utc := default isoUtc (CCOpts.created_utc opts);
  o_source_file := default VNull (CCOpts.source_file opts);
  o_enableFieldOps := CCOpts.enableFieldOps opts;
  o_enableEdgeOps := CCOpts.enableEdgeOps opts;
  o_noStrings := CCOpts.noStrings opts;
  o_noWS := CCOpts.noWS opts;
  o_noPunct := CCOpts.noPunct opts
|}.

(** [s.replace(/\r\n/g, "\n")] and [s.replace(/\r/g, "\n")] *)
Fixpoint replace_crlf (s : jsstring) : jsstring :=
  match s with
  | 13 :: 10 :: rest => 10 :: replace_crlf rest
  | c :: rest => c :: replace_crlf rest
  | [] => []
  end.

Definition replace_cr (s : jsstring) : jsstring :=
  map (fun c => if c =? 13 then 10 else c) s.

(** [canonicalizeInput(input, o)] on a string *)
Definition canonicalizeInput (input : jsstring) : jsstring :=
  replace_cr (replace_crlf input).

(** [estimateBytes(s)] *)
Definition estimateBytes (s : jsstring) : Z :=
  foldl (fun bytes c => bytes + (if c <? 128 then 1 else 3)) 0 s.

(** The [Map] of frequencies, in insertion order:
    [freq.set(tok, (freq.get(tok) || 0) + 1)]. *)
Fixpoint freq_incr (freq : list (jsstring * Z)) (tok : jsstring)
    : list (jsstring * Z) :=
  match freq with
  | [] => [(tok, 1)]
  | (t, n) :: rest =>
      if decide (t = tok) then (t, n + 1) :: rest
      else (t, n) :: freq_incr rest tok
  end.

(** [add(tok)] *)
Definition add (o : normalized) (freq : list (jsstring * Z)) (tok : jsstring)
    : list (jsstring * Z) :=
  if bool_decide (tok = []) || lt_number (Z.of_nat (length tok)) (o_minLen o)
  then freq
  else if bool_decide (0 ∈ tok) then freq
  else freq_incr freq tok.

(** [m[i]], the empty string standing for [undefined]: both are falsy. *)
Definition group (m : regexp_match) (i : nat) : jsstring :=
  default [] (default None (m !! i)).

(** White space and line terminators, as [trim] and [\s] take them. *)
Definition is_space (c : Z) : bool :=
  bool_decide (c ∈ [9; 10; 11; 12; 13; 32; 160; 5760; 8232; 8233; 8239; 8287;
                    12288; 65279])
  || ((8192 <=? c) && (c <=? 8202)).

Fixpoint trimStart (s : jsstring) : jsstring :=
  match s with
  | c :: rest => if is_space c then trimStart rest else s
  | [] => []
  end.

(** [s.trim()] *)
Definition trim (s : jsstring) : jsstring :=
  reverse (trimStart (reverse (trimStart s))).

(** One entry of the ranking: [{ tok, count, totalSavings }]. *)
Record scored := {
  tok : jsstring;
  count : Z;
  totalSavings : Z
}.

(** The comparator of [scored.sort]: [scored_le a b] when it does not put
    [a] after [b]. *)
Definition scored_leb (a b : scored) : bool :=
  let by_savings := totalSavings b - totalSavings a in
  let by_length := Z.of_nat (length (tok b)) - Z.of_nat (length (tok a)) in
  if by_savings <? 0 then true
  else if 0 <? by_savings then false
  else if by_length <? 0 then true
  else if 0 <? by_length then false
  else str_leb (tok a) (tok b).

Definition scored_le (a b : scored) : Prop := scored_leb a b = true.

Global Instance scored_le_dec : RelDecision scored_le.
Proof. intros a b. unfold scored_le. apply _. Defined.

(** The comparator of [dict.sort]: longest first, then by code units. *)
Definition dict_leb (a b : jsstring) : bool :=
  let by_length := Z.of_nat (length b) - Z.of_nat (length a) in
  if by_length <? 0 then true
  else if 0 <? by_length then false
  else str_leb a b.

Definition dict_le (a b : jsstring) : Prop := dict_leb a b = true.

Global Instance dict_le_dec : RelDecision dict_le.
Proof. intros a b. unfold dict_le. apply _. Defined.

(** ** sha.js: the crypto module of Node *)

(** What [getNodeCrypto] asks of the platform: whether
    [process.versions.node] is there, and whether [require("crypto")]
    returns the module.  In an ES module, as the package is shipped,
    [require] is not defined and the call throws. *)
Record platform := {
  process_versions_node : bool;
  require_crypto : bool
}.

Inductive crypto_module := node_crypto.

(** [getNodeCrypto()]: the module, or [null]. *)
Definition getNodeCrypto (p : platform) : option crypto_module :=
  if process_versions_node p then
    if require_crypto p then Some node_crypto else None
  else None.

(** Node loading the package as the ES module that it is. *)
Definition es_module_on_node : platform :=
  {| process_versions_node := true; require_crypto := false |}.

(** Node with [require] in scope, as in a CommonJS bundle of the package. *)
Definition commonjs_on_node : platform :=
  {| process_versions_node := true; require_crypto := true |}.

(** ** engine.js: lanes *)

(** *** [String(x)] on a number

    A number [Num z] is a double whose value is the integer [z]: every
    integer below [2^53] in absolute value is one, and from there on a
    double is a multiple of its unit in the last place.  [String] prints
    the shortest decimal that reads back as the double, and of these the
    closest to it: up to 21 digits in full, and in exponent form from
    there on. *)

(** The unit in the last place of the double [x], for [2^52 <= x]. *)
Definition ulp (x : Z) : Z := 2 ^ (Z.log2 x - 52).

(** The decimal [v] reads back as the double [x]: it lies between the
    middle to the double below [x] and the middle to the double above,
    the middles included where the significand of [x] is even, as ties go
    to even.  The double below a power of two is at half the unit; the
    distances are compared four times their size. *)
Definition reads_back (x v : Z) : bool :=
  let u := ulp x in
  let significand := x / u in
  let below := if significand =? 2 ^ 52 then u else 2 * u in
  let above := 2 * u in
  if Z.even significand then
    (4 * x - below <=? 4 * v) && (4 * v <=? 4 * x + above)
  else
    (4 * x - below <? 4 * v) && (4 * v <? 4 * x + above).

(** The shortest decimal that reads back as [x], a number of [d] digits:
    with [k] digits, from [k] on, it is one of the two multiples of
    [10^(d - k)] around [x]; of two that read back the closer one is
    taken, and the one of even digits where they are as close. *)
Fixpoint shortest_decimal (fuel : nat) (x d k : Z) : Z :=
  match fuel with
  | O => x
  | S fuel' =>
      let p := 10 ^ (d - k) in
      let lo := x / p * p in
      let hi := lo + p in
      match reads_back x lo, reads_back x hi with
      | true, true =>
          if x - lo <? hi - x then lo
          else if hi - x <? x - lo then hi
          else if Z.even (lo / p) then lo else hi
      | true, false => lo
      | false, true => hi
      | false, false => shortest_decimal fuel' x d (k + 1)
      end
  end.

Fixpoint drop_zeros (s : jsstring) : jsstring :=
  match s with
  | 48 :: rest => drop_zeros rest
  | _ => s
  end.

(** [Number::toString(x, 10)] on the double of value [z]. *)
Definition Number_to_string (z : Z) : jsstring :=
  let x := Z.abs z in
  let sign := if z <? 0 then js "-" else [] in
  let d := Z.of_nat (length (Number_toString x)) in
  let v := if x <? 2 ^ 53 then x else shortest_decimal (Z.to_nat d) x d 1 in
  let all := Number_toString v in
  let n := Z.of_nat (length all) in
  if n <=? 21 then sign ++ all
  else
    match reverse (drop_zeros (reverse all)) with
    | [] => sign ++ all
    | [c] => sign ++ [c] ++ js "e+" ++ Number_toString (n - 1)
    | c :: rest =>
        sign ++ [c] ++ js "." ++ rest ++ js "e+" ++ Number_toString (n - 1)
    end.

(** [String(v)]: [None] is the [TypeError] for an object that has an own
    property [toString], which in a tree of data is not a function.  An
    array is joined with commas, [undefined] and [null] giving the empty
    string. *)
Fixpoint String_of (v : value) : option jsstring :=
  match v with
  | VUndef => Some (js "undefined")
  | VNull => Some (js "null")
  | VBool true => Some (js "true")
  | VBool false => Some (js "false")
  | VNum (Num z) => Some (Number_to_string z)
  | VNum NaN => Some (js "NaN")
  | VNum Infinity => Some (js "Infinity")
  | VNum NegInfinity => Some (js "-Infinity")
  | VStr s => Some s
  | VArr elems =>
      (fix join (l : list value) : option jsstring :=
         match l with
         | [] => Some []
         | e :: rest =>
             let first :=
               match e with
               | VUndef | VNull => Some []
               | _ => String_of e
               end in
             match first, rest with
             | None, _ => None
             | Some s, [] => Some s
             | Some s, _ :: _ =>
                 match join rest with
                 | Some t => Some (s ++ js "," ++ t)
                 | None => None
                 end
             end
         end) elems
  | VObj props =>
      if bool_decide (is_Some (lookup_prop props (js "toString"))) then None
      else Some (js "[object Object]")
  end.

(** [l?.name] *)
Definition optional_prop (l : value) (name : string) : value :=
  match l with VUndef | VNull => VUndef | _ => prop l name end.

(** One entry of what [normalizeLanes] returns: [{ lane_id, text }]. *)
Record lane := {
  lane_id : jsstring;
  lane_text : jsstring
}.

(** The body of the loop of [normalizeLanes] on the element [l]; a text
    is a string, a tree of data holding no [Uint8Array]. *)
Definition lane_of (l : value) : outcome lane :=
  let id :=
    match optional_prop l "lane_id" with
    | VUndef | VNull => VStr []
    | v => v
    end in
  match String_of id with
  | None => Throws (js "TypeError: Cannot convert object to primitive value")
  | Some s =>
      if bool_decide (trim s = []) then Throws (js "SCXQ2: lane_id missing")
      else
        match optional_prop l "text" with
        | VStr text => Returns {| lane_id := trim s; lane_text := text |}
        | _ => Throws (js "SCXQ2: lane text invalid")
        end
  end.

(** The loop of [normalizeLanes]: it throws at the first element that is
    not a lane. *)
Fixpoint lanes_of (elems : list value) : outcome (list lane) :=
  match elems with
  | [] => Returns []
  | l :: rest =>
      match lane_of l with
      | Throws msg => Throws msg
      | Returns x =>
          match lanes_of rest with
          | Throws msg => Throws msg
          | Returns xs => Returns (x :: xs)
          end
      end
  end.

(** [out.sort(...)] by [lane_id]: the sort is stable, so each lane goes
    before the first lane whose [lane_id] is greater than its own. *)
Fixpoint insert_lane (x : lane) (sorted : list lane) : list lane :=
  match sorted with
  | [] => [x]
  | y :: rest =>
      if negb (str_leb (lane_id y) (lane_id x)) then x :: sorted
      else y :: insert_lane x rest
  end.

Definition sort_lanes (lanes : list lane) : list lane :=
  foldl (fun sorted x => insert_lane x sorted) [] lanes.

(** [normalizeLanes(laneInput)] *)
Definition normalizeLanes (laneInput : value) : outcome (list lane) :=
  if negb (truthy laneInput) || negb (is_object laneInput) then
    Throws (js "SCXQ2: lanes input invalid")
  else
    let lanes := prop laneInput "lanes" in
    if negb (isArray lanes) || (length_of lanes =? 0) then
      Throws (js "SCXQ2: lanes missing")
    else
      match lanes_of (array_elems lanes) with
      | Throws msg => Throws msg
      | Returns out => Returns (sort_lanes out)
      end.

(** How a call that runs the encoder ends. *)
Inductive ending (A : Type) :=
| Ended (a : A)
| Thrown (msg : jsstring)
| Running.
Arguments Ended {A} a.
Arguments Thrown {A} msg.
Arguments Running {A}.

(** [parts.join(sep)] on strings *)
Fixpoint join_strings (sep : jsstring) (parts : list jsstring) : jsstring :=
  match parts with
  | [] => []
  | [p] => p
  | p :: rest => p ++ sep ++ join_strings sep rest
  end.

Section engine.
Context `{Host}.

(** [collectTokens(text, o)] *)
Definition collectTokens (text : jsstring) (o : normalized) : list scored :=
  let add_all (f : regexp_match -> list jsstring) re freq :=
    foldl (fun freq m => foldl (add o) freq (f m)) freq (matchAll re text) in
  (* identifiers / words *)
  let freq := add_all (fun m => [group m 0]) re_identifier [] in
  (* whitespace runs *)
  let freq :=
    if negb (o_noWS o)
    then add_all (fun m => [group m 0]) re_whitespace freq else freq in
  (* punctuation clusters *)
  let freq :=
    if negb (o_noPunct o)
    then add_all (fun m => [group m 0]) re_punctuation freq else freq in
  (* string literal contents: (m[1] || m[2] || "").trim() *)
  let freq :=
    if negb (o_noStrings o)
    then add_all (fun m =>
                    let candidate :=
                      trim (if bool_decide (group m 1 = [])
                            then group m 2 else group m 1) in
                    if bool_decide (candidate = []) then [] else [candidate])
                 re_string_literal freq
    else freq in
  (* FIELD operator: JSON keys *)
  let freq :=
    if o_enableFieldOps o
    then add_all (fun m =>
                    let k := group m 1 in
                    if bool_decide (k = []) then []
                    else [k; [34] ++ k ++ [34]])
                 re_json_key freq
    else freq in
  (* score by estimated savings *)
  let scored :=
    flat_map (fun e =>
                if e.2 <? 2 then []
                else
                  let savings := (estimateBytes e.1 - 3) * e.2 in
                  if 0 <? savings
                  then [{| tok := e.1; count := e.2; totalSavings := savings |}]
                  else [])
             freq in
  merge_sort scored_le scored.

(** The loop of [buildDict]: it stops when [dict.length >= o.maxDict]. *)
Fixpoint fill_dict (maxDict : number) (scored : list scored)
    (dict : list jsstring) : list jsstring :=
  match scored with
  | [] => dict
  | t :: rest =>
      if ge_number (Z.of_nat (length dict)) maxDict then dict
      else fill_dict maxDict rest (dict ++ [tok t])
  end.

(** [buildDict(scored, o)] *)
Definition buildDict (scored : list scored) (o : normalized)
    : list jsstring :=
  merge_sort dict_le (fill_dict (o_maxDict o) scored []).

(** [makeDictJson(dict, srcSha, o)] *)
Definition makeDictJson (dict : list jsstring) (srcSha : jsstring)
    (o : normalized) : value :=
  obj [("@type", str "scxq2.dict"); ("@version", str "1.0.0");
       ("mode", str SCXQ2_ENCODING_mode);
       ("encoding", str SCXQ2_ENCODING_encoding);
       ("created_utc", VStr (o_created_utc o));
       ("source_sha256_utf8", VStr srcSha);
       ("max_dict", VNum (o_maxDict o));
       ("min_len", VNum (o_minLen o));
       ("flags", obj [("noStrings", VBool (o_noStrings o));
                      ("noWS", VBool (o_noWS o));
                      ("noPunct", VBool (o_noPunct o))]);
       ("dict", VArr (VStr <$> dict))]%string.

(** [makeBlockJson(b64, srcSha, dictSha, src, o, edges)] *)
Definition makeBlockJson (b64 srcSha : jsstring) (dictSha : value)
    (src : jsstring) (o : normalized) (edges : option (list (Z * Z)))
    : value :=
  let block :=
    [("@type", str "scxq2.block"); ("@version", str "1.0.0");
     ("mode", str SCXQ2_ENCODING_mode);
     ("encoding", str SCXQ2_ENCODING_encoding);
     ("created_utc", VStr (o_created_utc o));
     ("source_sha256_utf8", VStr srcSha);
     ("dict_sha256_canon", dictSha);
     ("original_bytes_utf8", VNum (utf8_length src));
     ("b64", VStr b64)]%string in
  match edges with
  | Some (e :: es) =>
      obj (block ++
           [("edges",
             VArr (map (fun p : Z * Z => VArr [VNum (Num p.1); VNum (Num p.2)])
                       (take 1000 (e :: es))))]%string)
  | _ => obj block
  end.

(** [makeProof(srcSha, rtSha, dictJson, blockJson, o)] *)
Definition makeProof (srcSha rtSha : jsstring) (dictJson blockJson : value)
    (o : normalized) : value :=
  obj [("@type", str "cc.proof"); ("@version", str "1.0.0");
       ("engine", str CC_ENGINE_id);
       ("created_utc", VStr (o_created_utc o));
       ("source_sha256_utf8", VStr srcSha);
       ("dict_sha256_canon", prop dictJson "dict_sha256_canon");
       ("block_sha256_canon", prop blockJson "block_sha256_canon");
       ("roundtrip_sha256_utf8", VStr rtSha);
       ("ok", VBool (bool_decide (srcSha = rtSha)));
       ("steps",
        VArr [obj [("op", str "cc.norm.v1"); ("sha", VStr srcSha)];
              obj [("op", str "cc.dict.v1");
                   ("dict_entries", VNum (length_of (prop dictJson "dict")))];
              obj [("op", str "scxq2.encode.v1");
                   ("block_sha", prop blockJson "block_sha256_canon")];
              obj [("op", str "scxq2.decode.v1");
                   ("roundtrip_sha", VStr rtSha)]])]%string.

(** [obj.field = v] on an object *)
Definition assign (o : value) (field : string) (v : value) : value :=
  match o with
  | VObj props => VObj (obj_set props (js field) v)
  | _ => o
  end.

(** What [ccCompress] returns, but for the audit: its ratio is a
    floating-point number, and nothing else depends on it. *)
Record compressed := {
  cc_dict : value;
  cc_block : value;
  cc_proof : value;
  cc_roundtrip : jsstring
}.

(** How [ccCompress] ends: with a result, with an exception, or not at
    all within the fuel given to the encoder. *)
Inductive compression :=
| Compressed (r : compressed)
| Failed (msg : jsstring)
| Unfinished.

(** [ccCompress(input, opts)] on a string.  [cc_roundtrip] keeps the text
    that the proof hashes. *)
Definition ccCompress (input : jsstring) (opts : CCOpts.t) : compression :=
  let o := normalizeOpts opts in
  let src := canonicalizeInput input in
  let srcSha := sha256HexUtf8 src in
  let tokenStats := collectTokens src o in
  let dict := buildDict tokenStats o in
  match encodeSCXQ2 (S (length src)) src dict
          {| opt_enableEdgeOps := o_enableEdgeOps o |} with
  | None => Unfinished
  | Some enc =>
      let dictJson := makeDictJson dict srcSha o in
      let dictJson :=
        assign dictJson "dict_sha256_canon"
          (VStr (sha256HexUtf8
                   (canon (strip dictJson [js "dict_sha256_canon"])))) in
      let blockJson :=
        makeBlockJson (enc_b64 enc) srcSha (prop dictJson "dict_sha256_canon")
          src o (enc_edges enc) in
      let blockJson :=
        assign blockJson "block_sha256_canon"
          (VStr (sha256HexUtf8
                   (canon (strip blockJson [js "block_sha256_canon"])))) in
      match ccDecompress dictJson blockJson with
      | Throws msg => Failed msg
      | Returns roundtrip =>
          let rtSha := sha256HexUtf8 roundtrip in
          let proof := makeProof srcSha rtSha dictJson blockJson o in
          Compressed {| cc_dict := dictJson; cc_block := blockJson;
                        cc_proof := proof; cc_roundtrip := roundtrip |}
      end
  end.

(** [ccCompressSync(input, opts)] on a string: without the crypto module
    it throws; with it, it goes the way of [ccCompress], and
    [sha256HexUtf8Sync(text, node)] is the hash of the platform. *)
Definition ccCompressSync (p : platform) (input : jsstring)
    (opts : CCOpts.t) : compression :=
  match getNodeCrypto p with
  | None => Failed (js "SCXQ2: ccCompressSync requires Node.js crypto module")
  | Some node => ccCompress input opts
  end.

(** [makeLaneBlockJson(laneId, b64, srcSha, dictSha, src, o, edges)] *)
Definition makeLaneBlockJson (laneId b64 srcSha : jsstring) (dictSha : value)
    (src : jsstring) (o : normalized) (edges : option (list (Z * Z)))
    : value :=
  assign (makeBlockJson b64 srcSha dictSha src o edges) "lane_id" (VStr laneId).

(** The separator of the lanes in the text that the dictionary is built
    from: two line feeds, the comment, two line feeds. *)
Definition LANE_BREAK : jsstring :=
  [10; 10] ++ js "/*__LANE_BREAK__*/" ++ [10; 10].

(** What [ccCompressLanes] returns. *)
Record lanes_compressed := {
  cl_dict : value;
  cl_lanes : list value;
  cl_proof : value;
  cl_audit : value
}.

(** The loop of [ccCompressLanes] over the lanes: the blocks pushed. *)
Fixpoint encode_lanes (o : normalized) (dict : list jsstring)
    (dictJson : value) (lanes : list lane) : ending (list value) :=
  match lanes with
  | [] => Ended []
  | lane :: rest =>
      let src := canonicalizeInput (lane_text lane) in
      let srcSha := sha256HexUtf8 src in
      match encodeSCXQ2 (S (length src)) src dict
              {| opt_enableEdgeOps := o_enableEdgeOps o |} with
      | None => Running
      | Some enc =>
          let blockJson :=
            makeLaneBlockJson (lane_id lane) (enc_b64 enc) srcSha
              (prop dictJson "dict_sha256_canon") src o (enc_edges enc) in
          let blockJson :=
            assign blockJson "block_sha256_canon"
              (VStr (sha256HexUtf8
                       (canon (strip blockJson [js "block_sha256_canon"])))) in
          match ccDecompress dictJson blockJson with
          | Throws msg => Thrown msg
          | Returns rt =>
              if negb (bool_decide (sha256HexUtf8 rt = srcSha)) then
                Thrown (js "SCXQ2: lane roundtrip mismatch: " ++ lane_id lane)
              else
                match encode_lanes o dict dictJson rest with
                | Ended blocks => Ended (blockJson :: blocks)
                | Thrown msg => Thrown msg
                | Running => Running
                end
          end
      end
  end.

(** The body that [ccCompressLanes] and [ccCompressLanesSync] share: the
    proof of the first has [steps], that of the second has none. *)
Definition compress_lanes (steps : bool) (laneInput : value)
    (opts : CCOpts.t) : ending lanes_compressed :=
  let o := normalizeOpts opts in
  match normalizeLanes laneInput with
  | Throws msg => Thrown msg
  | Returns lanes =>
      let joined :=
        join_strings LANE_BREAK
          (map (fun l => canonicalizeInput (lane_text l)) lanes) in
      let joinedSha := sha256HexUtf8 joined in
      let tokenStats := collectTokens joined o in
      let dict := buildDict tokenStats o in
      let dictJson := makeDictJson dict joinedSha o in
      let dictJson :=
        assign dictJson "dict_sha256_canon"
          (VStr (sha256HexUtf8
                   (canon (strip dictJson [js "dict_sha256_canon"])))) in
      match encode_lanes o dict dictJson lanes with
      | Running => Running
      | Thrown msg => Thrown msg
      | Ended laneBlocks =>
          let proof :=
            [("@type", str "cc.lanes.proof"); ("@version", str "1.0.0");
             ("engine", str CC_ENGINE_id);
             ("created_utc", VStr (o_created_utc o));
             ("dict_sha256_canon", prop dictJson "dict_sha256_canon");
             ("lanes",
              VArr (map (fun b =>
                           obj [("lane_id", prop b "lane_id");
                                ("source_sha256_utf8",
                                 prop b "source_sha256_utf8");
                                ("block_sha256_canon",
                                 prop b "block_sha256_canon")])
                        laneBlocks));
             ("ok", VBool true)]%string in
          let steps_field :=
            [("steps",
              VArr [obj [("op", str "cc.lane.v1");
                         ("lanes", VNum (Z.of_nat (length laneBlocks)))];
                    obj [("op", str "cc.dict.v1");
                         ("dict_entries",
                          VNum (length_of (prop dictJson "dict")))]])]%string in
          let audit :=
            obj [("@type", str "cc.lanes.audit"); ("@version", str "1.0.0");
                 ("engine", str CC_ENGINE_id);
                 ("created_utc", VStr (o_created_utc o));
                 ("dict_entries", VNum (length_of (prop dictJson "dict")));
                 ("lane_count", VNum (Z.of_nat (length laneBlocks)))]%string in
          Ended {| cl_dict := dictJson; cl_lanes := laneBlocks;
                   cl_proof := obj (if steps then proof ++ steps_field
                                    else proof);
                   cl_audit := audit |}
      end
  end.

(** [ccCompressLanes(laneInput, opts)] *)
Definition ccCompressLanes := compress_lanes true.

(** [ccCompressLanesSync(laneInput, opts)]: without the crypto module it
    throws; with it, its proof is that of [ccCompressLanes] without
    [steps]. *)
Definition ccCompressLanesSync (p : platform) (laneInput : value)
    (opts : CCOpts.t) : ending lanes_compressed :=
  match getNodeCrypto p with
  | None => Thrown (js "SCXQ2: ccCompressLanesSync requires Node.js crypto")
  | Some node => compress_lanes false laneInput opts
  end.
End engine.

(** ** Predicates of the statements *)

(** [rejects o]: what the step [o] returns, if it returns, is a failure. *)
Definition rejects (o : option value) : Prop :=
  forall r, o = Some r -> prop r "ok" = VBool false.

(** What [add] lets into the table of frequencies: a token that is not
    empty, not shorter than [minLen], and holds no NUL. *)
Definition countable (o : normalized) (t : jsstring) : Prop :=
  t <> [] /\ lt_number (Z.of_nat (length t)) (o_minLen o) = false /\ 0 ∉ t.

(** A table of frequencies with one entry for each token, each let in by
    [add] and counted at least once. *)
Definition table (o : normalized) (freq : list (jsstring * Z)) : Prop :=
  NoDup (map fst freq) /\
  Forall (fun e => countable o e.1 /\ 1 <= e.2) freq.

(** What the ranking says of a token: counted at least twice, with a
    [totalSavings] of [(estimateBytes(tok) - 3) * count] that is
    positive. *)
Definition ranked (o : normalized) (s : scored) : Prop :=
  countable o (tok s) /\ 2 <= count s /\
  totalSavings s = (estimateBytes (tok s) - 3) * count s /\
  0 < totalSavings s /\ 3 < estimateBytes (tok s).

(** The keys that [sortKeysDeep] adds to [sorted], in the order in which
    it adds them: of the keys in [keys], the first occurrence of each one
    that is not in [seen]; [__proto__] names the prototype and is never
    added. *)
Fixpoint added_keys (seen keys : list jsstring) : list jsstring :=
  match keys with
  | [] => []
  | k :: rest =>
      if bool_decide (k = js "__proto__" \/ k ∈ seen) then added_keys seen rest
      else k :: added_keys (k :: seen) rest
  end.

(** The order of the lanes that [normalizeLanes] returns. *)
Definition lane_le (a b : lane) : Prop := str_le (lane_id a) (lane_id b).

(** The lanes of one [lane_id], in the order of the list. *)
Definition lanes_with (k : jsstring) (lanes : list lane) : list lane :=
  filter (fun x => lane_id x = k) lanes.

(** What a result of the compression of lanes says of the lanes: one
    block for each lane, in their order, with the [lane_id] of the lane
    and from which [ccDecompress] restores its canonical text; a proof
    that says [ok: true]; an audit that counts the lanes. *)
Definition lanes_restored `{Host} (lanes : list lane)
    (r : lanes_compressed) : Prop :=
  Forall2 (fun x b =>
             prop b "lane_id" = VStr (lane_id x) /\
             ccDecompress (cl_dict r) b
             = Returns (canonicalizeInput (lane_text x)))
          lanes (cl_lanes r) /\
  prop (cl_proof r) "ok" = VBool true /\
  prop (cl_audit r) "lane_count" = VNum (Num (Z.of_nat (length lanes))).

(** A platform on which [Buffer.from(s, "base64")] reads back the bytes
    that [bytesToBase64] wrote into [s]. *)
Definition base64_inverts `{Host} : Prop :=
  forall bytes, Forall is_byte bytes ->
                Buffer_from_base64 (bytesToBase64 bytes) = bytes.

(** ** The verifier over a store of objects

    To state what [scxq2PackVerify] does to its argument, objects and
    arrays live in a store and values refer to them: a property read
    looks a reference up, an object literal or a spread allocates, and an
    assignment or a [delete] updates the object it is applied to. *)
Module Store.

Definition loc := nat.

(** A value: a primitive, or a reference to an object or array. *)
Inductive sval :=
| SUndef
| SNull
| SBool (b : bool)
| SNum (n : number)
| SStr (s : jsstring)
| SRef (l : loc).

Inductive cell :=
| CArr (elems : list sval)
| CObj (props : list (jsstring * sval)).

Global Instance sval_eq_dec : EqDecision sval.
Proof. solve_decision. Defined.

Global Instance cell_eq_dec : EqDecision cell.
Proof. solve_decision. Defined.

(** The store: the cell of each location allocated so far. *)
Abbreviation store := (list cell).

(** A computation: it may throw (a [RangeError] when the recursion is too
    deep) and it leaves a store. *)
Definition M (A : Type) : Type := store -> option A * store.

Definition ret {A} (a : A) : M A := fun h => (Some a, h).

Definition bind {A B} (m : M A) (k : A -> M B) : M B :=
  fun h => match m h with
           | (Some a, h') => k a h'
           | (None, h') => (None, h')
           end.

Definition throw {A} : M A := fun h => (None, h).

Notation "x <- m ;; k" := (bind m (fun x => k))
  (at level 100, m at next level, right associativity).

(** A new object or array. *)
Definition alloc (c : cell) : M sval :=
  fun h => (Some (SRef (length h)), h ++ [c]).

(** The object at [l] becomes [c]. *)
Definition update (l : loc) (c : cell) : M unit :=
  fun h => (Some tt, <[l := c]> h).

(** A read of the store. *)
Definition reads {A} (f : store -> A) : M A := fun h => (Some (f h), h).

(** *** Reads *)

Definition cell_at (h : store) (v : sval) : option cell :=
  match v with SRef l => h !! l | _ => None end.

Definition truthy (v : sval) : bool :=
  match v with
  | SUndef | SNull => false
  | SBool b => b
  | SNum (Num z) => negb (z =? 0)
  | SNum NaN => false
  | SNum _ => true
  | SStr s => negb (bool_decide (s = []))
  | SRef _ => true
  end.

Definition is_object (v : sval) : bool :=
  match v with SRef _ => true | _ => false end.

Definition isArray (h : store) (v : sval) : bool :=
  match cell_at h v with Some (CArr _) => true | _ => false end.

Definition is_string (v : sval) : bool :=
  match v with SStr _ => true | _ => false end.

(** [a === b]: two references are equal when they are the same object. *)
Definition strict_eq (a b : sval) : bool :=
  match a, b with
  | SUndef, SUndef | SNull, SNull => true
  | SBool x, SBool y => Bool.eqb x y
  | SNum (Num x), SNum (Num y) => x =? y
  | SNum Infinity, SNum Infinity | SNum NegInfinity, SNum NegInfinity => true
  | SStr s, SStr t => bool_decide (s = t)
  | SRef l, SRef l' => (l =? l')%nat
  | _, _ => false
  end.

Definition is_str (v : sval) (s : jsstring) : bool := strict_eq v (SStr s).

Definition includes (l : list jsstring) (v : sval) : bool :=
  existsb (is_str v) l.

Definition get (h : store) (v : sval) (k : jsstring) : sval :=
  match cell_at h v with
  | Some (CObj props) => default SUndef (lookup_prop props k)
  | Some (CArr elems) =>
      if decide (k = js "length") then SNum (Z.of_nat (length elems))
      else match array_index k with
           | Some n => default SUndef (elems !! Z.to_nat n)
           | None => SUndef
           end
  | None => SUndef
  end.

Definition has (h : store) (v : sval) (k : jsstring) : bool :=
  match cell_at h v with
  | Some (CObj props) => bool_decide (is_Some (lookup_prop props k))
  | Some (CArr elems) =>
      bool_decide (k = js "length") ||
      match array_index k with
      | Some n => n <? Z.of_nat (length elems)
      | None => false
      end
  | None => false
  end.

Definition Object_keys (h : store) (v : sval) : list jsstring :=
  match cell_at h v with
  | Some (CObj props) => map fst props
  | Some (CArr elems) =>
      map (fun i => Number_toString (Z.of_nat i)) (seq 0 (length elems))
  | None => []
  end.

Definition prop (h : store) (v : sval) (name : string) : sval :=
  get h v (js name).

Definition has_prop (h : store) (v : sval) (name : string) : bool :=
  has h v (js name).

Definition array_elems (h : store) (v : sval) : list sval :=
  match cell_at h v with Some (CArr elems) => elems | _ => [] end.

Definition length_of (h : store) (v : sval) : Z :=
  Z.of_nat (length (array_elems h v)).

(** The own properties that a spread copies. *)
Definition own_props (h : store) (v : sval) : list (jsstring * sval) :=
  match cell_at h v with
  | Some (CObj props) => props
  | Some (CArr elems) =>
      imap (fun i e => (Number_toString (Z.of_nat i), e)) elems
  | None => []
  end.

(** *** Object literals *)

Definition str (s : string) : sval := SStr (js s).

(** [{ k1: v1, ... }] *)
Definition obj (fields : list (string * sval)) : M sval :=
  alloc (CObj (map (fun f => (js f.1, f.2)) fields)).

Definition err (code phase message : string) (at_ : M sval) : M sval :=
  a <- at_ ;;
  obj [("@type", str "scxq2.error"); ("@version", str "1.0.0");
       ("code", str code); ("phase", str phase); ("severity", str "fatal");
       ("message", str message); ("at", a)]%string.

Definition fail (e : M sval) : M sval :=
  e' <- e ;;
  obj [("@type", str "scxq2.verify.result"); ("@version", str "1.0.0");
       ("ok", SBool false); ("error", e')]%string.

Definition ok (packSha dictSha : sval) (blocks : Z) : M sval :=
  obj [("@type", str "scxq2.verify.result"); ("@version", str "1.0.0");
       ("ok", SBool true); ("pack_sha256_canon", packSha);
       ("dict_sha256_canon", dictSha); ("blocks", SNum blocks)]%string.

Definition at_field (f : string) : M sval := obj [("field", str f)]%string.
Definition at_index (f : string) (k : nat) : M sval :=
  obj [("field", str f); ("index", SNum (Z.of_nat k))]%string.

(** *** The utilities of verify.js *)

Definition hasUnknownFields (h : store) (o : sval) (known : list jsstring)
    : bool :=
  existsb (fun k => negb (bool_decide (k ∈ known))) (Object_keys h o).

(** A primitive, as a value of the tree model; the functions that take it
    ask of an object only that it is not a string. *)
Definition primitive (v : sval) : value :=
  match v with
  | SUndef => VUndef
  | SNull => VNull
  | SBool b => VBool b
  | SNum n => VNum n
  | SStr s => VStr s
  | SRef _ => VObj []
  end.

(** [copyMinus(obj, field)]: [const o = { ...obj }; delete o[field]] *)
Definition copyMinus (o : sval) (field : jsstring) : M sval :=
  props <- reads (fun h => own_props h o) ;;
  copy <- alloc (CObj props) ;;
  match copy with
  | SRef l =>
      _ <- update l (CObj (obj_delete props field)) ;;
      ret copy
  | _ => ret copy
  end.

(** [out[k] = v] for the object at [out] *)
Definition set_prop (out : sval) (k : jsstring) (v : sval) : M unit :=
  fun h =>
    match out, cell_at h out with
    | SRef l, Some (CObj props) => update l (CObj (obj_set props k v)) h
    | _, _ => (Some tt, h)
    end.

(** Each element or key in turn. *)
Fixpoint for_each {A B} (f : A -> M B) (l : list A) : M (list B) :=
  match l with
  | [] => ret []
  | a :: rest => b <- f a ;; bs <- for_each f rest ;; ret (b :: bs)
  end.

(** [sortKeysDeep(v)]; the fuel bounds the depth of the recursion. *)
Fixpoint sortKeysDeep (fuel : nat) (v : sval) : M sval :=
  match fuel with
  | O => throw
  | S fuel' =>
      c <- reads (fun h => cell_at h v) ;;
      match c with
      | Some (CArr elems) =>
          elems' <- for_each (sortKeysDeep fuel') elems ;;
          alloc (CArr elems')
      | Some (CObj props) =>
          out <- alloc (CObj []) ;;
          _ <- for_each (fun k =>
                           v' <- sortKeysDeep fuel'
                                   (default SUndef (lookup_prop props k)) ;;
                           set_prop out k v')
                        (sort_keys (map fst props)) ;;
          ret out
      | None => ret v
      end
  end.

(** The tree that a value stands for, to the depth of the fuel. *)
Fixpoint snapshot (fuel : nat) (h : store) (v : sval) : value :=
  match v with
  | SRef _ =>
      match fuel with
      | O => VUndef
      | S fuel' =>
          match cell_at h v with
          | Some (CArr elems) => VArr (map (snapshot fuel' h) elems)
          | Some (CObj props) =>
              VObj (map (fun p => (p.1, snapshot fuel' h p.2)) props)
          | None => VUndef
          end
      end
  | _ => primitive v
  end.

Section verifier.
Context `{Host}.

(** [canon(obj)] *)
Definition canon (fuel : nat) (o : sval) : M jsstring :=
  sorted <- sortKeysDeep fuel o ;;
  reads (fun h => JSON_stringify (snapshot fuel h sorted)).

Definition isoUtcLike (v : sval) : bool :=
  isoUtcLike (primitive v).

Definition strictB64Decode (b64 : sval) : option (list Z) :=
  strictB64Decode (primitive b64).

Definition or_undefined (v : sval) : sval :=
  match v with SNull => SUndef | _ => v end.

Definition mapDecodeErr (de : decode_error) (lane_id : sval) (index : nat)
    : M sval :=
  let at_ off :=
    obj [("lane_id", or_undefined lane_id); ("index", SNum (Z.of_nat index));
         ("byte_offset", SNum (Z.of_nat off))]%string in
  match de with
  | invalid_byte off _ =>
      err "scxq2.error.decode_invalid_byte" "decode" "invalid byte" (at_ off)
  | truncated_sequence off =>
      err "scxq2.error.decode_truncated_sequence" "decode"
          "truncated sequence" (at_ off)
  | dict_index_oob off _ =>
      err "scxq2.error.decode_dict_index_oob" "decode"
          "dict index out of bounds" (at_ off)
  | dict_entry_invalid off _ =>
      err "scxq2.error.decode_dict_entry_invalid" "decode"
          "dict entry invalid" (at_ off)
  | output_limit off =>
      err "scxq2.error.decode_output_limit" "decode"
          "output limit exceeded" (at_ off)
  end.

(** *** The steps

    A step reads the store [h] and answers [Some m] when one of its checks
    returns: [m] builds the result. *)

Definition pack_structure (P : Policy.t) (h : store) (pack : sval)
    : option (M sval) :=
  if negb (truthy pack) || negb (is_object pack) then
    Some (fail (err "scxq2.error.pack_missing" "pack" "pack missing" (obj [])))
  else if negb (is_str (prop h pack "@type") (js "scxq2.pack")) then
    Some (fail (err "scxq2.error.pack_type_invalid" "pack" "bad @type"
                    (at_field "@type")))
  else if negb (is_str (prop h pack "@version") (js "1.0.0")) then
    Some (fail (err "scxq2.error.pack_version_unsupported" "pack"
                    "unsupported @version" (at_field "@version")))
  else if negb (includes (Policy.allowedModes P) (prop h pack "mode")) then
    Some (fail (err "scxq2.error.pack_mode_mismatch" "pack" "mode not allowed"
                    (at_field "mode")))
  else if negb (includes (Policy.allowedEncodings P) (prop h pack "encoding"))
  then
    Some (fail (err "scxq2.error.pack_encoding_mismatch" "pack"
                    "encoding not allowed" (at_field "encoding")))
  else if negb (Policy.allowUnknownPackFields P)
          && hasUnknownFields h pack KNOWN_PACK_FIELDS then
    Some (fail (err "scxq2.error.pack_field_forbidden" "pack"
                    "unknown pack field" (obj [])))
  else if has_prop h pack "created_utc"
          && negb (isoUtcLike (prop h pack "created_utc")) then
    Some (fail (err "scxq2.error.pack_created_utc_invalid" "pack"
                    "invalid created_utc" (at_field "created_utc")))
  else if negb (truthy (prop h pack "dict")) then
    Some (fail (err "scxq2.error.dict_missing" "dict" "dict missing"
                    (at_field "dict")))
  else if negb (isArray h (prop h pack "blocks"))
          || (length_of h (prop h pack "blocks") <? 1) then
    Some (fail (err "scxq2.error.pack_blocks_missing" "pack"
                    "blocks missing/empty" (at_field "blocks")))
  else if length_of h (prop h pack "blocks") >? Policy.maxBlocks P then
    Some (fail (err "scxq2.error.decode_input_limit" "pack" "too many blocks"
                    (at_field "blocks")))
  else if Policy.requireProof P && negb (truthy (prop h pack "proof")) then
    Some (fail (err "scxq2.error.pack_proof_missing" "pack" "proof required"
                    (at_field "proof")))
  else None.

Fixpoint dict_entries (P : Policy.t) (entries : list sval) (j : nat)
    : option (M sval) :=
  match entries with
  | [] => None
  | e :: rest =>
      match e with
      | SStr s =>
          if Z.of_nat (length s) >? Policy.maxDictEntryUnits P then
            Some (fail (err "scxq2.error.dict_entry_exceeds_limit" "dict"
                            "dict entry too long" (at_index "dict.dict" j)))
          else dict_entries P rest (S j)
      | _ =>
          Some (fail (err "scxq2.error.dict_entry_type_invalid" "dict"
                          "dict entry not string" (at_index "dict.dict" j)))
      end
  end.

Definition dict_structure (P : Policy.t) (h : store) (dict : sval)
    : option (M sval) :=
  if negb (truthy dict) || negb (is_object dict) then
    Some (fail (err "scxq2.error.dict_type_invalid" "dict" "dict not object"
                    (at_field "dict")))
  else if negb (is_str (prop h dict "@type") (js "scxq2.dict")) then
    Some (fail (err "scxq2.error.dict_type_invalid" "dict" "bad dict @type"
                    (at_field "dict.@type")))
  else if negb (is_str (prop h dict "@version") (js "1.0.0")) then
    Some (fail (err "scxq2.error.dict_version_unsupported" "dict"
                    "unsupported dict @version" (at_field "dict.@version")))
  else if negb (includes (Policy.allowedModes P) (prop h dict "mode")) then
    Some (fail (err "scxq2.error.pack_mode_mismatch" "dict"
                    "dict mode mismatch" (at_field "dict.mode")))
  else if negb (includes (Policy.allowedEncodings P) (prop h dict "encoding"))
  then
    Some (fail (err "scxq2.error.pack_encoding_mismatch" "dict"
                    "dict encoding mismatch" (at_field "dict.encoding")))
  else if negb (isArray h (prop h dict "dict")) then
    Some (fail (err "scxq2.error.dict_entry_type_invalid" "dict"
                    "dict.dict must be array" (at_field "dict.dict")))
  else if length_of h (prop h dict "dict") >? Policy.maxDictEntries P then
    Some (fail (err "scxq2.error.dict_size_exceeds_limit" "dict"
                    "dict too large" (at_field "dict.dict")))
  else
    match dict_entries P (array_elems h (prop h dict "dict")) 0 with
    | Some r => Some r
    | None =>
        if negb (truthy (prop h dict "dict_sha256_canon")) then
          Some (fail (err "scxq2.error.dict_sha_missing" "canon"
                          "dict sha missing"
                          (at_field "dict.dict_sha256_canon")))
        else None
    end.

Definition block_checks (P : Policy.t) (h : store) (dictSha b : sval)
    (k : nat) : option (M sval) :=
  if negb (truthy b) || negb (is_object b)
     || negb (is_str (prop h b "@type") (js "scxq2.block")) then
    Some (fail (err "scxq2.error.block_type_invalid" "block" "bad block @type"
                    (at_index "blocks" k)))
  else if negb (includes (Policy.allowedModes P) (prop h b "mode")) then
    Some (fail (err "scxq2.error.block_mode_mismatch" "block"
                    "block mode mismatch" (at_index "blocks.mode" k)))
  else if negb (includes (Policy.allowedEncodings P) (prop h b "encoding")) then
    Some (fail (err "scxq2.error.block_encoding_mismatch" "block"
                    "block encoding mismatch" (at_index "blocks.encoding" k)))
  else if negb (is_string (prop h b "b64")) || is_str (prop h b "b64") [] then
    Some (fail (err "scxq2.error.block_b64_missing" "block" "b64 missing"
                    (at_index "blocks.b64" k)))
  else if negb (truthy (prop h b "dict_sha256_canon")) then
    Some (fail (err "scxq2.error.block_dict_link_missing" "block"
                    "missing dict link" (at_index "blocks.dict_sha256_canon" k)))
  else if negb (strict_eq (prop h b "dict_sha256_canon") dictSha) then
    Some (fail (err "scxq2.error.block_dict_link_mismatch" "block"
                    "dict link mismatch" (at_index "blocks.dict_sha256_canon" k)))
  else if negb (truthy (prop h b "block_sha256_canon")) then
    Some (fail (err "scxq2.error.block_sha_missing" "canon" "block sha missing"
                    (at_index "blocks.block_sha256_canon" k)))
  else if Policy.requireRoundtrip P
          && negb (truthy (prop h b "source_sha256_utf8")) then
    Some (fail (err "scxq2.error.block_source_sha_missing" "block"
                    "source sha required"
                    (at_index "blocks.source_sha256_utf8" k)))
  else if negb (Policy.allowUnknownBlockFields P)
          && hasUnknownFields h b KNOWN_BLOCK_FIELDS then
    Some (fail (err "scxq2.error.pack_field_forbidden" "block"
                    "unknown block field" (at_index "blocks" k)))
  else if negb (Policy.allowEdges P) && has_prop h b "edges" then
    Some (fail (err "scxq2.error.policy_disabled_feature" "block"
                    "edges not allowed" (at_index "blocks.edges" k)))
  else None.

Fixpoint for_blocks (body : sval -> nat -> option (M sval))
    (blocks : list sval) (k : nat) : option (M sval) :=
  match blocks with
  | [] => None
  | b :: rest =>
      match body b k with
      | Some r => Some r
      | None => for_blocks body rest (S k)
      end
  end.

Definition block_structure (P : Policy.t) (h : store) (pack : sval)
    : option (M sval) :=
  let dictSha := prop h (prop h pack "dict") "dict_sha256_canon" in
  for_blocks (block_checks P h dictSha) (array_elems h (prop h pack "blocks")) 0.

(** [sha256HexUtf8(canon(copyMinus(o, field))) !== o[field]] *)
Definition hash_differs (fuel : nat) (o : sval) (field : string) : M bool :=
  copy <- copyMinus o (js field) ;;
  text <- canon fuel copy ;;
  reads (fun h => negb (strict_eq (SStr (sha256HexUtf8 text)) (prop h o field))).

(** The loop of step 4 over the blocks. *)
Fixpoint block_hashes (fuel : nat) (blocks : list sval) (k : nat)
    : M (option sval) :=
  match blocks with
  | [] => ret None
  | b :: rest =>
      differs <- hash_differs fuel b "block_sha256_canon" ;;
      if differs then
        r <- fail (err "scxq2.error.block_sha_mismatch" "canon"
                       "block sha mismatch"
                       (at_index "blocks.block_sha256_canon" k)) ;;
        ret (Some r)
      else block_hashes fuel rest (S k)
  end.

(** STEP 4 — canonical hash verification *)
Definition canonical_hashes (fuel : nat) (pack : sval) : M (option sval) :=
  missing <- reads (fun h => negb (truthy (prop h pack "pack_sha256_canon"))) ;;
  if missing then
    r <- fail (err "scxq2.error.pack_sha_missing" "canon" "pack sha missing"
                   (at_field "pack_sha256_canon")) ;;
    ret (Some r)
  else
    differs <- hash_differs fuel pack "pack_sha256_canon" ;;
    if differs then
      r <- fail (err "scxq2.error.pack_sha_mismatch" "canon" "pack sha mismatch"
                     (at_field "pack_sha256_canon")) ;;
      ret (Some r)
    else
      dict <- reads (fun h => prop h pack "dict") ;;
      differs <- hash_differs fuel dict "dict_sha256_canon" ;;
      if differs then
        r <- fail (err "scxq2.error.dict_sha_mismatch" "canon"
                       "dict sha mismatch"
                       (at_field "dict.dict_sha256_canon")) ;;
        ret (Some r)
      else
        blocks <- reads (fun h => array_elems h (prop h pack "blocks")) ;;
        block_hashes fuel blocks 0.

(** STEP 5 on the block [b] at index [k] *)
Definition block_decode (P : Policy.t) (h : store) (dict b : sval) (k : nat)
    : option (M sval) :=
  match strictB64Decode (prop h b "b64") with
  | None =>
      Some (fail (err "scxq2.error.block_b64_invalid" "block"
                      "invalid base64" (at_index "blocks.b64" k)))
  | Some bytes =>
      if Z.of_nat (length bytes) >? Policy.maxBlockB64Bytes P then
        Some (fail (err "scxq2.error.decode_input_limit" "decode"
                        "block bytes exceed limit" (at_index "blocks.b64" k)))
      else
        match scxq2DecodeUtf16
                (map primitive (array_elems h (prop h dict "dict"))) bytes
                {| lim_maxOutputUnits := Some (Policy.maxOutputUnits P) |} with
        | DecErr de => Some (fail (mapDecodeErr de (prop h b "lane_id") k))
        | DecOk v =>
            if Policy.requireRoundtrip P
               && negb (strict_eq (SStr (sha256HexUtf8 v))
                                  (prop h b "source_sha256_utf8")) then
              Some (fail (err "scxq2.error.proof_roundtrip_sha_mismatch"
                              "proof" "roundtrip sha mismatch"
                              (obj [("lane_id", prop h b "lane_id");
                                    ("index", SNum (Z.of_nat k))]%string)))
            else None
        end
  end.

Definition decode_blocks (P : Policy.t) (h : store) (pack : sval)
    : option (M sval) :=
  for_blocks (block_decode P h (prop h pack "dict"))
    (array_elems h (prop h pack "blocks")) 0.

Fixpoint witness_fields (h : store) (proof : sval) (fields : list string)
    : option (M sval) :=
  match fields with
  | [] => None
  | f :: rest =>
      if negb (truthy (prop h proof f)) then
        Some (fail (err "scxq2.error.proof_witness_missing" "proof"
                        "missing proof witness"
                        (obj [("field", SStr (js "proof." ++ js f))]%string)))
      else witness_fields h proof rest
  end.

Definition proof_object (P : Policy.t) (h : store) (pack : sval)
    : option (M sval) :=
  if Policy.requireProof P then
    let proof := prop h pack "proof" in
    if negb (truthy proof) || negb (is_object proof) then
      Some (fail (err "scxq2.error.proof_type_invalid" "proof"
                      "proof invalid" (at_field "proof")))
    else if negb (is_str (prop h proof "@type") (js "cc.proof")) then
      Some (fail (err "scxq2.error.proof_type_invalid" "proof"
                      "bad proof @type" (at_field "proof.@type")))
    else if negb (is_str (prop h proof "@version") (js "1.0.0")) then
      Some (fail (err "scxq2.error.proof_version_unsupported" "proof"
                      "unsupported proof version" (at_field "proof.@version")))
    else if negb (strict_eq (prop h proof "ok") (SBool true)) then
      Some (fail (err "scxq2.error.proof_ok_false" "proof" "proof ok false"
                      (at_field "proof.ok")))
    else
      witness_fields h proof
        ["engine"; "source_sha256_utf8"; "dict_sha256_canon";
         "block_sha256_canon"; "roundtrip_sha256_utf8"]%string
  else None.

(** A step that only reads: its result if it returns, else what follows. *)
Definition step_then (step : store -> option (M sval)) (next : M sval)
    : M sval :=
  fun h => match step h with Some m => m h | None => next h end.

(** [scxq2PackVerify(pack, opts = {})] *)
Definition scxq2PackVerify (fuel : nat) (pack : sval) (opts : Opts.t)
    : M sval :=
  let P := merge_policy opts in
  step_then (fun h => pack_structure P h pack) (
  step_then (fun h => dict_structure P h (prop h pack "dict")) (
  step_then (fun h => block_structure P h pack) (
  r <- canonical_hashes fuel pack ;;
  match r with
  | Some r => ret r
  | None =>
      step_then (fun h => decode_blocks P h pack) (
      step_then (fun h => proof_object P h pack) (
      fun h =>
        ok (prop h pack "pack_sha256_canon")
           (prop h (prop h pack "dict") "dict_sha256_canon")
           (length_of h (prop h pack "blocks")) h))
  end))).
End verifier.

(** A tree, allocated in the store. *)
Fixpoint load (v : value) : M sval :=
  match v with
  | VUndef => ret SUndef
  | VNull => ret SNull
  | VBool b => ret (SBool b)
  | VNum n => ret (SNum n)
  | VStr s => ret (SStr s)
  | VArr elems =>
      elems' <- (fix load_all (l : list value) : M (list sval) :=
                   match l with
                   | [] => ret []
                   | e :: rest =>
                       e' <- load e ;; rest' <- load_all rest ;;
                       ret (e' :: rest')
                   end) elems ;;
      alloc (CArr elems')
  | VObj props =>
      props' <- (fix load_all (l : list (jsstring * value))
                   : M (list (jsstring * sval)) :=
                   match l with
                   | [] => ret []
                   | (k, e) :: rest =>
                       e' <- load e ;; rest' <- load_all rest ;;
                       ret ((k, e') :: rest')
                   end) props ;;
      alloc (CObj props')
  end.

(** Every object that is in [h] is in [h'], as it is in [h]. *)
Definition preserved (h h' : store) : Prop :=
  forall l c, h !! l = Some c -> h' !! l = Some c.

(** A value that is not a reference to a location at [n] or above. *)
Definition below (n : nat) (v : sval) : Prop :=
  match v with SRef l => (l < n)%nat | _ => True end.

Global Instance below_dec n v : Decision (below n v).
Proof. destruct v; simpl; apply _. Defined.

Definition cell_values (c : cell) : list sval :=
  match c with CArr elems => elems | CObj props => props.*2 end.

(** A store whose objects refer to objects of the store only. *)
Definition closed (h : store) : Prop :=
  Forall (fun c => Forall (below (length h)) (cell_values c)) h.

(** [h'] has the objects at the locations below [n] as [h] has them. *)
Definition keeps (n : nat) (h h' : store) : Prop :=
  (n <= length h')%nat /\ forall l, (l < n)%nat -> h' !! l = h !! l.

(** A computation that leaves the locations below [n] as they are. *)
Definition stable (n : nat) {A} (m : M A) : Prop :=
  forall h, (n <= length h)%nat -> keeps n h (m h).2.

(** What a step returns, if it returns, is stable. *)
Definition returns_stable (n : nat) (o : option (M sval)) : Prop :=
  forall m, o = Some m -> stable n m.

End Store.

(** ** A model of the host

    Node.js built-ins as functions, to run the embedding on concrete
    packs: UTF-8, SHA-256, [JSON.stringify] on JSON values and the lenient
    base64 decoder of [Buffer.from]. *)
Module Node.

(** The UTF-8 bytes of a string; a lone surrogate is written as U+FFFD. *)
Fixpoint utf8_encode (s : jsstring) : list Z :=
  let replacement := [239; 191; 189] in
  match s with
  | [] => []
  | c :: rest =>
      if c <? 128 then c :: utf8_encode rest
      else if c <? 2048 then
        [192 + c / 64; 128 + c mod 64] ++ utf8_encode rest
      else if (55296 <=? c) && (c <=? 56319) then
        match rest with
        | d :: rest' =>
            if (56320 <=? d) && (d <=? 57343) then
              let cp := 65536 + (c - 55296) * 1024 + (d - 56320) in
              [240 + cp / 262144; 128 + cp / 4096 mod 64;
               128 + cp / 64 mod 64; 128 + cp mod 64] ++ utf8_encode rest'
            else replacement ++ utf8_encode rest
        | [] => replacement
        end
      else if (56320 <=? c) && (c <=? 57343) then
        replacement ++ utf8_encode rest
      else
        [224 + c / 4096; 128 + c / 64 mod 64; 128 + c mod 64]
        ++ utf8_encode rest
  end.

(** *** SHA-256 *)

Definition w32 (x : Z) : Z := x mod 4294967296.
Definition rotr (x n : Z) : Z :=
  Z.lor (Z.shiftr x n) (w32 (Z.shiftl x (32 - n))).

(** The first 64 primes. *)
Definition primes : list Z :=
  Eval vm_compute in
    take 64 (filter (fun n => forallb (fun d => negb (n mod d =? 0))
                                      (map Z.of_nat (seq 2 (Z.to_nat n - 2))))
                    (map Z.of_nat (seq 2 310))).

(** The integer cube root, by bisection on [lo <= root < hi]. *)
Fixpoint cube_root (fuel : nat) (n lo hi : Z) : Z :=
  match fuel with
  | O => lo
  | S fuel' =>
      let mid := (lo + hi) / 2 in
      if mid * mid * mid <=? n then cube_root fuel' n mid hi
      else cube_root fuel' n lo mid
  end.

(** The round constants: the first 32 bits of the fractional parts of the
    cube roots of the primes. *)
Definition K : list Z :=
  Eval vm_compute in
    map (fun p => w32 (cube_root 40 (p * 2 ^ 96) 0 (2 ^ 36))) primes.

(** The initial state: the same of the square roots of the first eight
    primes. *)
Definition H0 : list Z :=
  Eval vm_compute in map (fun p => w32 (Z.sqrt (p * 2 ^ 64))) (take 8 primes).

(** The message, a 1 bit, zeros, and the bit length on 8 bytes. *)
Definition pad (msg : list Z) : list Z :=
  let n := Z.of_nat (length msg) in
  let zeros := Z.to_nat ((55 - n) mod 64) in
  msg ++ [128] ++ repeat 0 zeros
  ++ map (fun i => (n * 8) / 2 ^ (8 * (7 - Z.of_nat i)) mod 256) (seq 0 8).

Fixpoint words (n : nat) (bytes : list Z) : list Z :=
  match n, bytes with
  | S n', a :: b :: c :: d :: rest =>
      (((a * 256 + b) * 256 + c) * 256 + d) :: words n' rest
  | _, _ => []
  end.

(** The message schedule: [w] holds the words so far, latest first. *)
Fixpoint schedule (n : nat) (w : list Z) : list Z :=
  match n with
  | O => reverse w
  | S n' =>
      let at_ i := nth i w 0 in
      let s0 := Z.lxor (Z.lxor (rotr (at_ 14%nat) 7) (rotr (at_ 14%nat) 18))
                       (Z.shiftr (at_ 14%nat) 3) in
      let s1 := Z.lxor (Z.lxor (rotr (at_ 1%nat) 17) (rotr (at_ 1%nat) 19))
                       (Z.shiftr (at_ 1%nat) 10) in
      schedule n' (w32 (at_ 15%nat + s0 + at_ 6%nat + s1) :: w)
  end.

Definition round (st : list Z) (kw : Z * Z) : list Z :=
  match st with
  | [a; b; c; d; e; f; g; h] =>
      let S1 := Z.lxor (Z.lxor (rotr e 6) (rotr e 11)) (rotr e 25) in
      let ch := Z.lxor (Z.land e f) (Z.land (w32 (Z.lnot e)) g) in
      let t1 := w32 (h + S1 + ch + kw.1 + kw.2) in
      let S0 := Z.lxor (Z.lxor (rotr a 2) (rotr a 13)) (rotr a 22) in
      let maj := Z.lxor (Z.lxor (Z.land a b) (Z.land a c)) (Z.land b c) in
      let t2 := w32 (S0 + maj) in
      [w32 (t1 + t2); a; b; c; w32 (d + t1); e; f; g]
  | _ => st
  end.

Definition compress (h : list Z) (block : list Z) : list Z :=
  let w := schedule 48 (reverse (words 16 block)) in
  let st := foldl round h (zip K w) in
  zip_with (fun x y => w32 (x + y)) h st.

Fixpoint blocks (n : nat) (bytes : list Z) : list (list Z) :=
  match n with
  | O => []
  | S n' =>
      match bytes with
      | [] => []
      | _ => take 64 bytes :: blocks n' (drop 64 bytes)
      end
  end.

Definition hex_digit (n : Z) : Z := if n <? 10 then 48 + n else 87 + n.

Definition sha256 (msg : list Z) : list Z :=
  let padded := pad msg in
  foldl compress H0 (blocks (length padded) padded).

Definition sha256HexUtf8 (s : jsstring) : jsstring :=
  flat_map (fun word =>
              flat_map (fun i =>
                          let byte := word / 2 ^ (8 * (3 - Z.of_nat i)) mod 256 in
                          [hex_digit (byte / 16); hex_digit (byte mod 16)])
                       (seq 0 4))
           (sha256 (utf8_encode s)).

(** *** JSON.stringify *)

Definition hex4 (c : Z) : jsstring :=
  map (fun i => hex_digit (c / 2 ^ (4 * (3 - Z.of_nat i)) mod 16)) (seq 0 4).

(** The body of a quoted string. *)
Fixpoint escape (s : jsstring) : jsstring :=
  match s with
  | [] => []
  | c :: rest =>
      if c =? 34 then [92; 34] ++ escape rest
      else if c =? 92 then js "\\" ++ escape rest
      else if c =? 8 then js "\b" ++ escape rest
      else if c =? 12 then js "\f" ++ escape rest
      else if c =? 10 then js "\n" ++ escape rest
      else if c =? 13 then js "\r" ++ escape rest
      else if c =? 9 then js "\t" ++ escape rest
      else if c <? 32 then js "\u" ++ hex4 c ++ escape rest
      else if (55296 <=? c) && (c <=? 56319) then
        match rest with
        | d :: rest' =>
            if (56320 <=? d) && (d <=? 57343) then c :: d :: escape rest'
            else js "\u" ++ hex4 c ++ escape rest
        | [] => js "\u" ++ hex4 c
        end
      else if (56320 <=? c) && (c <=? 57343) then
        js "\u" ++ hex4 c ++ escape rest
      else c :: escape rest
  end.

Definition quote (s : jsstring) : jsstring := [34] ++ escape s ++ [34].

Fixpoint join (sep : jsstring) (parts : list jsstring) : jsstring :=
  match parts with
  | [] => []
  | [p] => p
  | p :: rest => p ++ sep ++ join sep rest
  end.

(** [undefined] is left out of an object and written [null] in an array;
    at the top it has no JSON text. *)
Fixpoint JSON_stringify (v : value) : jsstring :=
  match v with
  | VUndef => []
  | VNull => js "null"
  | VBool true => js "true"
  | VBool false => js "false"
  | VNum (Num z) => Number_to_string z
  | VNum _ => js "null"
  | VStr s => quote s
  | VArr elems =>
      js "[" ++ join (js ",")
                  (map (fun e => match e with
                                 | VUndef => js "null"
                                 | _ => JSON_stringify e
                                 end) elems)
      ++ js "]"
  | VObj props =>
      js "{" ++ join (js ",")
                  (flat_map (fun p => match p with
                                      | (_, VUndef) => []
                                      | (k, e) =>
                                          [quote k ++ js ":" ++ JSON_stringify e]
                                      end) props)
      ++ js "}"
  end.

(** *** Buffer.from(s, "base64") *)

(** The value of a character of the base64 or base64url alphabet. *)
Definition unbase64 (c : Z) : option Z :=
  if (65 <=? c) && (c <=? 90) then Some (c - 65)
  else if (97 <=? c) && (c <=? 122) then Some (c - 71)
  else if (48 <=? c) && (c <=? 57) then Some (c + 4)
  else if (c =? 43) || (c =? 45) then Some 62
  else if (c =? 47) || (c =? 95) then Some 63
  else None.

(** The values up to the first [=]; other characters are skipped. *)
Fixpoint sextets (s : jsstring) : list Z :=
  match s with
  | [] => []
  | c :: rest =>
      if c =? 61 then []
      else match unbase64 c with
           | Some n => n :: sextets rest
           | None => sextets rest
           end
  end.

(** Four values give three bytes; three give two, two give one, and a
    last single value gives none. *)
Fixpoint bytes_of_sextets (n : nat) (l : list Z) : list Z :=
  match n, l with
  | S n', a :: b :: c :: d :: rest =>
      [a * 4 + b / 16; b mod 16 * 16 + c / 4; c mod 4 * 64 + d]
      ++ bytes_of_sextets n' rest
  | _, [a; b; c] => [a * 4 + b / 16; b mod 16 * 16 + c / 4]
  | _, [a; b] => [a * 4 + b / 16]
  | _, _ => []
  end.

Definition Buffer_from_base64 (s : jsstring) : list Z :=
  let l := sextets s in bytes_of_sextets (length l) l.

Definition utf8_length (s : jsstring) : Z := Z.of_nat (length (utf8_encode s)).

(** *** The five regular expressions *)

Fixpoint span (p : Z -> bool) (s : jsstring) : jsstring * jsstring :=
  match s with
  | c :: rest =>
      if p c then let (run, after) := span p rest in (c :: run, after)
      else ([], s)
  | [] => ([], [])
  end.

Definition is_letter (c : Z) : bool :=
  ((65 <=? c) && (c <=? 90)) || ((97 <=? c) && (c <=? 122)).
Definition is_ident_start (c : Z) : bool :=
  is_letter c || (c =? 95) || (c =? 36).
Definition is_ident_char (c : Z) : bool := is_ident_start c || is_digit c.
Definition is_blank (c : Z) : bool := (c =? 32) || (c =? 9).
Definition is_punct (c : Z) : bool :=
  bool_decide (c ∈ js "{}()[];,.=:+-*/<>!&|%^").

(** The match at the start of [s], if there is one: the groups and the
    rest of the text. *)
Definition match_here (re : pattern) (s : jsstring)
    : option (regexp_match * jsstring) :=
  match re, s with
  | re_identifier, c :: rest =>
      let (run, after) := span is_ident_char rest in
      if is_ident_start c && (2 <=? length run)%nat
      then Some ([Some (c :: run)], after) else None
  | re_whitespace, _ :: _ =>
      let (run, after) := span is_blank s in
      if (2 <=? length run)%nat then Some ([Some run], after) else None
  | re_punctuation, _ :: _ =>
      let (run, after) := span is_punct s in
      if (2 <=? length run)%nat then Some ([Some run], after) else None
  | re_string_literal, q :: rest =>
      if (q =? 34) || (q =? 39) then
        let (run, after) :=
          span (fun c => negb (c =? q) && negb (c =? 10)) rest in
        match after with
        | q' :: after1 =>
            if (q' =? q) && (3 <=? length run)%nat && (length run <=? 64)%nat
            then Some ([Some ([q] ++ run ++ [q]);
                        (if q =? 34 then Some run else None);
                        (if q =? 39 then Some run else None)], after1)
            else None
        | [] => None
        end
      else None
  | re_json_key, 34 :: rest =>
      let (run, after) :=
        span (fun c => negb (c =? 34) && negb (c =? 92) && negb (c =? 10))
             rest in
      match after with
      | 34 :: after1 =>
          let (blank, after2) := span is_space after1 in
          match after2 with
          | 58 :: after3 =>
              if (1 <=? length run)%nat && (length run <=? 64)%nat
              then Some ([Some ([34] ++ run ++ [34] ++ blank ++ [58]);
                          Some run], after3)
              else None
          | _ => None
          end
      | _ => None
      end
  | _, _ => None
  end.

(** All matches, left to right, none overlapping; every match is at
    least one character long. *)
Fixpoint scan (fuel : nat) (re : pattern) (s : jsstring)
    : list regexp_match :=
  match fuel, s with
  | S fuel', _ :: rest =>
      match match_here re s with
      | Some (m, after) =>
          m :: scan fuel' re after
      | None => scan fuel' re rest
      end
  | _, _ => []
  end.

Definition matchAll (re : pattern) (s : jsstring) : list regexp_match :=
  scan (length s) re s.

Definition host : Host :=
  Build_Host sha256HexUtf8 JSON_stringify Buffer_from_base64 utf8_length
    matchAll (js "2026-01-03T00:00:00Z").
End Node.

(** ** Concrete packs *)

Module Example.
(** The identity rule: the hash of the canonical
    form of the object without its hash field, stored in that field. *)
Definition seal `{Host} (v : value) (field : string) : value :=
  match v with
  | VObj props =>
      VObj (obj_set props (js field)
              (VStr (sha256HexUtf8 (canon (copyMinus v (js field))))))
  | _ => v
  end.

(** The pack of the test "rejects mutated pack_sha256_canon", with the
    pack hash as a parameter. *)
Definition test_pack (pack_hash : string) : value :=
  obj [("@type", str "scxq2.pack"); ("@version", str "1.0.0");
       ("mode", str "SCXQ2-DICT16-B64"); ("encoding", str "SCXQ2-1");
       ("created_utc", str "2026-01-03T00:00:00Z");
       ("dict", obj [("@type", str "scxq2.dict"); ("@version", str "1.0.0");
                     ("mode", str "SCXQ2-DICT16-B64");
                     ("encoding", str "SCXQ2-1");
                     ("source_sha256_utf8", str "00");
                     ("dict", VArr [str "a"]);
                     ("dict_sha256_canon", str "00")]);
       ("blocks", VArr [obj [("@type", str "scxq2.block");
                             ("@version", str "1.0.0");
                             ("mode", str "SCXQ2-DICT16-B64");
                             ("encoding", str "SCXQ2-1");
                             ("lane_id", str "x");
                             ("source_sha256_utf8", str "00");
                             ("dict_sha256_canon", str "00");
                             ("b64", str "AA==");
                             ("block_sha256_canon", str "00")]]);
       ("proof", obj [("@type", str "cc.proof"); ("@version", str "1.0.0");
                      ("engine", str "asx://cc/engine/scxq2.v1");
                      ("source_sha256_utf8", str "00");
                      ("dict_sha256_canon", str "00");
                      ("block_sha256_canon", str "00");
                      ("roundtrip_sha256_utf8", str "00");
                      ("ok", VBool true)]);
       ("pack_sha256_canon", str pack_hash)]%string.

(** A sealed pack with one block, an empty dictionary and the given
    base64 text; every hash is the true one, and the source hash is the
    hash of [source]. *)
Definition sealed_pack `{Host} (b64 : string) (source : jsstring) : value :=
  let source_sha := VStr (sha256HexUtf8 source) in
  let dict :=
    seal (obj [("@type", str "scxq2.dict"); ("@version", str "1.0.0");
               ("mode", str "SCXQ2-DICT16-B64"); ("encoding", str "SCXQ2-1");
               ("source_sha256_utf8", source_sha);
               ("dict", VArr [])]%string) "dict_sha256_canon" in
  let block :=
    seal (obj [("@type", str "scxq2.block"); ("@version", str "1.0.0");
               ("mode", str "SCXQ2-DICT16-B64"); ("encoding", str "SCXQ2-1");
               ("source_sha256_utf8", source_sha);
               ("dict_sha256_canon", prop dict "dict_sha256_canon");
               ("b64", str b64)]%string) "block_sha256_canon" in
  let proof :=
    obj [("@type", str "cc.proof"); ("@version", str "1.0.0");
         ("engine", str "asx://cc/engine/scxq2.v1");
         ("source_sha256_utf8", source_sha);
         ("dict_sha256_canon", prop dict "dict_sha256_canon");
         ("block_sha256_canon", prop block "block_sha256_canon");
         ("roundtrip_sha256_utf8", source_sha);
         ("ok", VBool true)]%string in
  seal (obj [("@type", str "scxq2.pack"); ("@version", str "1.0.0");
             ("mode", str "SCXQ2-DICT16-B64"); ("encoding", str "SCXQ2-1");
             ("dict", dict); ("blocks", VArr [block]); ("proof", proof)]%string)
       "pack_sha256_canon".

(** A pack whose dictionary holds [n] times the entry ["x"]: the pack of
    the test "rejects dict size exceeding limit". *)
Definition big_dict_pack (n : nat) : value :=
  obj [("@type", str "scxq2.pack"); ("@version", str "1.0.0");
       ("mode", str "SCXQ2-DICT16-B64"); ("encoding", str "SCXQ2-1");
       ("dict", obj [("@type", str "scxq2.dict"); ("@version", str "1.0.0");
                     ("mode", str "SCXQ2-DICT16-B64");
                     ("encoding", str "SCXQ2-1");
                     ("dict", VArr (repeat (str "x") n));
                     ("dict_sha256_canon", str "test")]);
       ("blocks", VArr [obj [("@type", str "scxq2.block");
                             ("@version", str "1.0.0");
                             ("mode", str "SCXQ2-DICT16-B64");
                             ("encoding", str "SCXQ2-1");
                             ("b64", str "AA==");
                             ("dict_sha256_canon", str "test");
                             ("block_sha256_canon", str "test")]]);
       ("proof", obj [("@type", str "cc.proof"); ("@version", str "1.0.0");
                      ("ok", VBool true)])]%string.

(** A dictionary and a block that [verifyPack] accepts, with the given
    base64 text. *)
Definition plain_dict : value :=
  obj [("@type", str "scxq2.dict"); ("@version", str "1.0.0");
       ("mode", str "SCXQ2-DICT16-B64"); ("encoding", str "SCXQ2-1");
       ("dict", VArr [])]%string.

Definition plain_block (b64 : string) : value :=
  obj [("@type", str "scxq2.block"); ("@version", str "1.0.0");
       ("mode", str "SCXQ2-DICT16-B64"); ("encoding", str "SCXQ2-1");
       ("b64", str b64)]%string.

(** Options whose [maxDict] is [NaN], and a ranking of [n] tokens
    [t0], [t1], ... as [collectTokens] ranks tokens that occur twice. *)
Definition opts_NaN : CCOpts.t :=
  {| CCOpts.maxDict := Some NaN; CCOpts.minLen := None;
     CCOpts.created_utc := None; CCOpts.source_file := None;
     CCOpts.enableFieldOps := false; CCOpts.enableEdgeOps := false;
     CCOpts.noStrings := false; CCOpts.noWS := false;
     CCOpts.noPunct := false |}.

Definition ranking (n : nat) : list scored :=
  map (fun i => let t := js "token" ++ Number_toString (Z.of_nat i) in
                {| tok := t; count := 2;
                   totalSavings := (estimateBytes t - 3) * 2 |})
      (seq 0 n).

(** The two objects of the test "canon: produces deterministic output". *)
Definition obj1 : value :=
  obj [("b", VNum 2); ("a", VNum 1);
       ("c", obj [("z", VNum 26); ("y", VNum 25)])]%string.
Definition obj2 : value :=
  obj [("c", obj [("y", VNum 25); ("z", VNum 26)]);
       ("a", VNum 1); ("b", VNum 2)]%string.
(** The objects of [v] in a store that holds nothing else, and the
    reference to [v]. *)
Definition loaded (v : value) : Store.sval * Store.store :=
  let r := Store.load v [] in (default Store.SUndef r.1, r.2).

(** [scxq2PackVerify(pack, opts)] on the objects of [pack]: the result as a
    tree, and the store before and after the call. *)
Definition verified `{Host} (pack : value) (opts : Opts.t)
    : option value * Store.store * Store.store :=
  let (p, h) := loaded pack in
  let r := Store.scxq2PackVerify 64 p opts h in
  (Store.snapshot 64 r.2 <$> r.1, h, r.2).
End Example.

(** * Properties *)

(** ** Test vectors *)

Example scenario_A :
  scxq2DecodeUtf16 [VStr (js "hello"); VStr (js "world")]
    [128; 0; 0; 32; 128; 0; 1] lim1000 = DecOk (js "hello world").
Proof. reflexivity. Qed.

Example scenario_B :
  scxq2DecodeUtf16 [] [130] lim1000 = DecErr (invalid_byte 0 130).
Proof. reflexivity. Qed.

Example scenario_C :
  scxq2DecodeUtf16 [VStr (js "test")] [128; 0] lim1000
  = DecErr (truncated_sequence 0).
Proof. reflexivity. Qed.

Example scenario_D :
  scxq2DecodeUtf16 [VStr (js "only")] [128; 0; 5] lim1000
  = DecErr (dict_index_oob 0 5).
Proof. reflexivity. Qed.

Example scenario_E :
  scxq2DecodeUtf16 [] [129; 0; 233] lim1000 = DecOk [233].
Proof. reflexivity. Qed.

Example encode_hello_world :
  enc_bytes <$> encodeSCXQ2 20 (js "hello world") [js "hello"; js "world"] no_opts
  = Some [128; 0; 0; 32; 128; 0; 1].
Proof. reflexivity. Qed.

Example encode_b64 :
  enc_b64 <$> encodeSCXQ2 20 (js "hello world") [js "hello"; js "world"] no_opts
  = Some (js "gAAAIIAAAQ==").
Proof. reflexivity. Qed.

Example encode_e_acute :
  enc_bytes <$> encodeSCXQ2 20 [233] [] no_opts = Some [129; 0; 233].
Proof. reflexivity. Qed.
(** ** The decoder *)

Lemma byte_at_app_l pre rest i :
  (i < length pre)%nat -> byte_at (pre ++ rest) i = byte_at pre i.
Proof. intros Hi. unfold byte_at. by rewrite lookup_app_l. Qed.

Lemma pair_at_app_l pre rest i :
  (i + 2 < length pre)%nat -> pair_at (pre ++ rest) i = pair_at pre i.
Proof.
  intros Hi. unfold pair_at. rewrite !byte_at_app_l by lia. reflexivity.
Qed.

(** The limit only decides between going on and [output_limit]. *)
Lemma decode_body_limit D bytes M0 M i out n i' out' n' :
  decode_body D bytes M0 i out n = Continue (i', out', n') ->
  decode_body D bytes M i out n =
    if Z.of_nat n' >? M
    then Return (DecErr (output_limit (Nat.min (length bytes - 1) i')))
    else Continue (i', out', n').
Proof.
  unfold decode_body.
  repeat case_match; try discriminate; intros [= <- <- <-]; try reflexivity.
  all: congruence.
Qed.

(** An iteration that goes on reads only bytes before [i']: it does the
    same in any longer stream. *)
Lemma decode_body_app D pre rest M i out n i' out' n' :
  (i < length pre)%nat ->
  decode_body D pre M i out n = Continue (i', out', n') ->
  decode_body D (pre ++ rest) M i out n = Continue (i', out', n').
Proof.
  intros Hi H.
  assert (Hfar : forall k, (length pre <=? i + k)%nat = false ->
            (length (pre ++ rest) <=? i + k)%nat = false).
  { intros k Hk. tests_to_props. apply Nat.leb_gt. rewrite length_app. lia. }
  revert H. unfold decode_body. rewrite byte_at_app_l by done.
  repeat case_match; try discriminate; intros [= <- <- <-]; try reflexivity.
  all: repeat match goal with
       | H : (length _ <=? _)%nat = false |- _ =>
           pose proof (Hfar _ H); tests_to_props
       end.
  all: rewrite ?pair_at_app_l in * by lia.
  all: try congruence; exfalso; tests_to_props; simplify_eq; lia.
Qed.

Lemma decode_body_no_ok D bytes M i out n v :
  decode_body D bytes M i out n <> Return (DecOk v).
Proof. unfold decode_body. repeat case_match; discriminate. Qed.

(** A run that succeeds on [pre] is the start of the run on any stream
    that [pre] begins: after at most one iteration per byte of [pre] the
    longer run is at index [length pre] with the output of the short one. *)
Lemma decode_loop_prefix rest f D pre M i out n v :
  (i <= length pre)%nat ->
  decode_loop f D pre M i out n = Some (DecOk v) ->
  exists k w,
    (k <= length pre - i)%nat /\ v = out ++ w /\
    forall g, decode_loop (k + g) D (pre ++ rest) M i out n
              = decode_loop g D (pre ++ rest) M (length pre) v (n + length w).
Proof.
  revert i out n. induction f as [|f IH]; intros i out n Hi H; [done|].
  rewrite decode_loop_unfold in H.
  destruct (i <? length pre)%nat eqn:Hlt; simpl in H; tests_to_props.
  - destruct (decode_body D pre M i out n) as [[[i' out'] n']|r] eqn:Hb.
    + pose proof (decode_body_continue _ _ _ _ _ _ _ _ _ Hlt Hb)
        as (Hi' & (w1 & -> & ->) & _).
      destruct (IH _ _ _ (proj2 Hi') H) as (k & w & Hk & -> & Hrun).
      exists (S k), (w1 ++ w). split; [lia|]. split; [by rewrite app_assoc|].
      intros g. change (S k + g)%nat with (S (k + g)).
      rewrite decode_loop_unfold.
      replace (i <? length (pre ++ rest))%nat with true
        by (symmetry; apply Nat.ltb_lt; rewrite length_app; lia).
      simpl. rewrite (decode_body_app _ _ _ _ _ _ _ _ _ _ Hlt Hb).
      rewrite Hrun, length_app. f_equal. lia.
    + injection H as ->. by apply decode_body_no_ok in Hb.
  - injection H as <-. exists 0%nat, []. split; [lia|].
    split; [by rewrite app_nil_r|]. intros g. simpl.
    replace i with (length pre) by lia. f_equal. lia.
Qed.

(** [scxq2DecodeUtf16] returns what its loop returns. *)
Lemma scxq2DecodeUtf16_eq D bytes lim r :
  scxq2DecodeUtf16 D bytes lim = r <->
  decode_loop (S (length bytes)) D bytes (maxOut_of lim) 0 [] 0 = Some r.
Proof.
  unfold scxq2DecodeUtf16.
  generalize (decode_loop_total (S (length bytes)) D bytes (maxOut_of lim)
                0 [] 0 (proj2 (Nat.lt_succ_r _ _) (Nat.le_sub_l _ _))).
  destruct (decode_loop _ _ _ _ _ _ _) as [r'|]; intros Hs.
  - simpl. split; congruence.
  - by destruct (is_Some_None Hs).
Qed.

(** Invalid-byte rejection in [scxq2DecodeUtf16]: once the bytes before
    it have been decoded, a byte from 0x82 to 0xFF ends the decoding with
    [invalid_byte] at its offset, whatever follows it. *)
Lemma scxq2DecodeUtf16_invalid_byte D pre b rest lim v :
  scxq2DecodeUtf16 D pre lim = DecOk v ->
  130 <= b <= 255 ->
  scxq2DecodeUtf16 D (pre ++ b :: rest) lim
  = DecErr (invalid_byte (length pre) b).
Proof.
  rewrite !scxq2DecodeUtf16_eq. intros H Hb.
  destruct (decode_loop_prefix (b :: rest) _ _ _ _ _ _ _ _ (Nat.le_0_l _) H)
    as (k & w & Hk & -> & Hrun).
  replace (S (length (pre ++ b :: rest)))
    with (k + S (S (length pre - k + length rest)))%nat
    by (rewrite length_app; simpl; lia).
  rewrite Hrun, decode_loop_unfold.
  replace (length pre <? length (pre ++ b :: rest))%nat with true
    by (symmetry; apply Nat.ltb_lt; rewrite length_app; simpl; lia).
  simpl. unfold decode_body, byte_at.
  rewrite list_lookup_middle by done. simpl.
  replace (b <=? 127) with false by (symmetry; apply Z.leb_gt; lia).
  replace (b =? 128) with false by (symmetry; apply Z.eqb_neq; lia).
  replace (b =? 129) with false by (symmetry; apply Z.eqb_neq; lia).
  reflexivity.
Qed.

(** A successful run only appends to the output, and succeeds just the
    same under every limit that its final length respects. *)
Lemma decode_loop_relimit f D bytes M0 i out n v :
  decode_loop f D bytes M0 i out n = Some (DecOk v) ->
  exists w, v = out ++ w /\
    forall M, Z.of_nat (n + length w) <= M ->
      decode_loop f D bytes M i out n = Some (DecOk v).
Proof.
  revert i out n. induction f as [|f IH]; intros i out n H; [done|].
  rewrite decode_loop_unfold in H.
  destruct (i <? length bytes)%nat eqn:Hlt; simpl in H.
  - tests_to_props.
    destruct (decode_body D bytes M0 i out n) as [[[i' out'] n']|r] eqn:Hb.
    + pose proof (decode_body_continue _ _ _ _ _ _ _ _ _ Hlt Hb)
        as (_ & (w1 & -> & ->) & _).
      destruct (IH _ _ _ H) as (w & -> & Hrun).
      exists (w1 ++ w). split; [by rewrite app_assoc|].
      intros M HM. rewrite length_app in HM.
      rewrite decode_loop_unfold.
      replace (i <? length bytes)%nat with true
        by (symmetry; by apply Nat.ltb_lt).
      simpl. rewrite (decode_body_limit _ _ _ M _ _ _ _ _ _ Hb).
      replace (Z.of_nat (n + length w1) >? M) with false
        by (symmetry; rewrite Z.gtb_ltb; apply Z.ltb_ge; lia).
      apply Hrun. lia.
    + injection H as ->. by apply decode_body_no_ok in Hb.
  - injection H as <-. exists []. split; [by rewrite app_nil_r|].
    intros M _. rewrite decode_loop_unfold, Hlt. reflexivity.
Qed.

(** If a run that still has a byte to read ends with more output than [M]
    allows, then under the limit [M] the run on any stream that begins
    the same way stops with [output_limit]. *)
Lemma decode_loop_exceeds rest f D pre M0 M i out n w :
  (i < length pre)%nat ->
  decode_loop f D pre M0 i out n = Some (DecOk (out ++ w)) ->
  M < Z.of_nat (n + length w) ->
  forall g, (f <= g)%nat ->
    exists off, decode_loop g D (pre ++ rest) M i out n
                = Some (DecErr (output_limit off)).
Proof.
  revert i out n w.
  induction f as [|f IH]; intros i out n w Hlt H HM g Hg; [done|].
  destruct g as [|g]; [lia|].
  rewrite decode_loop_unfold in H.
  replace (i <? length pre)%nat with true in H
    by (symmetry; by apply Nat.ltb_lt).
  simpl in H.
  destruct (decode_body D pre M0 i out n) as [[[i' out'] n']|r] eqn:Hb;
    [|injection H as ->; by apply decode_body_no_ok in Hb].
  pose proof (decode_body_continue _ _ _ _ _ _ _ _ _ Hlt Hb)
    as (Hi' & (w1 & -> & ->) & _).
  rewrite decode_loop_unfold.
  replace (i <? length (pre ++ rest))%nat with true
    by (symmetry; apply Nat.ltb_lt; rewrite length_app; lia).
  simpl.
  rewrite (decode_body_limit _ _ M0 M _ _ _ _ _ _
             (decode_body_app _ _ rest _ _ _ _ _ _ _ Hlt Hb)).
  destruct (Z.of_nat (n + length w1) >? M) eqn:Hover; [eauto|].
  tests_to_props.
  destruct (decode_loop_relimit _ _ _ _ _ _ _ _ H) as (w2 & Hv & _).
  rewrite <- app_assoc in Hv. apply app_inv_head in Hv as ->.
  rewrite length_app in HM.
  destruct (decide (i' < length pre)%nat) as [Hi2|Hi2].
  - apply (IH _ _ _ w2 Hi2); [by rewrite <- app_assoc | lia | lia].
  - exfalso. destruct f as [|f]; [done|].
    rewrite decode_loop_unfold in H.
    replace (i' <? length pre)%nat with false in H
      by (symmetry; apply Nat.ltb_ge; lia).
    simpl in H. injection H as H.
    apply (f_equal length) in H. rewrite !length_app in H. lia.
Qed.

Lemma scxq2DecodeUtf16_within D bytes lim0 lim v :
  scxq2DecodeUtf16 D bytes lim0 = DecOk v ->
  Z.of_nat (length v) <= maxOut_of lim ->
  scxq2DecodeUtf16 D bytes lim = DecOk v.
Proof.
  rewrite !scxq2DecodeUtf16_eq. intros H Hle.
  destruct (decode_loop_relimit _ _ _ _ _ _ _ _ H) as (w & -> & Hrun).
  apply Hrun. simpl in *. lia.
Qed.

Lemma scxq2DecodeUtf16_exceeds D bytes lim0 lim v rest :
  scxq2DecodeUtf16 D bytes lim0 = DecOk v ->
  maxOut_of lim < Z.of_nat (length v) -> bytes <> [] ->
  exists off,
    scxq2DecodeUtf16 D (bytes ++ rest) lim = DecErr (output_limit off).
Proof.
  rewrite scxq2DecodeUtf16_eq. setoid_rewrite scxq2DecodeUtf16_eq.
  intros H Hgt Hne.
  eapply (decode_loop_exceeds rest _ _ _ _ _ _ _ _ v); [|exact H|done|].
  - destruct bytes; [done|simpl; lia].
  - rewrite length_app. lia.
Qed.

(** C3. Decompression-bomb guard.  Let a stream decode, under whatever
    limits, to [v].  Under the limits [lim] the same stream decodes to [v]
    when [v] has at most [maxOutputUnits] code units (so also when it has
    exactly that many); and when [v] is longer, decoding that stream or
    any stream beginning with it fails with [output_limit], whatever the
    bytes that follow. *)
Theorem output_limit_guard D bytes lim0 lim v :
  scxq2DecodeUtf16 D bytes lim0 = DecOk v ->
  (Z.of_nat (length v) <= maxOut_of lim ->
     scxq2DecodeUtf16 D bytes lim = DecOk v) /\
  (maxOut_of lim < Z.of_nat (length v) -> bytes <> [] ->
     forall rest, exists off,
       scxq2DecodeUtf16 D (bytes ++ rest) lim = DecErr (output_limit off)).
Proof.
  intros H. split.
  - by apply scxq2DecodeUtf16_within with lim0.
  - intros ? ? rest. by apply scxq2DecodeUtf16_exceeds with lim0 v.
Qed.

Lemma output_limit_guard_witness :
  scxq2DecodeUtf16 [VStr (js "AAAA")] [128; 0; 0; 128; 0; 0]
    {| lim_maxOutputUnits := Some 8 |} = DecOk (js "AAAAAAAA") /\
  exists off,
    scxq2DecodeUtf16 [VStr (js "AAAA")] ([128; 0; 0; 128; 0; 0] ++ [130])
      {| lim_maxOutputUnits := Some 7 |} = DecErr (output_limit off).
Proof.
  split.
  - apply (output_limit_guard [VStr (js "AAAA")] [128; 0; 0; 128; 0; 0]
             lim1000 {| lim_maxOutputUnits := Some 8 |} (js "AAAAAAAA"));
      [reflexivity | vm_compute; discriminate].
  - apply (output_limit_guard [VStr (js "AAAA")] [128; 0; 0; 128; 0; 0]
             lim1000 {| lim_maxOutputUnits := Some 7 |} (js "AAAAAAAA"));
      [reflexivity | vm_compute; reflexivity | discriminate].
Defined.
(** ** 32-bit operators on small numbers *)

Lemma ToInt32_small x : - 2147483648 <= x < 2147483648 -> ToInt32 x = x.
Proof.
  intros H. unfold ToInt32.
  change (2 ^ 31) with 2147483648. change (2 ^ 32) with 4294967296.
  rewrite Z.mod_small; lia.
Qed.

Lemma js_sar_8 x : 0 <= x < 2147483648 -> js_sar x 8 = x / 256.
Proof.
  intros H. unfold js_sar. rewrite ToInt32_small by lia.
  change (8 mod 32) with 8. by rewrite Z.shiftr_div_pow2.
Qed.

Lemma js_and_255 x : 0 <= x < 2147483648 -> js_and x 255 = x mod 256.
Proof.
  intros H. unfold js_and. rewrite !ToInt32_small by lia.
  change 255 with (Z.ones 8). by rewrite Z.land_ones.
Qed.

(** The two bytes written for a 16-bit number, read back. *)
Lemma pair_of_bytes x :
  0 <= x < 65536 -> js_or (js_shl (js_sar x 8) 8) (js_and x 255) = x.
Proof.
  intros H.
  assert (0 <= x / 256 < 256) by (split; [apply Z.div_pos|apply Z.div_lt_upper_bound]; lia).
  assert (0 <= x mod 256 < 256) by (apply Z.mod_pos_bound; lia).
  rewrite js_sar_8, js_and_255 by lia.
  unfold js_or, js_shl. change (8 mod 32) with 8.
  rewrite (ToInt32_small (x / 256)) by lia.
  rewrite Z.shiftl_mul_pow2 by lia. change (2 ^ 8) with 256.
  rewrite (ToInt32_small (x / 256 * 256)) by lia.
  rewrite (ToInt32_small (x / 256 * 256)) by lia.
  rewrite (ToInt32_small (x mod 256)) by lia.
  rewrite <- Z.add_nocarry_lor.
  - rewrite (Z.div_mod x 256) at 3 by lia. lia.
  - change 256 with (2 ^ 8). rewrite <- Z.shiftl_mul_pow2 by lia.
    rewrite <- Z.land_ones by lia.
    apply Z.bits_inj'. intros k Hk.
    rewrite Z.land_spec, Z.bits_0, Z.land_spec.
    destruct (Z.lt_ge_cases k 8).
    + rewrite Z.shiftl_spec_low by done. done.
    + rewrite Z.ones_spec_high by lia. by rewrite !andb_false_r.
Qed.

Lemma bytes_of_u16 x :
  0 <= x < 65536 -> 0 <= js_sar x 8 < 256 /\ 0 <= js_and x 255 < 256.
Proof.
  intros H. rewrite js_sar_8, js_and_255 by lia. split.
  - split; [apply Z.div_pos|apply Z.div_lt_upper_bound]; lia.
  - apply Z.mod_pos_bound. lia.
Qed.

(** ** The encoder *)

Lemma encode_loop_unfold fuel text dict map i bytes edges last :
  encode_loop (S fuel) text dict map i bytes edges last =
  if negb (i <? length text)%nat then Some (bytes, edges) else
  match find (fun tok => startsWith text tok i) dict with
  | Some tok =>
      let idx := Z.of_nat (default 0%nat (map !! tok)) in
      encode_loop fuel text dict map (i + length tok)%nat
        (bytes ++ [128; js_sar idx 8; js_and idx 255])
        (if last >=? 0
         then (fun es => es ++ [(last, idx)]) <$> edges
         else edges)
        idx
  | None =>
      let c := charCodeAt text i in
      encode_loop fuel text dict map (i + 1)%nat
        (bytes ++ (if c <? 128 then [c]
                   else [129; js_sar c 8; js_and c 255]))
        edges (-1)
  end.
Proof. reflexivity. Qed.

(** [map.get(tok)] is the last position of [tok] in the dictionary. *)
Lemma new_Map_lookup (dict : list jsstring) tok :
  tok ∈ dict ->
  exists idx, new_Map (imap (fun i t => (t, i)) dict) !! tok = Some idx
              /\ dict !! idx = Some tok.
Proof.
  unfold new_Map. induction dict as [|x l IH] using rev_ind; intros Hin.
  - by apply elem_of_nil in Hin.
  - rewrite imap_app, foldl_app. simpl. rewrite Nat.add_0_r.
    destruct (decide (x = tok)) as [->|Hne].
    + exists (length l). rewrite lookup_insert_eq. split; [done|].
      by rewrite list_lookup_middle.
    + rewrite lookup_insert_ne by done.
      apply elem_of_app in Hin as [Hin|Hin].
      * destruct (IH Hin) as (idx & Hm & Hl). exists idx. split; [done|].
        by apply lookup_app_l_Some.
      * apply list_elem_of_singleton in Hin. congruence.
Qed.

Lemma find_startsWith text i (dict : list jsstring) tok :
  find (fun tok => startsWith text tok i) dict = Some tok ->
  tok ∈ dict /\ take (length tok) (drop i text) = tok.
Proof.
  intros H. apply find_some in H as [Hin Hst]. split.
  - by apply list_elem_of_In.
  - unfold startsWith in Hst. by apply bool_decide_eq_true in Hst.
Qed.

(** *** What the decoder does on each form the encoder writes *)

Section decode_steps.
Context (D : list value) (pre tail : list Z) (M : Z) (out : jsstring).

Lemma decode_step_ascii g c :
  0 <= c <= 127 ->
  Z.of_nat (length out + 1) <= M ->
  decode_loop (S g) D (pre ++ [c] ++ tail) M (length pre) out (length out)
  = decode_loop g D ((pre ++ [c]) ++ tail) M (length (pre ++ [c]))
      (out ++ [c]) (length (out ++ [c])).
Proof.
  intros Hc HM. rewrite decode_loop_unfold.
  replace (length pre <? length (pre ++ [c] ++ tail))%nat with true
    by (symmetry; apply Nat.ltb_lt; rewrite !length_app; simpl; lia).
  simpl. unfold decode_body, byte_at.
  rewrite list_lookup_middle by done. simpl.
  replace (c <=? 127) with true by (symmetry; apply Z.leb_le; lia).
  replace (Z.of_nat (length out + 1) >? M) with false
    by (symmetry; rewrite Z.gtb_ltb; apply Z.ltb_ge; lia).
  unfold fromCharCode. rewrite Z.mod_small by lia.
  rewrite <- app_assoc, !length_app. reflexivity.
Qed.

Lemma byte_at_middle k b0 b1 b2 :
  (k < 3)%nat ->
  byte_at (pre ++ [b0; b1; b2] ++ tail) (length pre + k)
  = nth k [b0; b1; b2] 0.
Proof.
  intros Hk. unfold byte_at.
  rewrite lookup_app_r by lia.
  replace (length pre + k - length pre)%nat with k by lia.
  destruct k as [|[|[|k]]]; simpl; try reflexivity; lia.
Qed.

Lemma pair_at_middle b0 x :
  0 <= x < 65536 ->
  pair_at (pre ++ [b0; js_sar x 8; js_and x 255] ++ tail) (length pre) = x.
Proof.
  intros Hx. unfold pair_at. rewrite !byte_at_middle by lia. simpl.
  by apply pair_of_bytes.
Qed.

Lemma decode_step_dict g idx tok :
  D !! idx = Some (VStr tok) ->
  Z.of_nat idx < 65536 ->
  Z.of_nat (length out + length tok) <= M ->
  let x := Z.of_nat idx in
  let code := [128; js_sar x 8; js_and x 255] in
  decode_loop (S g) D (pre ++ code ++ tail) M (length pre) out (length out)
  = decode_loop g D ((pre ++ code) ++ tail) M (length (pre ++ code))
      (out ++ tok) (length (out ++ tok)).
Proof.
  intros Hidx Hlt HM x code. rewrite decode_loop_unfold.
  replace (length pre <? length (pre ++ code ++ tail))%nat with true
    by (symmetry; apply Nat.ltb_lt; rewrite !length_app; simpl; lia).
  cbn [negb]. unfold decode_body.
  pose proof (byte_at_middle 0 128 (js_sar x 8) (js_and x 255)) as Hb.
  rewrite Nat.add_0_r in Hb. unfold code. rewrite Hb by lia. cbn [nth].
  change (128 <=? 127) with false. change (128 =? 128) with true.
  cbn match.
  match goal with |- context [(?a <=? length pre + 2)%nat] =>
    replace (a <=? length pre + 2)%nat with false
      by (symmetry; apply Nat.leb_gt; rewrite !length_app; simpl; lia)
  end.
  rewrite (pair_at_middle 128 x) by (unfold x; lia).
  replace (x <? 0) with false by (symmetry; apply Z.ltb_ge; unfold x; lia).
  pose proof (lookup_lt_Some _ _ _ Hidx) as Hlen.
  replace (x >=? Z.of_nat (length D)) with false
    by (symmetry; rewrite Z.geb_leb; apply Z.leb_gt; unfold x; lia).
  simpl. unfold x. rewrite Nat2Z.id, Hidx.
  replace (Z.of_nat (length out + length tok) >? M) with false
    by (symmetry; rewrite Z.gtb_ltb; apply Z.ltb_ge; lia).
  rewrite <- app_assoc, !length_app. reflexivity.
Qed.

Lemma decode_step_utf16 g c :
  128 <= c < 65536 ->
  Z.of_nat (length out + 1) <= M ->
  let code := [129; js_sar c 8; js_and c 255] in
  decode_loop (S g) D (pre ++ code ++ tail) M (length pre) out (length out)
  = decode_loop g D ((pre ++ code) ++ tail) M (length (pre ++ code))
      (out ++ [c]) (length (out ++ [c])).
Proof.
  intros Hc HM code. rewrite decode_loop_unfold.
  replace (length pre <? length (pre ++ code ++ tail))%nat with true
    by (symmetry; apply Nat.ltb_lt; rewrite !length_app; simpl; lia).
  cbn [negb]. unfold decode_body.
  pose proof (byte_at_middle 0 129 (js_sar c 8) (js_and c 255)) as Hb.
  rewrite Nat.add_0_r in Hb. unfold code. rewrite Hb by lia. cbn [nth].
  change (129 <=? 127) with false. change (129 =? 128) with false.
  change (129 =? 129) with true. cbn match.
  match goal with |- context [(?a <=? length pre + 2)%nat] =>
    replace (a <=? length pre + 2)%nat with false
      by (symmetry; apply Nat.leb_gt; rewrite !length_app; simpl; lia)
  end.
  rewrite (pair_at_middle 129 c) by lia.
  replace (Z.of_nat (length out + 1) >? M) with false
    by (symmetry; rewrite Z.gtb_ltb; apply Z.ltb_ge; lia).
  unfold fromCharCode. rewrite Z.mod_small by lia.
  rewrite <- app_assoc, !length_app. reflexivity.
Qed.
End decode_steps.

(** *** Encoding, then decoding *)

Section roundtrip.
Context (text : jsstring) (dict : list jsstring).
Hypothesis text_wf : wf_string text.
Hypothesis dict_nonempty : Forall (fun tok => tok <> []) dict.
Hypothesis dict_size : Z.of_nat (length dict) <= 65535.

Let map := new_Map (imap (fun i t => (t, i)) dict).

(** From position [i] on, the encoder ends within one iteration per
    remaining code unit, appends only bytes, and what it appends decodes
    to the rest of the text. *)
Lemma encode_then_decode f i acc edges last :
  (i <= length text)%nat -> (length text - i < f)%nat ->
  exists tail edges',
    encode_loop f text dict map i acc edges last = Some (acc ++ tail, edges')
    /\ Forall is_byte tail
    /\ forall pre out g M,
         Z.of_nat (length out + (length text - i)) <= M ->
         (length tail < g)%nat ->
         decode_loop g (VStr <$> dict) (pre ++ tail) M (length pre)
           out (length out)
         = Some (DecOk (out ++ drop i text)).
Proof.
  revert i acc edges last.
  induction f as [|f IH]; intros i acc edges last Hi Hf; [lia|].
  rewrite encode_loop_unfold.
  destruct (i <? length text)%nat eqn:Hlt; cbn [negb]; tests_to_props.
  2:{ exists [], edges. split; [by rewrite app_nil_r|]. split; [done|].
      intros pre out g M _ Hg. destruct g as [|g]; [simpl in Hg; lia|].
      rewrite decode_loop_unfold, app_nil_r.
      replace (length pre <? length pre)%nat with false
        by (symmetry; apply Nat.ltb_ge; lia).
      rewrite drop_ge by lia. by rewrite app_nil_r. }
  destruct (find _ dict) as [tok|] eqn:Hfind.
  - (* a dictionary reference *)
    apply find_startsWith in Hfind as [Hin Hpre].
    destruct (new_Map_lookup dict tok Hin) as (idx & Hmap & Hidx).
    fold map in Hmap. rewrite Hmap.
    change (default 0%nat (Some idx)) with idx. cbv zeta.
    pose proof (lookup_lt_Some _ _ _ Hidx) as Hidx_lt.
    assert (tok <> []) as Htok
      by (by eapply (proj1 (Forall_forall _ _) dict_nonempty)).
    assert (0 < length tok)%nat as Hlen by (destruct tok; [done|simpl; lia]).
    assert (length tok <= length text - i)%nat as Hfit.
    { rewrite <- Hpre at 1. rewrite length_take, length_drop. lia. }
    destruct (bytes_of_u16 (Z.of_nat idx)) as [Hhi Hlo]; [lia|].
    edestruct (IH (i + length tok)%nat) as (tail & edges' & Henc & Hbytes & Hdec);
      [lia|lia|].
    rewrite Henc. eexists (_ ++ tail), edges'.
    split; [by rewrite <- app_assoc|]. split.
    { apply Forall_app. split; [|done]. repeat constructor; unfold is_byte; lia. }
    intros pre out g M HM Hg. destruct g as [|g]; [lia|].
    rewrite (decode_step_dict (VStr <$> dict) pre tail M out g idx tok).
    + rewrite Hdec.
      * rewrite <- app_assoc. do 3 f_equal.
        rewrite <- (take_drop (length tok) (drop i text)).
        rewrite Hpre, drop_drop. done.
      * rewrite length_app. lia.
      * rewrite length_app in Hg. simpl in Hg. lia.
    + by rewrite list_lookup_fmap, Hidx.
    + lia.
    + lia.
  - (* a literal code unit *)
    destruct (lookup_lt_is_Some_2 text i Hlt) as [c Hc].
    assert (is_code_unit c) as Hcu
      by (eapply (proj1 (Forall_forall _ _) text_wf), list_elem_of_lookup; eauto).
    unfold is_code_unit in Hcu.
    unfold charCodeAt. rewrite Hc.
    change (default 0 (Some c)) with c. cbv zeta.
    edestruct (IH (i + 1)%nat) as (tail & edges' & Henc & Hbytes & Hdec);
      [lia|lia|].
    rewrite Henc. eexists (_ ++ tail), edges'.
    split; [by rewrite <- app_assoc|].
    assert (drop i text = c :: drop (i + 1) text) as Hdrop
      by (rewrite Nat.add_1_r; by apply drop_S).
    destruct (c <? 128) eqn:Hascii; tests_to_props.
    + split.
      { apply Forall_app. split; [|done]. repeat constructor; unfold is_byte; lia. }
      intros pre out g M HM Hg. destruct g as [|g]; [lia|].
      rewrite (decode_step_ascii (VStr <$> dict) pre tail M out g c) by lia.
      rewrite Hdec.
      * rewrite <- app_assoc, Hdrop. done.
      * rewrite length_app. simpl. lia.
      * rewrite length_app in Hg. simpl in Hg. lia.
    + destruct (bytes_of_u16 c) as [Hhi Hlo]; [lia|]. split.
      { apply Forall_app. split; [|done]. repeat constructor; unfold is_byte; lia. }
      intros pre out g M HM Hg. destruct g as [|g]; [lia|].
      rewrite (decode_step_utf16 (VStr <$> dict) pre tail M out g c) by lia.
      rewrite Hdec.
      * rewrite <- app_assoc, Hdrop. done.
      * rewrite length_app. simpl. lia.
      * rewrite length_app in Hg. simpl in Hg. lia.
Qed.
End roundtrip.

(** The inverse law under explicit limits: a text of well-formed code
    units that fits the output limit, and a dictionary of at most 65535
    entries none of which is the empty string. *)
Lemma encode_decode_limits text dict opts lim :
  wf_string text ->
  Z.of_nat (length dict) <= 65535 ->
  Forall (fun tok => tok <> []) dict ->
  Z.of_nat (length text) <= maxOut_of lim ->
  exists r,
    encodeSCXQ2 (S (length text)) text dict opts = Some r /\
    Forall is_byte (enc_bytes r) /\
    scxq2DecodeUtf16 (VStr <$> dict) (enc_bytes r) lim = DecOk text.
Proof.
  intros Hwf Hsize Hne Hlim. setoid_rewrite scxq2DecodeUtf16_eq.
  unfold encodeSCXQ2.
  destruct (encode_then_decode text dict Hwf Hne Hsize (S (length text)) 0 []
              (if opt_enableEdgeOps opts then Some [] else None) (-1))
    as (tail & edges' & -> & Hbytes & Hdec); [lia|lia|].
  eexists. split; [reflexivity|]. simpl. split; [done|].
  apply (Hdec [] [] (S (length tail)) (maxOut_of lim)); simpl; lia.
Qed.

(** C1, amended.  For every string [text] of at most 134217728 code units
    (the default [maxOutputUnits]) and every dictionary of at most 65535
    strings, repeats allowed, none of them empty: the encoder returns, its
    output is a sequence of bytes, and decoding that output against the
    same dictionary returns [text]. *)
Theorem inverse_law_amended text dict opts :
  wf_string text ->
  Z.of_nat (length dict) <= 65535 ->
  Forall (fun tok => tok <> []) dict ->
  Z.of_nat (length text) <= 134217728 ->
  exists r,
    encodeSCXQ2 (S (length text)) text dict opts = Some r /\
    Forall is_byte (enc_bytes r) /\
    scxq2DecodeUtf16 (VStr <$> dict) (enc_bytes r) no_limits = DecOk text.
Proof. intros. by apply encode_decode_limits. Qed.

Lemma inverse_law_amended_witness :
  exists r,
    encodeSCXQ2 12 (js "hello world") [js "hello"; js "world"; js "hello"]
      no_opts = Some r /\
    Forall is_byte (enc_bytes r) /\
    scxq2DecodeUtf16 (VStr <$> [js "hello"; js "world"; js "hello"])
      (enc_bytes r) no_limits
    = DecOk (js "hello world").
Proof.
  apply (inverse_law_amended (js "hello world")
           [js "hello"; js "world"; js "hello"] no_opts).
  - repeat constructor; vm_compute; congruence.
  - simpl. lia.
  - repeat constructor; discriminate.
  - simpl. lia.
Defined.

(** With the empty string in the dictionary the encoder matches it at the
    first position, advances by zero code units, and never returns. *)
Lemma encode_loop_empty_token fuel map acc edges last :
  encode_loop fuel (js "a") [js ""] map 0 acc edges last = None.
Proof.
  revert acc edges last. induction fuel as [|fuel IH]; intros; [done|].
  rewrite encode_loop_unfold. simpl. apply IH.
Qed.

(** C1 as stated fails: a one-entry dictionary holding the empty string
    meets the data-model invariants, and the inverse law does not hold
    for it. *)
Lemma inverse_law_counterexample :
  wf_string (js "a") /\ Z.of_nat (length [js ""]) <= 65535 /\
  ~ inverse_law (js "a") [js ""].
Proof.
  split; [repeat constructor; vm_compute; congruence|]. split; [simpl; lia|].
  intros (fuel & r & Henc & _). unfold encodeSCXQ2 in Henc.
  by rewrite encode_loop_empty_token in Henc.
Qed.

(** The bound on the length of the text is needed as well: a longer text
    is encoded, but the decoder, under its default limits, stops with
    [output_limit]. *)
Lemma inverse_law_needs_output_limit text dict opts :
  wf_string text ->
  Z.of_nat (length dict) <= 65535 ->
  Forall (fun tok => tok <> []) dict ->
  134217728 < Z.of_nat (length text) ->
  exists r off,
    encodeSCXQ2 (S (length text)) text dict opts = Some r /\
    scxq2DecodeUtf16 (VStr <$> dict) (enc_bytes r) no_limits
    = DecErr (output_limit off).
Proof.
  intros Hwf Hsize Hne Hlong.
  destruct (encode_decode_limits text dict opts
              {| lim_maxOutputUnits := Some (Z.of_nat (length text)) |}
              Hwf Hsize Hne) as (r & Henc & _ & Hdec);
    [unfold maxOut_of; simpl; lia|].
  destruct (scxq2DecodeUtf16_exceeds _ _ _ no_limits _ [] Hdec Hlong)
    as [off Hoff].
  - intros Hnil. rewrite Hnil in Hdec. vm_compute in Hdec.
    injection Hdec as <-. simpl in Hlong. lia.
  - rewrite app_nil_r in Hoff. eauto.
Qed.
(** ** Canonical form *)

(** Induction on values, with the hypothesis for every element of an array
    and for every property value of an object. *)
Lemma value_ind' (P : value -> Prop) :
  P VUndef -> P VNull -> (forall b, P (VBool b)) -> (forall n, P (VNum n)) ->
  (forall s, P (VStr s)) ->
  (forall elems, Forall P elems -> P (VArr elems)) ->
  (forall props, Forall (fun p => P p.2) props -> P (VObj props)) ->
  forall v, P v.
Proof.
  intros Hu Hn Hb Hz Hs Ha Ho.
  fix IH 1.
  intros [| |b|n|s|elems|props];
    [exact Hu|exact Hn|apply Hb|apply Hz|apply Hs|apply Ha|apply Ho].
  - induction elems as [|v elems IHl]; constructor; [apply IH|exact IHl].
  - induction props as [|[k v] props IHl]; constructor; [apply IH|exact IHl].
Qed.

(** *** The order on keys *)

Lemma str_leb_refl s : str_leb s s = true.
Proof.
  induction s as [|a s IH]; [done|]. simpl.
  rewrite Z.ltb_irrefl, Z.eqb_refl. done.
Qed.

Global Instance str_le_total : Total str_le.
Proof.
  intros s. unfold str_le. induction s as [|a s IH]; intros [|b t]; simpl; auto.
  destruct (a <? b) eqn:E1, (b <? a) eqn:E2, (a =? b) eqn:E3, (b =? a) eqn:E4;
    tests_to_props; auto; lia.
Qed.

Global Instance str_le_trans : Transitive str_le.
Proof.
  intros s. unfold str_le.
  induction s as [|a s IH]; intros [|b t] [|c u]; simpl; try done.
  destruct (a <? b) eqn:E1, (b <? c) eqn:E2, (a =? b) eqn:E3, (b =? c) eqn:E4,
    (a <? c) eqn:E5, (a =? c) eqn:E6; tests_to_props; try done; try lia.
  apply IH.
Qed.

Global Instance str_le_antisymm : AntiSymm (=) str_le.
Proof.
  intros s. unfold str_le.
  induction s as [|a s IH]; intros [|b t]; simpl; try done.
  destruct (a <? b) eqn:E1, (b <? a) eqn:E2, (a =? b) eqn:E3, (b =? a) eqn:E4;
    tests_to_props; try done; try lia.
  intros H1 H2. f_equal; [done|]. by apply IH.
Qed.

(** Sorting does not depend on the order in which the keys are given. *)
Lemma sort_keys_perm (ks ks' : list jsstring) :
  ks ≡ₚ ks' -> sort_keys ks = sort_keys ks'.
Proof.
  intros Hp. unfold sort_keys.
  apply (StronglySorted_unique str_le).
  - apply StronglySorted_merge_sort; apply _.
  - apply StronglySorted_merge_sort; apply _.
  - by rewrite !merge_sort_Permutation.
Qed.

(** *** Lookup by key *)

Lemma lookup_prop_Some (props : list (jsstring * value)) k v :
  lookup_prop props k = Some v -> (k, v) ∈ props.
Proof.
  induction props as [|[k' v'] props IH]; simpl; [done|].
  case_decide as E.
  - intros [= ->]. subst. left.
  - intros H. right. auto.
Qed.

Lemma lookup_prop_None (props : list (jsstring * value)) k :
  lookup_prop props k = None <-> k ∉ map fst props.
Proof.
  induction props as [|[k' v'] props IH]; simpl.
  - split; [intros _; apply not_elem_of_nil|done].
  - case_decide as E.
    + subst. split; [done|]. intros H. exfalso. apply H. left.
    + rewrite IH, not_elem_of_cons. split; [intros ?; split; congruence|tauto].
Qed.

Lemma lookup_prop_elem (props : list (jsstring * value)) k v :
  NoDup (map fst props) -> (k, v) ∈ props -> lookup_prop props k = Some v.
Proof.
  induction props as [|[k' v'] props IH]; simpl; intros Hnd Hin.
  - by apply elem_of_nil in Hin.
  - apply NoDup_cons in Hnd as [Hk' Hnd].
    apply elem_of_cons in Hin as [[= <- <-]|Hin].
    + by rewrite decide_True.
    + rewrite decide_False; [auto|]. intros Heq. subst k'. apply Hk'.
      apply list_elem_of_fmap. by exists (k, v).
Qed.

Lemma lookup_prop_perm (props moved : list (jsstring * value)) k :
  NoDup (map fst props) -> props ≡ₚ moved ->
  lookup_prop props k = lookup_prop moved k.
Proof.
  intros Hnd Hp.
  assert (NoDup (map fst moved)) as Hnd' by (by rewrite <- Hp).
  destruct (lookup_prop props k) as [v|] eqn:E.
  - symmetry. apply lookup_prop_elem; [done|].
    rewrite <- Hp. by apply lookup_prop_Some.
  - symmetry. apply lookup_prop_None. rewrite <- Hp. by apply lookup_prop_None.
Qed.

Lemma lookup_prop_Forall2 (R : value -> value -> Prop) moved props' k :
  Forall2 (fun p q => p.1 = q.1 /\ R p.2 q.2) moved props' ->
  option_Forall2 R (lookup_prop moved k) (lookup_prop props' k).
Proof.
  induction 1 as [|[k1 v1] [k2 v2] moved props' [Hk Hv] _ IH]; simpl.
  - constructor.
  - simpl in Hk, Hv. subst k2. case_decide; [by constructor|done].
Qed.

Lemma value_at_lookup props k :
  (fix value_at (ps : list (jsstring * value)) (k : jsstring) : value :=
     match ps with
     | [] => VUndef
     | (k', v') :: ps' =>
         if decide (k' = k) then sortKeysDeep v' else value_at ps' k
     end) props k
  = from_option sortKeysDeep VUndef (lookup_prop props k).
Proof.
  induction props as [|[k' v'] props IH]; simpl; [done|].
  by case_decide.
Qed.

Lemma foldl_obj_set_ext (f g : jsstring -> value) keys out :
  (forall k, f k = g k) ->
  foldl (fun out k => obj_set out k (f k)) out keys
  = foldl (fun out k => obj_set out k (g k)) out keys.
Proof.
  intros Hfg. revert out. induction keys as [|k keys IH]; intros out; simpl.
  - done.
  - by rewrite Hfg, IH.
Qed.

Lemma sortKeysDeep_obj props :
  sortKeysDeep (VObj props)
  = VObj (foldl (fun out k =>
                   obj_set out k
                     (from_option sortKeysDeep VUndef (lookup_prop props k)))
                [] (sort_keys (map fst props))).
Proof.
  cbn [sortKeysDeep]. f_equal. apply foldl_obj_set_ext. intros k.
  apply value_at_lookup.
Qed.

(** [sortKeysDeep] forgets the order of the keys. *)
Lemma sortKeysDeep_key_permuted v v' :
  key_permuted v v' -> sortKeysDeep v = sortKeysDeep v'.
Proof.
  revert v'. induction v as [| | | | |elems IH|props IH] using value_ind';
    intros v' Hkp; inversion Hkp as [|? elems' Hall|? moved props' Hnd Hp Hall];
    subst; try done.
  - simpl. f_equal. clear Hkp. revert IH.
    induction Hall as [|x y l l' Hxy _ IHl]; intros IH; [done|].
    apply Forall_cons in IH as [Hx IH]. simpl. f_equal; auto.
  - rewrite !sortKeysDeep_obj.
    rewrite (sort_keys_perm (map fst props) (map fst props')).
    2:{ rewrite Hp. clear -Hall.
        induction Hall as [|[] [] ? ? [? _]]; simpl in *; [done|].
        subst. by constructor. }
    f_equal. apply foldl_obj_set_ext. intros k.
    pose proof (lookup_prop_Forall2 key_permuted moved props' k Hall) as Hl.
    rewrite <- (lookup_prop_perm props moved k Hnd Hp) in Hl.
    destruct (lookup_prop props k) as [w|] eqn:E;
      inversion Hl as [? w' Hww'|]; subst; [|done].
    simpl. apply lookup_prop_Some in E.
    rewrite Forall_forall in IH. by apply (IH (k, w)).
Qed.

(** C7. Key-order invariance: two values that differ only in the order of
    the keys of their objects, at any depth, have the same canonical
    string. *)
Theorem canon_key_order_invariant `{Host} O O' :
  key_permuted O O' -> canon O = canon O'.
Proof.
  intros Hkp. unfold canon. by rewrite (sortKeysDeep_key_permuted O O').
Qed.
(** ** The verifier *)

Lemma error_code_fail c p m a : error_code (fail (err c p m a)) = str c.
Proof. reflexivity. Qed.

Lemma error_code_ok a b n : error_code (ok a b n) = VUndef.
Proof. reflexivity. Qed.

Lemma first_result_cons o steps otherwise :
  first_result (o :: steps) otherwise =
  match o with Some r => r | None => first_result steps otherwise end.
Proof. by destruct o. Qed.

(** [no_code c o]: the step [o] does not return the error code [c]. *)
Definition no_code (c : string) (o : option value) : Prop :=
  forall r, o = Some r -> error_code r <> str c.

Lemma no_code_None c : no_code c None.
Proof. intros r. discriminate. Qed.

Lemma no_code_fail c c' p m a :
  c' <> c -> no_code c (Some (fail (err c' p m a))).
Proof.
  intros Hne r [= <-]. rewrite error_code_fail. unfold str. intros [= Hjs].
  apply Hne. clear -Hjs. revert c Hjs.
  induction c' as [|a c' IH]; intros [|b c]; simpl; try done.
  intros [= Hab Hjs]. f_equal; [|by apply IH].
  apply Nat2Z.inj in Hab.
  rewrite <- (ascii_nat_embedding a), <- (ascii_nat_embedding b). by rewrite Hab.
Qed.

Lemma no_code_for_blocks c body blocks k :
  (forall b k, no_code c (body b k)) -> no_code c (for_blocks body blocks k).
Proof.
  intros Hbody. revert k. induction blocks as [|b blocks IH]; intros k; simpl.
  - apply no_code_None.
  - destruct (body b k) eqn:E; [|apply IH]. rewrite <- E. apply Hbody.
Qed.

Lemma no_code_seq c o (k : option value) :
  no_code c o -> no_code c k ->
  no_code c (match o with Some r => Some r | None => k end).
Proof. intros Ho Hk. by destruct o. Qed.

Lemma no_code_first_result c steps otherwise :
  Forall (no_code c) steps -> error_code otherwise <> str c ->
  error_code (first_result steps otherwise) <> str c.
Proof.
  intros Hs Ho. induction Hs as [|o steps Ho' _ IH]; simpl; [done|].
  destruct o as [r|]; [by apply Ho'|done].
Qed.

(** A step made of tests, each returning one [fail (err ...)], does not
    return the code [c] when none of its codes is [c]. *)
Ltac no_code_cases :=
  repeat match goal with
  | |- no_code _ None => apply no_code_None
  | |- no_code _ (Some (fail (err _ _ _ _))) =>
      apply no_code_fail; discriminate
  | |- no_code _ (if ?b then _ else _) => destruct b
  | |- no_code _ (match ?o with Some _ => _ | None => _ end) =>
      let E := fresh "E" in destruct o eqn:E
  end.

Section verifier_codes.
Context `{Host}.
Let c := "scxq2.error.dict_size_exceeds_limit"%string.

Lemma no_size_code_dict_entries P entries j :
  no_code c (dict_entries P entries j).
Proof.
  revert j. induction entries as [|e entries IH]; intros j; simpl.
  - apply no_code_None.
  - destruct e; no_code_cases. apply IH.
Qed.

Lemma no_size_code_block_structure P pack : no_code c (block_structure P pack).
Proof.
  apply no_code_for_blocks. intros b k. unfold block_checks. no_code_cases.
Qed.

Lemma no_size_code_canonical_hashes pack : no_code c (canonical_hashes pack).
Proof.
  unfold canonical_hashes. apply no_code_seq; [|apply no_code_seq].
  - unfold pack_sha. no_code_cases.
  - unfold dict_sha. no_code_cases.
  - apply no_code_for_blocks. intros b k. unfold block_sha. no_code_cases.
Qed.

Lemma no_size_code_decode_blocks P pack : no_code c (decode_blocks P pack).
Proof.
  apply no_code_for_blocks. intros b k. unfold block_decode.
  destruct (strictB64Decode _); no_code_cases.
  destruct (scxq2DecodeUtf16 _ _ _) as [v|[]]; no_code_cases;
    apply no_code_fail; discriminate.
Qed.

Lemma no_size_code_proof_object P pack : no_code c (proof_object P pack).
Proof.
  unfold proof_object. no_code_cases.
  generalize ["engine"; "source_sha256_utf8"; "dict_sha256_canon";
              "block_sha256_canon"; "roundtrip_sha256_utf8"]%string.
  intros fields. induction fields as [|f fields IH]; simpl; no_code_cases.
  apply IH.
Qed.
End verifier_codes.

Lemma merge_policy_none : merge_policy Opts.none = SCXQ2_DEFAULT_POLICY.
Proof. reflexivity. Qed.

(** C4. Dictionary size boundary.  Under the default policy, for a pack
    that passes the checks before the size check of step 2: with exactly
    65535 dictionary entries the verifier does not report
    [dict_size_exceeds_limit], and with 65536 entries that error is its
    result. *)
Theorem dict_size_boundary `{Host} pack :
  pack_structure SCXQ2_DEFAULT_POLICY pack = None ->
  dict_header SCXQ2_DEFAULT_POLICY (prop pack "dict") = None ->
  (length_of (prop (prop pack "dict") "dict") = 65535 ->
     error_code (scxq2PackVerify pack Opts.none)
     <> str "scxq2.error.dict_size_exceeds_limit") /\
  (length_of (prop (prop pack "dict") "dict") = 65536 ->
     scxq2PackVerify pack Opts.none
     = fail (err "scxq2.error.dict_size_exceeds_limit" "dict" "dict too large"
                 (at_field "dict.dict"))).
Proof.
  intros Hpack Hhead. unfold scxq2PackVerify. rewrite merge_policy_none.
  rewrite first_result_cons, Hpack, first_result_cons.
  unfold dict_structure. rewrite Hhead. unfold dict_body. split; intros Hlen.
  - rewrite Hlen. change (65535 >? _) with false. cbv iota.
    rewrite <- first_result_cons. apply no_code_first_result.
    + repeat constructor.
      * apply no_code_seq; [apply no_size_code_dict_entries|]. no_code_cases.
      * apply no_size_code_block_structure.
      * apply no_size_code_canonical_hashes.
      * apply no_size_code_decode_blocks.
      * apply no_size_code_proof_object.
    + by rewrite error_code_ok.
  - rewrite Hlen. reflexivity.
Qed.

Lemma dict_size_boundary_witness :
  error_code (@scxq2PackVerify Node.host
                (Example.big_dict_pack (Z.to_nat 65535)) Opts.none)
  <> str "scxq2.error.dict_size_exceeds_limit" /\
  @scxq2PackVerify Node.host (Example.big_dict_pack (Z.to_nat 65536)) Opts.none
  = fail (err "scxq2.error.dict_size_exceeds_limit" "dict" "dict too large"
              (at_field "dict.dict")).
Proof.
  split.
  - apply (@dict_size_boundary Node.host
             (Example.big_dict_pack (Z.to_nat 65535))); vm_compute; reflexivity.
  - apply (@dict_size_boundary Node.host
             (Example.big_dict_pack (Z.to_nat 65536))); vm_compute; reflexivity.
Defined.

(** C5, amended.  For every pack that passes the checks of steps 1 to 3
    and whose [pack_sha256_canon] is a string: where the string is not
    empty and differs from the recomputed canonical hash, the result is
    exactly the [pack_sha_mismatch] error, and no other error is reported
    first; where the string is empty, the result is exactly the
    [pack_sha_missing] error. *)
Theorem pack_sha_mismatch_first `{Host} pack opts s :
  pack_structure (merge_policy opts) pack = None ->
  dict_structure (merge_policy opts) (prop pack "dict") = None ->
  block_structure (merge_policy opts) pack = None ->
  prop pack "pack_sha256_canon" = VStr s ->
  (s <> [] ->
   s <> sha256HexUtf8 (canon (copyMinus pack (js "pack_sha256_canon"))) ->
   scxq2PackVerify pack opts
   = fail (err "scxq2.error.pack_sha_mismatch" "canon" "pack sha mismatch"
               (at_field "pack_sha256_canon"))) /\
  (s = [] ->
   scxq2PackVerify pack opts
   = fail (err "scxq2.error.pack_sha_missing" "canon" "pack sha missing"
               (at_field "pack_sha256_canon"))).
Proof.
  intros H1 H2 H3 Hs. unfold scxq2PackVerify.
  rewrite !first_result_cons, H1, H2, H3.
  unfold canonical_hashes, pack_sha. rewrite Hs. simpl truthy. split.
  - intros Hne Hdiff. rewrite bool_decide_eq_false_2 by done. simpl.
    rewrite bool_decide_eq_false_2 by congruence. reflexivity.
  - intros Hempty. rewrite bool_decide_eq_true_2 by done. reflexivity.
Qed.

Lemma pack_sha_mismatch_first_witness :
  @scxq2PackVerify Node.host (Example.test_pack "deadbeef") Opts.none
  = fail (err "scxq2.error.pack_sha_mismatch" "canon" "pack sha mismatch"
              (at_field "pack_sha256_canon")) /\
  @scxq2PackVerify Node.host (Example.test_pack "") Opts.none
  = fail (err "scxq2.error.pack_sha_missing" "canon" "pack sha missing"
              (at_field "pack_sha256_canon")).
Proof.
  split.
  - refine (proj1 (@pack_sha_mismatch_first Node.host
                     (Example.test_pack "deadbeef") Opts.none (js "deadbeef")
                     _ _ _ _) _ _).
    + vm_compute; reflexivity.
    + vm_compute; reflexivity.
    + vm_compute; reflexivity.
    + vm_compute; reflexivity.
    + discriminate.
    + vm_compute; discriminate.
  - refine (proj2 (@pack_sha_mismatch_first Node.host
                     (Example.test_pack "") Opts.none [] _ _ _ _) _).
    + vm_compute; reflexivity.
    + vm_compute; reflexivity.
    + vm_compute; reflexivity.
    + vm_compute; reflexivity.
    + reflexivity.
Defined.

(** C5 as stated fails when the arbitrary string is the empty string: the
    pack passes steps 1 to 3, its [pack_sha256_canon] differs from the
    recomputed hash, and the result is [pack_sha_missing]. *)
Lemma pack_sha_mismatch_counterexample :
  let pack := Example.test_pack "" in
  let P := merge_policy Opts.none in
  pack_structure P pack = None /\
  dict_structure P (prop pack "dict") = None /\
  block_structure P pack = None /\
  prop pack "pack_sha256_canon" = VStr [] /\
  [] <> Node.sha256HexUtf8
          (@canon Node.host (copyMinus pack (js "pack_sha256_canon"))) /\
  @scxq2PackVerify Node.host pack Opts.none
  = fail (err "scxq2.error.pack_sha_missing" "canon" "pack sha missing"
              (at_field "pack_sha256_canon")) /\
  @scxq2PackVerify Node.host pack Opts.none
  <> fail (err "scxq2.error.pack_sha_mismatch" "canon" "pack sha mismatch"
               (at_field "pack_sha256_canon")).
Proof.
  repeat split; try (vm_compute; reflexivity); vm_compute; discriminate.
Qed.

(** *** Base64 in step 5 *)

(** A [b64] that is not a non-empty string over [A-Za-z0-9+/=] is rejected
    with [block_b64_invalid], whatever the decoder would do. *)
Lemma block_b64_non_alphabet `{Host} P dict b k s :
  prop b "b64" = VStr s ->
  (s = [] \/ exists c, c ∈ s /\ is_b64_char c = false) ->
  block_decode P dict b k
  = Some (fail (err "scxq2.error.block_b64_invalid" "block" "invalid base64"
                    (at_index "blocks.b64" k))).
Proof.
  intros Hs Hbad. unfold block_decode, strictB64Decode. rewrite Hs.
  destruct Hbad as [->|(c & Hin & Hc)]; [done|].
  case_bool_decide; [done|].
  replace (forallb is_b64_char s) with false; [done|].
  symmetry. apply not_true_is_false. intros Hall.
  rewrite forallb_forall in Hall.
  apply list_elem_of_In in Hin. apply Hall in Hin. congruence.
Qed.

(** Every non-empty string over [A-Za-z0-9+/=] passes [strictB64Decode],
    correctly padded or not. *)
Lemma strictB64Decode_accepts `{Host} s :
  s <> [] -> forallb is_b64_char s = true ->
  strictB64Decode (VStr s) = Some (Buffer_from_base64 s).
Proof.
  intros Hne Hall. unfold strictB64Decode.
  rewrite bool_decide_eq_false_2 by done. by rewrite Hall.
Qed.

(** C6, at the failing input: a sealed pack whose only block has the
    base64 text [=], a padding character with nothing to pad, reaches
    step 5 and is accepted: the result is [ok: true]. *)
Lemma verifier_accepts_bad_padding :
  let pack := @Example.sealed_pack Node.host "=" [] in
  let P := merge_policy Opts.none in
  prop (nth 0 (array_elems (prop pack "blocks")) VUndef) "b64" = str "=" /\
  first_result [pack_structure P pack; dict_structure P (prop pack "dict");
                block_structure P pack; @canonical_hashes Node.host pack]
    VUndef = VUndef /\
  prop (@scxq2PackVerify Node.host pack Opts.none) "ok" = VBool true.
Proof. vm_compute. repeat split; reflexivity. Qed.
(** ** The engine *)

(** *** [ccDecompress] and bytes from 0x82 to 0xFF *)

(** The loop of [ccDecompress] takes every byte that is neither 0x80 nor
    0x81 as a literal code unit. *)
Lemma decompress_body_literal dict bytes i out b :
  bytes !! i = Some b -> b <> 128 -> b <> 129 -> 0 <= b < 65536 ->
  decompress_body dict bytes i out = Continue ((i + 1)%nat, out ++ [b]).
Proof.
  intros Hb H0 H1 Hr. unfold decompress_body, byte_at. rewrite Hb. simpl.
  replace (b =? 128) with false by (symmetry; by apply Z.eqb_neq).
  replace (b =? 129) with false by (symmetry; by apply Z.eqb_neq).
  unfold fromCharCode. by rewrite Z.mod_small.
Qed.

(** C2, at the failing input: the base64 text [gg==] is the single byte
    0x82.  [scxq2DecodeUtf16] rejects it with [invalid_byte];
    [ccDecompress] returns the one-character string U+0082. *)
Lemma ccDecompress_accepts_invalid_byte :
  Node.Buffer_from_base64 (js "gg==") = [130] /\
  scxq2DecodeUtf16 [] [130] no_limits = DecErr (invalid_byte 0 130) /\
  @ccDecompress Node.host Example.plain_dict (Example.plain_block "gg==") = Returns [130].
Proof. repeat split; reflexivity. Qed.

(** *** The encoder returns *)

Lemma encode_loop_total text dict map fuel i acc edges last :
  Forall (fun tok => tok <> []) dict ->
  (length text - i < fuel)%nat ->
  is_Some (encode_loop fuel text dict map i acc edges last).
Proof.
  intros Hne. revert i acc edges last.
  induction fuel as [|fuel IH]; intros i acc edges last Hf; [lia|].
  rewrite encode_loop_unfold.
  destruct (i <? length text)%nat eqn:Hlt; cbn [negb]; [|eauto].
  tests_to_props.
  destruct (find _ dict) as [tok|] eqn:Hfind; cbv zeta.
  - apply find_startsWith in Hfind as [Hin _].
    assert (tok <> []) as Htok by (by eapply (proj1 (Forall_forall _ _) Hne)).
    apply IH. destruct tok; [done|simpl; lia].
  - apply IH. lia.
Qed.

(** *** The dictionary of [ccCompress] has no empty token *)

Lemma freq_incr_keys freq tok t :
  t ∈ map fst (freq_incr freq tok) -> t = tok \/ t ∈ map fst freq.
Proof.
  induction freq as [|[t' n] freq IH]; simpl.
  - rewrite list_elem_of_singleton. auto.
  - case_decide; simpl; rewrite !elem_of_cons; [tauto|].
    intros [->|Hin]; [tauto|]. destruct (IH Hin); tauto.
Qed.

Lemma add_keys o freq tok t :
  t ∈ map fst (add o freq tok) -> (t = tok /\ tok <> []) \/ t ∈ map fst freq.
Proof.
  unfold add. case_bool_decide as Hnil; simpl; [tauto|].
  destruct (lt_number _ _); [tauto|].
  case_bool_decide; [tauto|].
  intros Hin. apply freq_incr_keys in Hin. tauto.
Qed.

Lemma foldl_add_nonempty o toks freq :
  Forall (fun t => t <> []) (map fst freq) ->
  Forall (fun t => t <> []) (map fst (foldl (add o) freq toks)).
Proof.
  revert freq. induction toks as [|tok toks IH]; intros freq Hf; simpl; [done|].
  apply IH. apply Forall_forall. intros t Hin.
  apply add_keys in Hin as [[-> ?]|Hin]; [done|].
  by eapply (proj1 (Forall_forall _ _) Hf).
Qed.

Lemma foldl_matches_nonempty o (f : regexp_match -> list jsstring) ms freq :
  Forall (fun t => t <> []) (map fst freq) ->
  Forall (fun t => t <> [])
    (map fst (foldl (fun freq m => foldl (add o) freq (f m)) freq ms)).
Proof.
  revert freq. induction ms as [|m ms IH]; intros freq Hf; simpl; [done|].
  apply IH. by apply foldl_add_nonempty.
Qed.

Section engine_facts.
Context `{Host}.

Lemma collectTokens_nonempty text o :
  Forall (fun s => tok s <> []) (collectTokens text o).
Proof.
  unfold collectTokens.
  match goal with |- Forall _ (merge_sort _ (flat_map _ ?freq)) =>
    assert (Forall (fun t => t <> []) (map fst freq)) as Hfreq
  end.
  { repeat first [ apply foldl_matches_nonempty
                 | match goal with |- context [if ?b then _ else _] =>
                     destruct b end
                 | constructor ]. }
  match goal with |- Forall _ (merge_sort _ (flat_map _ ?freq)) =>
    generalize dependent freq
  end.
  intros freq Hfreq. rewrite merge_sort_Permutation.
  apply Forall_flat_map. apply Forall_forall. intros [t n] Hin.
  rewrite Forall_forall in Hfreq.
  assert (t <> []) by (apply Hfreq, list_elem_of_fmap; by exists (t, n)).
  simpl. repeat case_match; repeat constructor; done.
Qed.

Lemma fill_dict_elem maxDict scored dict t :
  t ∈ fill_dict maxDict scored dict ->
  t ∈ dict \/ t ∈ map tok scored.
Proof.
  revert dict. induction scored as [|s scored IH]; intros dict; simpl; [auto|].
  destruct (ge_number _ _); [auto|].
  intros Hin. apply IH in Hin as [Hin|Hin].
  - apply elem_of_app in Hin as [?|Hin]; [auto|].
    apply list_elem_of_singleton in Hin as ->. right. left.
  - right. by right.
Qed.

Lemma buildDict_nonempty text o :
  Forall (fun t => t <> []) (buildDict (collectTokens text o) o).
Proof.
  unfold buildDict. rewrite merge_sort_Permutation.
  apply Forall_forall. intros t Hin.
  apply fill_dict_elem in Hin as [Hin|Hin]; [by apply elem_of_nil in Hin|].
  apply list_elem_of_fmap in Hin as (s & -> & Hs).
  by eapply (proj1 (Forall_forall _ _) (collectTokens_nonempty text o)).
Qed.

(** [ccCompress] ends: it returns or it throws. *)
Lemma ccCompress_ends input opts : ccCompress input opts <> Unfinished.
Proof.
  unfold ccCompress, encodeSCXQ2.
  match goal with |- context [encode_loop ?f ?t ?d ?m ?i ?a ?e ?l] =>
    destruct (encode_loop_total t d m f i a e l) as [[bytes edges] ->]
  end.
  - apply buildDict_nonempty.
  - lia.
  - simpl. by destruct (ccDecompress _ _).
Qed.

End engine_facts.


(** *** The size of the dictionary *)

Lemma clamp_range v lo hi :
  v <> NaN -> lo <= hi ->
  exists m, clamp v (Num lo) (Num hi) = Num m /\ lo <= m <= hi.
Proof.
  intros Hv Hle. destruct v as [z| | |]; [|done|..]; unfold clamp; simpl.
  - eexists. split; [reflexivity|lia].
  - eexists. split; [reflexivity|lia].
  - eexists. split; [reflexivity|lia].
Qed.

Lemma fill_dict_length m scored dict :
  Z.of_nat (length (fill_dict (Num m) scored dict))
  <= Z.max (Z.of_nat (length dict)) m.
Proof.
  revert dict. induction scored as [|s scored IH]; intros dict; simpl; [lia|].
  destruct (Z.of_nat (length dict) >=? m) eqn:E; tests_to_props; [lia|].
  etransitivity; [apply IH|]. rewrite length_app. simpl. lia.
Qed.

Lemma fill_dict_NaN scored dict :
  fill_dict NaN scored dict = dict ++ map tok scored.
Proof.
  revert dict. induction scored as [|s scored IH]; intros dict; simpl.
  - by rewrite app_nil_r.
  - by rewrite IH, <- app_assoc.
Qed.

(** With a [maxDict] that is absent or a number other than [NaN] (zero,
    negative and infinite ones too), the dictionary has at most 65535
    entries, whatever the ranking. *)
Lemma buildDict_bound `{Host} opts scored :
  CCOpts.maxDict opts <> Some NaN ->
  Z.of_nat (length (buildDict scored (normalizeOpts opts))) <= 65535.
Proof.
  intros Hopt. unfold buildDict. rewrite merge_sort_Permutation.
  destruct (clamp_range (default (Num 1024) (CCOpts.maxDict opts)) 1 65535)
    as (m & Hm & Hrange); [|lia|].
  - destruct (CCOpts.maxDict opts) as [[]|]; simpl; congruence.
  - cbn [normalizeOpts o_maxDict]. rewrite Hm.
    etransitivity; [apply fill_dict_length|]. simpl. lia.
Qed.

(** C10, at the failing input.  [clamp] lets [NaN] through: [Math.max(1,
    NaN)] is [NaN], and no length is [>= NaN], so [buildDict] takes every
    token of the ranking.  With a ranking of 65536 tokens the dictionary
    has 65536 entries. *)
Lemma buildDict_NaN_exceeds `{Host} :
  o_maxDict (normalizeOpts Example.opts_NaN) = NaN /\
  (forall scored,
     length (buildDict scored (normalizeOpts Example.opts_NaN))
     = length scored) /\
  Z.of_nat (length (buildDict (Example.ranking (Z.to_nat 65536))
                              (normalizeOpts Example.opts_NaN))) = 65536.
Proof.
  assert (forall scored,
            length (buildDict scored (normalizeOpts Example.opts_NaN))
            = length scored) as Hall.
  { intros scored. unfold buildDict. rewrite merge_sort_Permutation.
    change (o_maxDict (normalizeOpts Example.opts_NaN)) with NaN.
    rewrite fill_dict_NaN. simpl. by rewrite length_map. }
  split; [reflexivity|]. split; [exact Hall|].
  rewrite Hall. unfold Example.ranking. rewrite length_map, length_seq.
  by rewrite Z2Nat.id.
Qed.

Lemma canon_key_order_invariant_witness :
  @canon Node.host Example.obj1 = @canon Node.host Example.obj2.
Proof.
  apply (@canon_key_order_invariant Node.host).
  unfold Example.obj1, Example.obj2, obj. simpl map.
  eapply kp_obj.
  - apply (bool_decide_unpack _). vm_compute. exact I.
  - apply Permutation_rev.
  - simpl. repeat constructor; simpl; try reflexivity.
    eapply kp_obj.
    + apply (bool_decide_unpack _). vm_compute. exact I.
    + apply Permutation_rev.
    + simpl. repeat constructor; simpl; reflexivity.
Defined.

(** The canonical string of the test's two objects. *)
Example canon_test_vector :
  @canon Node.host Example.obj1
  = [123] ++ Node.quote (js "a") ++ js ":1," ++ Node.quote (js "b") ++ js ":2,"
    ++ Node.quote (js "c") ++ js ":{" ++ Node.quote (js "y") ++ js ":25,"
    ++ Node.quote (js "z") ++ js ":26}}".
Proof. reflexivity. Qed.

(** ** The model of the host, on known values *)

Example sha256_abc :
  Node.sha256HexUtf8 (js "abc")
  = js "ba7816bf8f01cfea414140de5dae2223b00361a396177a9cb410ff61f20015ad".
Proof. vm_compute. reflexivity. Qed.

Example sha256_empty :
  Node.sha256HexUtf8 []
  = js "e3b0c44298fc1c149afbf4c8996fb92427ae41e4649b934ca495991b7852b855".
Proof. vm_compute. reflexivity. Qed.

Example sha256_two_blocks :
  Node.sha256HexUtf8 (js "abcdbcdecdefdefgefghfghighijhijkijkljklmklmnlmnomnopnopq")
  = js "248d6a61d20638b8e5c026930c3e6039a33ce45964ff2167f6ecedd419db06c1".
Proof. vm_compute. reflexivity. Qed.

Example base64_decode_lenient :
  Node.Buffer_from_base64 (js "gAAAIIAAAQ==") = [128; 0; 0; 32; 128; 0; 1] /\
  Node.Buffer_from_base64 (js "=") = [] /\
  Node.Buffer_from_base64 (js "QQ=") = [65].
Proof. repeat split; reflexivity. Qed.

(** ** The verifier does not write to its argument *)

Module StoreFacts.
Import Store.

Lemma keeps_refl n h : (n <= length h)%nat -> keeps n h h.
Proof. by split. Qed.

Lemma keeps_trans n h1 h2 h3 : keeps n h1 h2 -> keeps n h2 h3 -> keeps n h1 h3.
Proof.
  intros [? H12] [? H23]. split; [done|].
  intros l Hl. by rewrite H23, H12.
Qed.

Lemma keeps_preserved h h' : keeps (length h) h h' -> preserved h h'.
Proof.
  intros [_ Hk] l c Hl. rewrite Hk; [done|]. by apply lookup_lt_Some in Hl.
Qed.

Lemma stable_ret n {A} (a : A) : stable n (ret a).
Proof. intros h Hn. by apply keeps_refl. Qed.

Lemma stable_throw n {A} : stable n (@throw A).
Proof. intros h Hn. by apply keeps_refl. Qed.

Lemma stable_reads n {A} (f : store -> A) : stable n (reads f).
Proof. intros h Hn. by apply keeps_refl. Qed.

Lemma stable_alloc n c : stable n (alloc c).
Proof.
  intros h Hn. split; simpl.
  - rewrite length_app. lia.
  - intros l Hl. apply lookup_app_l. lia.
Qed.

Lemma stable_update n l c : (n <= l)%nat -> stable n (update l c).
Proof.
  intros Hnl h Hn. split; simpl.
  - by rewrite length_insert.
  - intros l' Hl'. apply list_lookup_insert_ne. lia.
Qed.

Lemma stable_bind n {A B} (m : M A) (k : A -> M B) :
  stable n m -> (forall a, stable n (k a)) -> stable n (bind m k).
Proof.
  intros Hm Hk h Hn. unfold bind.
  specialize (Hm h Hn). destruct (m h) as [[a|] h']; simpl in *; [|done].
  eapply keeps_trans; [exact Hm|]. apply Hk. by destruct Hm.
Qed.

(** What follows an allocation may write to the new object. *)
Lemma stable_bind_alloc n {B} c (k : sval -> M B) :
  (forall l, (n <= l)%nat -> stable n (k (SRef l))) ->
  stable n (bind (alloc c) k).
Proof.
  intros Hk h Hn. unfold bind, alloc.
  eapply keeps_trans; [apply (stable_alloc n c h Hn)|].
  apply Hk; [done|]. simpl. rewrite length_app. lia.
Qed.

Lemma stable_for_each n {A B} (f : A -> M B) l :
  (forall a, stable n (f a)) -> stable n (for_each f l).
Proof.
  intros Hf. induction l as [|a l IH]; simpl.
  - apply stable_ret.
  - apply stable_bind; [apply Hf|]. intros b.
    apply stable_bind; [apply IH|]. intros bs. apply stable_ret.
Qed.

Lemma stable_set_prop n l k v : (n <= l)%nat -> stable n (set_prop (SRef l) k v).
Proof.
  intros Hnl h Hn. unfold set_prop.
  destruct (cell_at h (SRef l)) as [[]|]; try by apply keeps_refl.
  by apply stable_update.
Qed.

Lemma stable_copyMinus n o field : stable n (copyMinus o field).
Proof.
  unfold copyMinus. apply stable_bind; [apply stable_reads|]. intros props.
  apply stable_bind_alloc. intros l Hl.
  apply stable_bind; [by apply stable_update|]. intros _. apply stable_ret.
Qed.

(** [sortKeysDeep] writes to the objects that it creates and to no other. *)
Lemma stable_sortKeysDeep n fuel v : stable n (sortKeysDeep fuel v).
Proof.
  revert n v. induction fuel as [|fuel IH]; intros n v; simpl.
  - apply stable_throw.
  - apply stable_bind; [apply stable_reads|]. intros [[elems|props]|].
    + apply stable_bind; [apply stable_for_each; intros; apply IH|].
      intros elems'. apply stable_alloc.
    + apply stable_bind_alloc. intros l Hl.
      apply stable_bind; [|intros; apply stable_ret].
      apply stable_for_each. intros k.
      apply stable_bind; [apply IH|]. intros v'. by apply stable_set_prop.
    + apply stable_ret.
Qed.

Lemma stable_obj n fields : stable n (obj fields).
Proof. apply stable_alloc. Qed.

Lemma stable_err n code phase message at_ :
  stable n at_ -> stable n (err code phase message at_).
Proof. intros Hat. apply stable_bind; [done|]. intros a. apply stable_obj. Qed.

Lemma stable_fail n e : stable n e -> stable n (fail e).
Proof. intros He. apply stable_bind; [done|]. intros a. apply stable_obj. Qed.

Lemma stable_mapDecodeErr n de lane_id index :
  stable n (mapDecodeErr de lane_id index).
Proof. destruct de; apply stable_err, stable_obj. Qed.

(** A result built by [fail(err(...))] allocates and does nothing else. *)
Ltac stable_result :=
  repeat first
    [ apply stable_fail | apply stable_err | apply stable_obj
    | apply stable_mapDecodeErr | apply stable_ret ].

Ltac returns_stable_cases :=
  repeat match goal with
  | |- returns_stable _ None => intros ? [=]
  | |- returns_stable _ (Some _) => intros ? [= <-]; stable_result
  | |- returns_stable _ (if ?b then _ else _) => destruct b
  | |- returns_stable _ (match ?o with Some _ => _ | None => _ end) =>
      let E := fresh "E" in destruct o eqn:E
  end.

Lemma returns_stable_for_blocks n body blocks k :
  (forall b k, returns_stable n (body b k)) ->
  returns_stable n (for_blocks body blocks k).
Proof.
  intros Hbody. revert k. induction blocks as [|b blocks IH]; intros k; simpl.
  - intros ? [=].
  - destruct (body b k) eqn:E; [|apply IH]. rewrite <- E. apply Hbody.
Qed.

Lemma stable_step_then n step next :
  (forall h, returns_stable n (step h)) -> stable n next ->
  stable n (step_then step next).
Proof.
  intros Hstep Hnext h Hn. unfold step_then.
  destruct (step h) as [m|] eqn:E; [|by apply Hnext].
  by apply (Hstep h m E).
Qed.

Section verifier.
Context `{Host}.

Lemma stable_canon n fuel o : stable n (canon fuel o).
Proof.
  apply stable_bind; [apply stable_sortKeysDeep|]. intros ?. apply stable_reads.
Qed.

Lemma stable_hash_differs n fuel o field : stable n (hash_differs fuel o field).
Proof.
  apply stable_bind; [apply stable_copyMinus|]. intros copy.
  apply stable_bind; [apply stable_canon|]. intros text. apply stable_reads.
Qed.

Lemma stable_block_hashes n fuel blocks k : stable n (block_hashes fuel blocks k).
Proof.
  revert k. induction blocks as [|b blocks IH]; intros k; simpl.
  - apply stable_ret.
  - apply stable_bind; [apply stable_hash_differs|]. intros [|]; [|apply IH].
    apply stable_bind; [stable_result|]. intros r. apply stable_ret.
Qed.

Lemma stable_canonical_hashes n fuel pack :
  stable n (canonical_hashes fuel pack).
Proof.
  unfold canonical_hashes.
  apply stable_bind; [apply stable_reads|]. intros [|].
  { apply stable_bind; [stable_result|]. intros r. apply stable_ret. }
  apply stable_bind; [apply stable_hash_differs|]. intros [|].
  { apply stable_bind; [stable_result|]. intros r. apply stable_ret. }
  apply stable_bind; [apply stable_reads|]. intros dict.
  apply stable_bind; [apply stable_hash_differs|]. intros [|].
  { apply stable_bind; [stable_result|]. intros r. apply stable_ret. }
  apply stable_bind; [apply stable_reads|]. intros blocks.
  apply stable_block_hashes.
Qed.

Lemma returns_stable_pack_structure n P h pack :
  returns_stable n (pack_structure P h pack).
Proof. unfold pack_structure. returns_stable_cases. Qed.

Lemma returns_stable_dict_entries n P entries j :
  returns_stable n (dict_entries P entries j).
Proof.
  revert j. induction entries as [|e entries IH]; intros j; simpl.
  - intros ? [=].
  - destruct e; returns_stable_cases. apply IH.
Qed.

Lemma returns_stable_dict_structure n P h dict :
  returns_stable n (dict_structure P h dict).
Proof.
  unfold dict_structure. returns_stable_cases.
  by eapply returns_stable_dict_entries.
Qed.

Lemma returns_stable_block_structure n P h pack :
  returns_stable n (block_structure P h pack).
Proof.
  apply returns_stable_for_blocks. intros b k.
  unfold block_checks. returns_stable_cases.
Qed.

Lemma returns_stable_decode_blocks n P h pack :
  returns_stable n (decode_blocks P h pack).
Proof.
  apply returns_stable_for_blocks. intros b k. unfold block_decode.
  destruct (strictB64Decode _); returns_stable_cases.
  destruct (scxq2DecodeUtf16 _ _ _); returns_stable_cases.
Qed.

Lemma returns_stable_witness_fields n h proof fields :
  returns_stable n (witness_fields h proof fields).
Proof.
  induction fields as [|f fields IH]; simpl; returns_stable_cases. apply IH.
Qed.

Lemma returns_stable_proof_object n P h pack :
  returns_stable n (proof_object P h pack).
Proof.
  unfold proof_object. returns_stable_cases.
  apply returns_stable_witness_fields.
Qed.

Lemma stable_scxq2PackVerify n fuel pack opts :
  stable n (scxq2PackVerify fuel pack opts).
Proof.
  unfold scxq2PackVerify.
  apply stable_step_then; [intros; apply returns_stable_pack_structure|].
  apply stable_step_then; [intros; apply returns_stable_dict_structure|].
  apply stable_step_then; [intros; apply returns_stable_block_structure|].
  apply stable_bind; [apply stable_canonical_hashes|]. intros [r|].
  { apply stable_ret. }
  apply stable_step_then; [intros; apply returns_stable_decode_blocks|].
  apply stable_step_then; [intros; apply returns_stable_proof_object|].
  intros h Hn. by apply stable_obj.
Qed.

End verifier.
End StoreFacts.

(** C9. Verification is read-only.  Whatever the store, the pack, the
    policy and the depth allowed to the recursion, and whether the call
    returns a success, returns a failure or throws: every object that
    exists when [scxq2PackVerify] is called, so the pack, its dictionary,
    its blocks, its proof and all that they hold, is after the call what
    it was before. *)
Theorem verify_read_only `{Host} fuel pack opts h :
  Store.preserved h (Store.scxq2PackVerify fuel pack opts h).2.
Proof.
  apply StoreFacts.keeps_preserved. by apply StoreFacts.stable_scxq2PackVerify.
Qed.

(** The tree of an object of a closed store is the same in every store
    that preserves it. *)
Lemma snapshot_preserved h h' d v :
  Store.closed h -> Store.preserved h h' -> Store.below (length h) v ->
  Store.snapshot d h' v = Store.snapshot d h v.
Proof.
  intros Hc Hp. revert v.
  induction d as [|d IH]; intros [| | | | |l] Hv; try done.
  simpl in Hv. destruct (lookup_lt_is_Some_2 h l Hv) as [c Hl].
  cbn [Store.snapshot Store.cell_at]. unfold Store.loc in *.
  rewrite Hl, (Hp l c Hl).
  pose proof (proj1 (Forall_lookup _ _) Hc l c Hl) as Hvals.
  destruct c as [elems|props]; simpl in Hvals; f_equal.
  - apply map_ext_in. intros e He. apply IH.
    by apply (proj1 (Forall_forall _ _) Hvals), list_elem_of_In.
  - apply map_ext_in. intros [k e] He. simpl. f_equal. apply IH.
    apply (proj1 (Forall_forall _ _) Hvals), list_elem_of_fmap.
    exists (k, e). split; [done|]. by apply list_elem_of_In.
Qed.

(** The pack as a tree, to any depth, is after the call what it was before
    it. *)
Lemma verify_keeps_pack `{Host} fuel pack opts h d :
  Store.closed h -> Store.below (length h) pack ->
  Store.snapshot d (Store.scxq2PackVerify fuel pack opts h).2 pack
  = Store.snapshot d h pack.
Proof.
  intros Hc Hv. apply snapshot_preserved; [done| |done].
  apply StoreFacts.keeps_preserved. by apply StoreFacts.stable_scxq2PackVerify.
Qed.

(** The store of the test pack is closed, and the pack is in it. *)
Example loaded_test_pack_closed :
  let l := Example.loaded (Example.test_pack "deadbeef") in
  Store.closed l.2 /\ Store.below (length l.2) l.1.
Proof.
  split; [|vm_compute; lia].
  unfold Store.closed. apply (bool_decide_unpack (Forall _ _)).
  vm_compute. exact I.
Qed.

(** The test pack with a wrong pack hash: the verifier on the store answers
    what the verifier on the tree answers, it adds ten objects to the six of
    the pack, and the pack is the tree that it was. *)
Example verified_test_pack :
  let pack := Example.test_pack "deadbeef" in
  let r := Example.verified (H := Node.host) pack Opts.none in
  r.1.1 = Some (scxq2PackVerify (H := Node.host) pack Opts.none)
  /\ length r.1.2 = 6%nat /\ length r.2 = 16%nat
  /\ take 6 r.2 = r.1.2
  /\ Store.snapshot 64 r.2 (Example.loaded pack).1 = pack.
Proof. vm_compute. repeat split; reflexivity. Qed.

(** A pack that verifies. *)
Example verified_sealed_pack :
  let pack := Example.sealed_pack (H := Node.host) "QUJD" (js "ABC") in
  let r := Example.verified (H := Node.host) pack Opts.none in
  r.1.1 = Some (scxq2PackVerify (H := Node.host) pack Opts.none)
  /\ (fun v => prop v "ok") <$> r.1.1 = Some (VBool true)
  /\ take 6 r.2 = r.1.2
  /\ Store.snapshot 64 r.2 (Example.loaded pack).1 = pack.
Proof. vm_compute. repeat split; reflexivity. Qed.

(** * Further properties of the code *)

(** ** The decoder: limits, offsets and errors *)

(** A run that succeeds has counted every code unit of its output, and
    the count has passed the limit check after every emission. *)
Lemma decode_loop_output_length f D bytes M i out n v :
  decode_loop f D bytes M i out n = Some (DecOk v) ->
  n = length out -> Z.of_nat n <= M ->
  Z.of_nat (length v) <= M.
Proof.
  revert i out n. induction f as [|f IH]; intros i out n H Hn HM; [done|].
  rewrite decode_loop_unfold in H.
  destruct (i <? length bytes)%nat eqn:Hlt; simpl in H; tests_to_props.
  - destruct (decode_body D bytes M i out n) as [[[i' out'] n']|r] eqn:Hb.
    + pose proof (decode_body_continue _ _ _ _ _ _ _ _ _ Hlt Hb)
        as (_ & (w & -> & ->) & HM').
      apply (IH _ _ _ H); [rewrite length_app; lia|done].
    + injection H as ->. by apply decode_body_no_ok in Hb.
  - injection H as <-. lia.
Qed.

(** X1. With a limit that is not negative, a decoding that succeeds
    returns at most [maxOutputUnits] code units. *)
Theorem decode_ok_within_limit D bytes lim v :
  0 <= maxOut_of lim ->
  scxq2DecodeUtf16 D bytes lim = DecOk v ->
  Z.of_nat (length v) <= maxOut_of lim.
Proof.
  intros Hlim H. apply scxq2DecodeUtf16_eq in H.
  by apply (decode_loop_output_length _ _ _ _ _ _ _ _ H).
Qed.

Lemma decode_ok_within_limit_witness :
  Z.of_nat (length (js "hello world")) <= maxOut_of lim1000.
Proof.
  apply (decode_ok_within_limit [VStr (js "hello"); VStr (js "world")]
           [128; 0; 0; 32; 128; 0; 1] lim1000 (js "hello world"));
    [vm_compute; discriminate | reflexivity].
Defined.

(** An iteration that returns an error reports an offset inside the
    stream. *)
Lemma decode_body_offset D bytes M i out n e :
  (i < length bytes)%nat ->
  decode_body D bytes M i out n = Return (DecErr e) ->
  (byte_offset e < length bytes)%nat.
Proof.
  intros Hi. unfold decode_body.
  repeat case_match; intros [= <-]; simpl; lia.
Qed.

Lemma decode_loop_offset f D bytes M i out n e :
  decode_loop f D bytes M i out n = Some (DecErr e) ->
  (byte_offset e < length bytes)%nat.
Proof.
  revert i out n. induction f as [|f IH]; intros i out n H; [done|].
  rewrite decode_loop_unfold in H.
  destruct (i <? length bytes)%nat eqn:Hlt; simpl in H; [|done].
  tests_to_props.
  destruct (decode_body D bytes M i out n) as [[[i' out'] n']|r] eqn:Hb.
  - by apply (IH _ _ _ H).
  - injection H as ->. by apply (decode_body_offset _ _ _ _ _ _ _ Hlt Hb).
Qed.

(** X2. Every error of the decoder carries a [byte_offset] that is the
    index of a byte of the stream: it is below the length of the stream,
    for [output_limit] too. *)
Theorem decode_error_offset_in_stream D bytes lim e :
  scxq2DecodeUtf16 D bytes lim = DecErr e ->
  (byte_offset e < length bytes)%nat.
Proof.
  intros H. apply scxq2DecodeUtf16_eq in H.
  by apply (decode_loop_offset _ _ _ _ _ _ _ _ H).
Qed.

Lemma decode_error_offset_in_stream_witness :
  (byte_offset (output_limit 5) < length [128; 0; 0; 128; 0; 0])%nat.
Proof.
  apply (decode_error_offset_in_stream [VStr (js "AAAA")]
           [128; 0; 0; 128; 0; 0] {| lim_maxOutputUnits := Some 7 |}).
  reflexivity.
Defined.

(** More fuel does not change what a run returns. *)
Lemma decode_loop_fuel f g D bytes M i out n r :
  decode_loop f D bytes M i out n = Some r -> (f <= g)%nat ->
  decode_loop g D bytes M i out n = Some r.
Proof.
  revert g i out n. induction f as [|f IH]; intros g i out n H Hg; [done|].
  destruct g as [|g]; [lia|].
  rewrite decode_loop_unfold in *.
  destruct (negb _); [done|].
  destruct (decode_body _ _ _ _ _ _) as [[[i' out'] n']|]; [|done].
  apply (IH _ _ _ _ H). lia.
Qed.

(** The run on [pre ++ rest], once the bytes of [pre] have been decoded
    to [v]: it goes on from the index [length pre] with the output [v]. *)
Lemma decode_after_prefix D pre rest lim v r :
  scxq2DecodeUtf16 D pre lim = DecOk v ->
  decode_loop (S (length rest)) D (pre ++ rest) (maxOut_of lim)
    (length pre) v (length v) = Some r ->
  scxq2DecodeUtf16 D (pre ++ rest) lim = r.
Proof.
  intros H Hr. apply scxq2DecodeUtf16_eq in H.
  destruct (decode_loop_prefix rest _ _ _ _ _ _ _ _ (Nat.le_0_l _) H)
    as (k & w & Hk & -> & Hrun).
  cbn [app] in Hr. apply scxq2DecodeUtf16_eq. rewrite length_app.
  replace (S (length pre + length rest))
    with (k + (S (length pre + length rest) - k))%nat by lia.
  rewrite Hrun. cbn [app Nat.add].
  apply (decode_loop_fuel _ _ _ _ _ _ _ _ _ Hr). lia.
Qed.


(** The number that two bytes spell, high byte first. *)
Lemma pair_of_two_bytes hi lo :
  is_byte hi -> is_byte lo -> js_or (js_shl hi 8) lo = hi * 256 + lo.
Proof.
  unfold is_byte. intros Hhi Hlo.
  assert (js_sar (hi * 256 + lo) 8 = hi) as Hsar.
  { rewrite js_sar_8 by lia. symmetry. apply Z.div_unique with lo; lia. }
  assert (js_and (hi * 256 + lo) 255 = lo) as Hand.
  { rewrite js_and_255 by lia. symmetry. apply Z.mod_unique with hi; lia. }
  rewrite <- Hsar at 1. rewrite <- Hand at 2. apply pair_of_bytes. lia.
Qed.

(** A marker that is followed by fewer than two bytes. *)
Lemma truncated_after_prefix D pre b rest lim v :
  scxq2DecodeUtf16 D pre lim = DecOk v ->
  b = 128 \/ b = 129 -> (length rest < 2)%nat ->
  scxq2DecodeUtf16 D (pre ++ b :: rest) lim
  = DecErr (truncated_sequence (length pre)).
Proof.
  intros H Hb Hrest. apply (decode_after_prefix _ _ _ _ _ _ H).
  rewrite decode_loop_unfold.
  replace (length pre <? length (pre ++ b :: rest))%nat with true
    by (symmetry; apply Nat.ltb_lt; rewrite length_app; simpl; lia).
  cbn [negb]. unfold decode_body, byte_at.
  rewrite list_lookup_middle by done. cbn [default].
  replace (length (pre ++ b :: rest) <=? length pre + 2)%nat with true
    by (symmetry; apply Nat.leb_le; rewrite length_app; simpl; lia).
  by destruct Hb as [-> | ->].
Qed.

(** X3. Truncated sequences.  Once the bytes before it have been decoded,
    a marker 0x80 or 0x81 that is followed by fewer than two bytes ends
    the decoding with [truncated_sequence] at the offset of the marker. *)
Theorem decode_truncated_sequence D pre b rest lim v :
  scxq2DecodeUtf16 D pre lim = DecOk v ->
  b = 128 \/ b = 129 -> (length rest < 2)%nat ->
  scxq2DecodeUtf16 D (pre ++ b :: rest) lim
  = DecErr (truncated_sequence (length pre)).
Proof. apply truncated_after_prefix. Qed.

Lemma decode_truncated_sequence_witness :
  scxq2DecodeUtf16 [VStr (js "test")] ([65] ++ [128; 0]) lim1000
  = DecErr (truncated_sequence 1).
Proof.
  apply (decode_truncated_sequence [VStr (js "test")] [65] 128 [0] lim1000
           (js "A")); [reflexivity | by left | simpl; lia].
Defined.

(** X4. Dictionary references out of bounds.  Once the bytes before it
    have been decoded, a reference [0x80 hi lo] whose index [hi * 256 + lo]
    is not below the length of the dictionary ends the decoding with
    [dict_index_oob], at the offset of the marker and with that index,
    whatever follows. *)
Theorem decode_dict_index_oob D pre hi lo rest lim v :
  scxq2DecodeUtf16 D pre lim = DecOk v ->
  is_byte hi -> is_byte lo ->
  Z.of_nat (length D) <= hi * 256 + lo ->
  scxq2DecodeUtf16 D (pre ++ 128 :: hi :: lo :: rest) lim
  = DecErr (dict_index_oob (length pre) (hi * 256 + lo)).
Proof.
  intros H Hhi Hlo Hoob. apply (decode_after_prefix _ _ _ _ _ _ H).
  rewrite decode_loop_unfold.
  match goal with |- context [(length pre <? ?a)%nat] =>
    replace (length pre <? a)%nat with true
      by (symmetry; apply Nat.ltb_lt; rewrite length_app; simpl; lia)
  end.
  cbn [negb]. unfold decode_body.
  pose proof (byte_at_middle pre rest 0 128 hi lo) as Hb.
  rewrite Nat.add_0_r in Hb.
  change (pre ++ 128 :: hi :: lo :: rest) with (pre ++ [128; hi; lo] ++ rest).
  rewrite Hb by lia. cbn [nth].
  change (128 <=? 127) with false. change (128 =? 128) with true. cbn match.
  match goal with |- context [(?a <=? length pre + 2)%nat] =>
    replace (a <=? length pre + 2)%nat with false
      by (symmetry; apply Nat.leb_gt; rewrite !length_app; simpl; lia)
  end.
  unfold pair_at. rewrite !byte_at_middle by lia. cbn [nth].
  rewrite pair_of_two_bytes by done.
  replace (hi * 256 + lo >=? Z.of_nat (length D)) with true
    by (symmetry; rewrite Z.geb_leb; apply Z.leb_le; lia).
  by rewrite orb_true_r.
Qed.

Lemma decode_dict_index_oob_witness :
  scxq2DecodeUtf16 [VStr (js "only")] ([] ++ [128; 1; 5; 65]) lim1000
  = DecErr (dict_index_oob 0 (1 * 256 + 5)).
Proof.
  apply (decode_dict_index_oob [VStr (js "only")] [] 1 5 [65] lim1000 []);
    [reflexivity | unfold is_byte; lia | unfold is_byte; lia | simpl; lia].
Defined.

(** ** The two decoders *)

(** [ccDecompress], past [verifyPack], returns what its loop returns. *)
Lemma ccDecompress_eq `{Host} dictJson blockJson s r :
  verifyPack dictJson blockJson = Returns tt ->
  prop blockJson "b64" = VStr s ->
  ccDecompress dictJson blockJson = r <->
  decompress_loop (S (length (base64ToBytes s)))
    (array_elems (prop dictJson "dict")) (base64ToBytes s) 0 [] = Some r.
Proof.
  intros Hv Hs. unfold ccDecompress. rewrite Hv, Hs.
  generalize (decompress_loop_total (S (length (base64ToBytes s)))
                (array_elems (prop dictJson "dict")) (base64ToBytes s) 0 []
                (proj2 (Nat.lt_succ_r _ _) (Nat.le_sub_l _ _))).
  destruct (decompress_loop _ _ _ _ _) as [r'|]; intros Hsome.
  - simpl. split; congruence.
  - by destruct (is_Some_None Hsome).
Qed.

(** Where the strict decoder goes on, the loop of [ccDecompress] does the
    same. *)
Lemma decompress_body_agrees D bytes M i out n i' out' n' :
  (i < length bytes)%nat ->
  decode_body D bytes M i out n = Continue (i', out', n') ->
  decompress_body D bytes i out = Continue (i', out').
Proof.
  intros Hi. unfold decode_body, decompress_body, element.
  repeat case_match; try discriminate; intros [= <- <- <-]; try reflexivity.
  all: tests_to_props; simplify_eq; try lia.
  all: simpl in *; congruence.
Qed.

Lemma decompress_loop_agrees f D bytes M i out n v :
  decode_loop f D bytes M i out n = Some (DecOk v) ->
  decompress_loop f D bytes i out = Some (Returns v).
Proof.
  revert i out n. induction f as [|f IH]; intros i out n H; [done|].
  rewrite decode_loop_unfold in H. simpl.
  destruct (i <? length bytes)%nat eqn:Hlt; simpl in *; [|congruence].
  tests_to_props.
  destruct (decode_body D bytes M i out n) as [[[i' out'] n']|r] eqn:Hb.
  - rewrite (decompress_body_agrees _ _ _ _ _ _ _ _ _ Hlt Hb). by eapply IH.
  - injection H as ->. by apply decode_body_no_ok in Hb.
Qed.

(** What the strict decoder decodes, [ccDecompress] returns. *)
Lemma decompress_of_strict_decode `{Host} dictJson blockJson s lim v :
  verifyPack dictJson blockJson = Returns tt ->
  prop blockJson "b64" = VStr s ->
  scxq2DecodeUtf16 (array_elems (prop dictJson "dict")) (base64ToBytes s) lim
  = DecOk v ->
  ccDecompress dictJson blockJson = Returns v.
Proof.
  intros Hv Hs Hdec. apply (ccDecompress_eq _ _ s _ Hv Hs).
  apply scxq2DecodeUtf16_eq in Hdec.
  by apply decompress_loop_agrees with (maxOut_of lim) 0%nat.
Qed.

(** X5. The two decoders agree where the strict one succeeds: if
    [scxq2DecodeUtf16], under whatever limits, decodes the bytes of a
    block against the dictionary to [v], then [ccDecompress], given a
    dictionary object and a block object that pass [verifyPack], returns
    [v]. *)
Theorem ccDecompress_agrees `{Host} dictJson blockJson s lim v :
  verifyPack dictJson blockJson = Returns tt ->
  prop blockJson "b64" = VStr s ->
  scxq2DecodeUtf16 (array_elems (prop dictJson "dict")) (base64ToBytes s) lim
  = DecOk v ->
  ccDecompress dictJson blockJson = Returns v.
Proof. apply decompress_of_strict_decode. Qed.


Lemma ccDecompress_agrees_witness :
  @ccDecompress Node.host Example.plain_dict (Example.plain_block "QUJD")
  = Returns (js "ABC").
Proof.
  apply (@ccDecompress_agrees Node.host Example.plain_dict
           (Example.plain_block "QUJD") (js "QUJD") lim1000 (js "ABC"));
    reflexivity.
Defined.

(** ** Decoding a concatenation *)

Lemma byte_at_app_r pre bytes i :
  byte_at (pre ++ bytes) (length pre + i) = byte_at bytes i.
Proof.
  unfold byte_at. rewrite lookup_app_r by lia. do 2 f_equal. lia.
Qed.

Lemma pair_at_app_r pre bytes i :
  pair_at (pre ++ bytes) (length pre + i) = pair_at bytes i.
Proof.
  unfold pair_at. by rewrite <- !Nat.add_assoc, !byte_at_app_r.
Qed.

(** An iteration on [bytes] that goes on is, after the prefix [pre] and
    with the output [o] already there, the same iteration, as long as the
    limit allows the longer output. *)
Lemma decode_body_shift D pre bytes M0 M o i out n i' out' n' :
  decode_body D bytes M0 i out n = Continue (i', out', n') ->
  Z.of_nat (length o + n') <= M ->
  decode_body D (pre ++ bytes) M (length pre + i) (o ++ out) (length o + n)
  = Continue ((length pre + i')%nat, o ++ out', (length o + n')%nat).
Proof.
  unfold decode_body. rewrite byte_at_app_r, pair_at_app_r, length_app.
  replace (length pre + length bytes <=? length pre + i + 2)%nat
    with (length bytes <=? i + 2)%nat
    by (destruct (length bytes <=? i + 2)%nat eqn:E; symmetry; tests_to_props;
        [apply Nat.leb_le|apply Nat.leb_gt]; lia).
  repeat case_match; try discriminate; intros [= <- <- <-] HM.
  all: tests_to_props; try (exfalso; lia).
  all: rewrite <- ?app_assoc; f_equal.
  all: apply pair_equal_spec; split; [apply pair_equal_spec; split|];
    try done; lia.
Qed.

Lemma decode_loop_shift f D pre bytes M0 M o i out v :
  decode_loop f D bytes M0 i out (length out) = Some (DecOk v) ->
  Z.of_nat (length o + length v) <= M ->
  decode_loop f D (pre ++ bytes) M (length pre + i) (o ++ out)
    (length o + length out)
  = Some (DecOk (o ++ v)).
Proof.
  revert i out. induction f as [|f IH]; intros i out H HM; [done|].
  rewrite decode_loop_unfold in *.
  replace (length pre + i <? length (pre ++ bytes))%nat
    with (i <? length bytes)%nat
    by (rewrite length_app; destruct (i <? length bytes)%nat eqn:E; symmetry;
        tests_to_props; [apply Nat.ltb_lt|apply Nat.ltb_ge]; lia).
  destruct (i <? length bytes)%nat eqn:Hlt; cbn [negb] in *.
  - tests_to_props.
    destruct (decode_body D bytes M0 i out (length out))
      as [[[i' out'] n']|r] eqn:Hb.
    + pose proof (decode_body_continue _ _ _ _ _ _ _ _ _ Hlt Hb)
        as (_ & (w & -> & ->) & _).
      destruct (decode_loop_relimit _ _ _ _ _ _ _ _ H) as (w' & Hv & _).
      rewrite (decode_body_shift D pre bytes M0 M o _ _ _ _ _ _ Hb).
      * rewrite <- length_app in *. by apply IH.
      * rewrite Hv, !length_app in HM. lia.
    + injection H as ->. by apply decode_body_no_ok in Hb.
  - by injection H as <-.
Qed.

(** X6. Decoding composes: if two streams decode, against the same
    dictionary, to [v1] and to [v2], and [v1 ++ v2] fits the limit, then
    the first stream followed by the second decodes to [v1 ++ v2]. *)
Theorem decode_concatenation D b1 b2 lim v1 v2 :
  scxq2DecodeUtf16 D b1 lim = DecOk v1 ->
  scxq2DecodeUtf16 D b2 lim = DecOk v2 ->
  Z.of_nat (length v1 + length v2) <= maxOut_of lim ->
  scxq2DecodeUtf16 D (b1 ++ b2) lim = DecOk (v1 ++ v2).
Proof.
  intros H1 H2 Hlim. apply (decode_after_prefix _ _ _ _ _ _ H1).
  apply scxq2DecodeUtf16_eq in H2.
  pose proof (decode_loop_shift _ D b1 b2 _ (maxOut_of lim) v1 0 [] v2 H2 Hlim)
    as Hs.
  by rewrite app_nil_r, !Nat.add_0_r in Hs.
Qed.

Lemma decode_concatenation_witness :
  scxq2DecodeUtf16 [VStr (js "hello"); VStr (js "world")]
    ([128; 0; 0; 32] ++ [128; 0; 1]) lim1000
  = DecOk (js "hello " ++ js "world").
Proof.
  apply (decode_concatenation [VStr (js "hello"); VStr (js "world")]
           [128; 0; 0; 32] [128; 0; 1] lim1000 (js "hello ") (js "world"));
    [reflexivity | reflexivity | vm_compute; discriminate].
Defined.


(** ** The encoder: size and literals *)

(** From position [i] on the encoder appends at most three bytes for each
    code unit that is left. *)
Lemma encode_loop_length f text dict map i acc edges last bytes edges' :
  Forall (fun tok => tok <> []) dict ->
  encode_loop f text dict map i acc edges last = Some (bytes, edges') ->
  (i <= length text)%nat ->
  (length bytes <= length acc + 3 * (length text - i))%nat.
Proof.
  intros Hne. revert i acc edges last.
  induction f as [|f IH]; intros i acc edges last H Hi; [done|].
  rewrite encode_loop_unfold in H.
  destruct (i <? length text)%nat eqn:Hlt; cbn [negb] in H; tests_to_props.
  2:{ injection H as <- <-. lia. }
  destruct (find _ dict) as [tok|] eqn:Hfind; cbv zeta in H.
  - apply find_startsWith in Hfind as [Hin Hpre].
    assert (tok <> []) as Htok by (by eapply (proj1 (Forall_forall _ _) Hne)).
    assert (0 < length tok)%nat by (destruct tok; [done|simpl; lia]).
    assert (length tok <= length text - i)%nat.
    { rewrite <- Hpre at 1. rewrite length_take, length_drop. lia. }
    apply IH in H; [|lia]. rewrite length_app in H. simpl in H. lia.
  - apply IH in H; [|lia]. rewrite length_app in H.
    destruct (charCodeAt text i <? 128); simpl in H; lia.
Qed.

(** X7. The encoder expands a text by at most a factor of three: with a
    dictionary that holds no empty string, the byte stream has at most
    three bytes for each code unit of the text. *)
Theorem encode_expansion_bound fuel text dict opts r :
  Forall (fun tok => tok <> []) dict ->
  encodeSCXQ2 fuel text dict opts = Some r ->
  (length (enc_bytes r) <= 3 * length text)%nat.
Proof.
  intros Hne. unfold encodeSCXQ2.
  destruct (encode_loop _ _ _ _ _ _ _ _) as [[bytes edges]|] eqn:E; [|done].
  intros [= <-]. simpl.
  apply (encode_loop_length _ _ _ _ _ _ _ _ _ _ Hne) in E; simpl in E; lia.
Qed.

Lemma encode_expansion_bound_witness :
  (length [128; 0; 0; 32; 128; 0; 1] <= 3 * length (js "hello world"))%nat.
Proof.
  apply (encode_expansion_bound 20 (js "hello world") [js "hello"; js "world"]
           no_opts
           {| enc_bytes := [128; 0; 0; 32; 128; 0; 1];
              enc_b64 := js "gAAAIIAAAQ=="; enc_edges := None |});
    [repeat constructor; discriminate | reflexivity].
Defined.

(** The bytes of a text written without a dictionary: one byte for a code
    unit below 128, three for any other. *)
Lemma encode_loop_literal f text map i acc edges last :
  (length text - i < f)%nat ->
  encode_loop f text [] map i acc edges last
  = Some (acc ++ flat_map (fun c => if c <? 128 then [c]
                                    else [129; js_sar c 8; js_and c 255])
                          (drop i text),
          edges).
Proof.
  revert i acc last. induction f as [|f IH]; intros i acc last Hf; [lia|].
  rewrite encode_loop_unfold.
  destruct (i <? length text)%nat eqn:Hlt; cbn [negb find]; tests_to_props.
  - destruct (lookup_lt_is_Some_2 text i Hlt) as [c Hc].
    rewrite IH by lia. unfold charCodeAt. rewrite Hc.
    rewrite (drop_S _ _ _ Hc), Nat.add_1_r. cbn [flat_map default].
    by rewrite <- app_assoc.
  - rewrite drop_ge by lia. by rewrite app_nil_r.
Qed.

Lemma estimateBytes_flat_map s :
  estimateBytes s
  = Z.of_nat (length (flat_map (fun c => if c <? 128 then [c]
                                         else [129; js_sar c 8; js_and c 255])
                               s)).
Proof.
  unfold estimateBytes.
  assert (forall a,
            foldl (fun bytes c => bytes + (if c <? 128 then 1 else 3)) a s
            = a + Z.of_nat (length (flat_map
                   (fun c => if c <? 128 then [c]
                             else [129; js_sar c 8; js_and c 255]) s))) as Hf.
  { induction s as [|c s IH]; intros a; simpl; [lia|].
    rewrite IH, length_app. destruct (c <? 128); simpl; lia. }
  rewrite Hf. lia.
Qed.

(** X8. [estimateBytes] is exact: it is the number of bytes that
    [encodeSCXQ2] writes for the string when no dictionary entry
    applies. *)
Theorem estimateBytes_exact text opts :
  exists r,
    encodeSCXQ2 (S (length text)) text [] opts = Some r /\
    estimateBytes text = Z.of_nat (length (enc_bytes r)).
Proof.
  unfold encodeSCXQ2. rewrite encode_loop_literal by lia.
  eexists. split; [reflexivity|]. simpl. by rewrite estimateBytes_flat_map.
Qed.

Lemma literal_bytes_ascii s :
  Forall (fun c => c < 128) s ->
  flat_map (fun c => if c <? 128 then [c]
                     else [129; js_sar c 8; js_and c 255]) s = s.
Proof.
  induction 1 as [|c s Hc _ IH]; [done|]. simpl.
  replace (c <? 128) with true by (symmetry; by apply Z.ltb_lt).
  simpl. by rewrite IH.
Qed.

(** X9. A text of code units below 128 is, without a dictionary, its own
    encoding: byte for code unit. *)
Theorem encode_ascii_identity text opts :
  Forall (fun c => c < 128) text ->
  enc_bytes <$> encodeSCXQ2 (S (length text)) text [] opts = Some text.
Proof.
  intros Hascii. unfold encodeSCXQ2. rewrite encode_loop_literal by lia.
  rewrite drop_0, literal_bytes_ascii by done. reflexivity.
Qed.

Lemma encode_ascii_identity_witness :
  enc_bytes <$> encodeSCXQ2 (S (length (js "plain text"))) (js "plain text") []
                  no_opts
  = Some (js "plain text").
Proof.
  apply (encode_ascii_identity (js "plain text") no_opts).
  repeat constructor; vm_compute; reflexivity.
Defined.


(** ** Base64 *)

(** Induction on a list, three elements at a time. *)
Lemma list_ind3 {A} (P : list A -> Prop) :
  P [] -> (forall a, P [a]) -> (forall a b, P [a; b]) ->
  (forall a b c l, P l -> P (a :: b :: c :: l)) ->
  forall l, P l.
Proof.
  intros H0 H1 H2 H3. fix IH 1.
  intros [|a [|b [|c l]]]; [exact H0|apply H1|apply H2|apply H3, IH].
Qed.

Ltac b64_arith := unfold is_byte in *; Z.div_mod_to_equations; lia.

(** The characters of the alphabet, and the values that [Buffer.from]
    reads them as. *)
Lemma b64_char_spec n :
  0 <= n < 64 ->
  is_b64_digit (b64_char n) = true /\ Node.unbase64 (b64_char n) = Some n.
Proof.
  intros Hn.
  assert (forallb (fun k =>
            is_b64_digit (b64_char (Z.of_nat k))
            && bool_decide (Node.unbase64 (b64_char (Z.of_nat k))
                            = Some (Z.of_nat k)))
            (seq 0 64) = true) as Hall by (vm_compute; reflexivity).
  rewrite forallb_forall in Hall. specialize (Hall (Z.to_nat n)).
  rewrite Z2Nat.id in Hall by lia.
  apply andb_true_iff in Hall as [? Heq]; [|apply in_seq; lia].
  by apply bool_decide_eq_true in Heq.
Qed.

Lemma is_b64_digit_char c : is_b64_digit c = true -> is_b64_char c = true.
Proof. unfold is_b64_digit, is_b64_char. intros ->. done. Qed.

Lemma is_b64_digit_not_pad c : is_b64_digit c = true -> c <> 61.
Proof. intros H ->. done. Qed.

Lemma sextets_digit n rest :
  0 <= n < 64 -> Node.sextets (b64_char n :: rest) = n :: Node.sextets rest.
Proof.
  intros Hn. destruct (b64_char_spec n Hn) as [Hd Hu]. simpl.
  replace (b64_char n =? 61) with false
    by (symmetry; apply Z.eqb_neq; by apply is_b64_digit_not_pad).
  by rewrite Hu.
Qed.

Lemma after_b64_digits_digit n rest :
  0 <= n < 64 ->
  after_b64_digits (b64_char n :: rest) = after_b64_digits rest.
Proof.
  intros Hn. destruct (b64_char_spec n Hn) as [Hd _]. simpl. by rewrite Hd.
Qed.

(** The shape of what [bytesToBase64] returns. *)
Lemma base64_encode_shape bytes :
  Forall is_byte bytes ->
  Forall (fun c => is_b64_char c = true) (base64_encode bytes) /\
  after_b64_digits (base64_encode bytes) ∈ [[]; [61]; [61; 61]] /\
  Z.of_nat (length (base64_encode bytes)) mod 4 = 0.
Proof.
  induction bytes as [|a|a b|a b c l IH] using list_ind3; intros Hb.
  - split; [constructor|]. split; [left|done].
  - apply Forall_cons in Hb as [Ha _].
    cbn [base64_encode]. rewrite !after_b64_digits_digit by b64_arith.
    split; [|split; [set_solver|done]].
    repeat constructor; try done;
      apply is_b64_digit_char, b64_char_spec; b64_arith.
  - apply Forall_cons in Hb as [Ha Hb]. apply Forall_cons in Hb as [Hb _].
    cbn [base64_encode]. rewrite !after_b64_digits_digit by b64_arith.
    split; [|split; [set_solver|done]].
    repeat constructor; try done;
      apply is_b64_digit_char, b64_char_spec; b64_arith.
  - apply Forall_cons in Hb as [Ha Hb]. apply Forall_cons in Hb as [Hb Hc].
    apply Forall_cons in Hc as [Hc Hl].
    destruct (IH Hl) as (IH1 & IH2 & IH3).
    cbn [base64_encode app]. rewrite !after_b64_digits_digit by b64_arith.
    split; [|split; [done|]].
    + repeat (apply Forall_cons; split); try done;
        apply is_b64_digit_char, b64_char_spec; b64_arith.
    + cbn [length]. rewrite !Nat2Z.inj_succ. b64_arith.
Qed.

(** No output of [bytesToBase64] begins with [base64:]. *)
Lemma base64_encode_no_prefix bytes :
  Forall is_byte bytes -> take 7 (base64_encode bytes) <> js "base64:".
Proof.
  intros Hb Hpre. destruct (base64_encode_shape bytes Hb) as (Hall & _).
  assert (base64_encode bytes !! 6%nat = Some 58) as Hcolon.
  { rewrite <- (lookup_take_lt _ 7) by lia. by rewrite Hpre. }
  apply list_elem_of_lookup_2 in Hcolon.
  by apply (proj1 (Forall_forall _ _) Hall) in Hcolon.
Qed.

Lemma mod_256_bytes bytes : Forall is_byte (map (fun b => b mod 256) bytes).
Proof.
  apply Forall_forall. intros b Hin. apply list_elem_of_fmap in Hin as (x & -> & _).
  unfold is_byte. apply Z.mod_pos_bound. lia.
Qed.

(** X11. Every string that [bytesToBase64] returns is valid base64 in
    the sense of [isValidBase64]. *)
Theorem bytesToBase64_is_valid bytes :
  isValidBase64 (bytesToBase64 bytes) = true.
Proof.
  unfold isValidBase64, bytesToBase64.
  pose proof (mod_256_bytes bytes) as Hb.
  rewrite (bool_decide_eq_false_2 (take 7 _ = _))
    by (by apply base64_encode_no_prefix).
  destruct (base64_encode_shape _ Hb) as (_ & Hafter & Hlen).
  rewrite bool_decide_eq_true_2 by done. simpl. by apply Z.eqb_eq.
Qed.

(** [Buffer.from] reads back what was written, with fuel to spare. *)
Lemma bytes_of_sextets_encode bytes n :
  Forall is_byte bytes ->
  (length (Node.sextets (base64_encode bytes)) <= n)%nat ->
  Node.bytes_of_sextets n (Node.sextets (base64_encode bytes)) = bytes.
Proof.
  revert n.
  induction bytes as [|a|a b|a b c l IH] using list_ind3; intros n Hb Hn.
  - by destruct n.
  - apply Forall_cons in Hb as [Ha _].
    cbn [base64_encode] in *. rewrite !sextets_digit in * by b64_arith.
    destruct n; simpl; f_equal; b64_arith.
  - apply Forall_cons in Hb as [Ha Hb]. apply Forall_cons in Hb as [Hb _].
    cbn [base64_encode] in *. rewrite !sextets_digit in * by b64_arith.
    destruct n; simpl; repeat f_equal; b64_arith.
  - apply Forall_cons in Hb as [Ha Hb]. apply Forall_cons in Hb as [Hb Hc].
    apply Forall_cons in Hc as [Hc Hl].
    cbn [base64_encode app] in *. rewrite !sextets_digit in * by b64_arith.
    destruct n as [|n]; [simpl in Hn; lia|].
    cbn [Node.bytes_of_sextets app]. rewrite IH; [|done|simpl in Hn; lia].
    repeat f_equal; b64_arith.
Qed.

(** On Node, [Buffer.from(s, "base64")] inverts [bytesToBase64]. *)
Lemma Node_base64_inverts bytes :
  Forall is_byte bytes ->
  Node.Buffer_from_base64 (bytesToBase64 bytes) = bytes.
Proof.
  intros Hb. unfold bytesToBase64.
  assert (map (fun b => b mod 256) bytes = bytes) as ->.
  { induction Hb as [|b l Hb _ IH]; [done|]. simpl. rewrite IH.
    f_equal. apply Z.mod_small. exact Hb. }
  by apply bytes_of_sextets_encode.
Qed.

(** X10. Base64 round trip on Node: [base64ToBytes] gives back the bytes
    that [bytesToBase64] was given. *)
Theorem base64_round_trip bytes :
  Forall is_byte bytes ->
  @base64ToBytes Node.host (bytesToBase64 bytes) = bytes.
Proof.
  intros Hb. unfold base64ToBytes.
  rewrite bool_decide_eq_false_2.
  - by apply Node_base64_inverts.
  - unfold bytesToBase64. apply base64_encode_no_prefix, mod_256_bytes.
Qed.

Lemma base64_round_trip_witness :
  @base64ToBytes Node.host (bytesToBase64 [128; 0; 0; 32; 128; 0; 1])
  = [128; 0; 0; 32; 128; 0; 1].
Proof.
  apply (base64_round_trip [128; 0; 0; 32; 128; 0; 1]).
  repeat constructor; unfold is_byte; lia.
Defined.


(** ** [strip] and [copyMinus] *)

Lemma lookup_prop_delete (props : list (jsstring * value)) f k :
  lookup_prop (obj_delete props f) k
  = if decide (f = k) then None else lookup_prop props k.
Proof.
  unfold obj_delete. induction props as [|[k' v] props IH]; simpl.
  - by case_decide.
  - rewrite filter_cons. simpl.
    destruct (decide (k' <> f)) as [Hne|Heq]; simpl; rewrite ?IH;
      repeat case_decide; simplify_eq; done.
Qed.


Lemma keys_delete (props : list (jsstring * value)) f :
  map fst (obj_delete props f) = filter (fun k => k <> f) (map fst props).
Proof.
  unfold obj_delete. induction props as [|[k v] props IH]; [done|].
  simpl. rewrite !filter_cons. simpl.
  destruct (decide (k <> f)); simpl; by rewrite IH.
Qed.



(** ** What acceptance by the verifier means *)

Lemma strict_eq_true a b : strict_eq a b = true -> a = b.
Proof.
  destruct a as [| |x|[x| | |]|s| |], b as [| |y|[y| | |]|t| |];
    simpl; try done.
  - intros H. f_equal. by apply eqb_prop.
  - intros H. tests_to_props. by subst.
  - intros H. apply bool_decide_eq_true in H. by subst.
Qed.

Lemma rejects_None : rejects None.
Proof. intros r. discriminate. Qed.

Lemma rejects_fail e : rejects (Some (fail e)).
Proof. by intros r [= <-]. Qed.

Lemma rejects_for_blocks body blocks k :
  (forall b k, rejects (body b k)) -> rejects (for_blocks body blocks k).
Proof.
  intros Hbody. revert k. induction blocks as [|b blocks IH]; intros k; simpl.
  - apply rejects_None.
  - destruct (body b k) eqn:E; [|apply IH]. rewrite <- E. apply Hbody.
Qed.

Lemma rejects_seq o (k : option value) :
  rejects o -> rejects k ->
  rejects (match o with Some r => Some r | None => k end).
Proof. intros Ho Hk. by destruct o. Qed.

Ltac rejects_cases :=
  repeat match goal with
  | |- rejects None => apply rejects_None
  | |- rejects (Some (fail _)) => apply rejects_fail
  | |- rejects (if ?b then _ else _) => destruct b
  | |- rejects (match ?o with Some _ => _ | None => _ end) =>
      let E := fresh "E" in destruct o eqn:E
  end.

Lemma for_blocks_None body blocks k i b :
  for_blocks body blocks k = None -> blocks !! i = Some b ->
  body b (k + i)%nat = None.
Proof.
  revert k i. induction blocks as [|b' blocks IH]; intros k i H Hi; [done|].
  simpl in H. destruct (body b' k) eqn:E; [done|].
  destruct i as [|i]; simpl in Hi.
  - injection Hi as <-. by rewrite Nat.add_0_r.
  - rewrite <- Nat.add_succ_comm. by apply IH.
Qed.


Section acceptance.
Context `{Host}.

Lemma rejects_dict_entries P entries j : rejects (dict_entries P entries j).
Proof.
  revert j. induction entries as [|e entries IH]; intros j; simpl.
  - apply rejects_None.
  - destruct e; rejects_cases. apply IH.
Qed.

Lemma rejects_witness_fields proof fields :
  rejects (witness_fields proof fields).
Proof.
  induction fields as [|f fields IH]; simpl; rejects_cases. apply IH.
Qed.

(** Every step returns failures only. *)
Lemma steps_reject P pack :
  Forall rejects
    [pack_structure P pack; dict_structure P (prop pack "dict");
     block_structure P pack; canonical_hashes pack; decode_blocks P pack;
     proof_object P pack].
Proof.
  repeat constructor.
  - unfold pack_structure. rejects_cases.
  - unfold dict_structure. apply rejects_seq.
    + unfold dict_header. rejects_cases.
    + unfold dict_body. destruct (_ >? _); [apply rejects_fail|].
      apply rejects_seq; [apply rejects_dict_entries|rejects_cases].
  - apply rejects_for_blocks. intros b k. unfold block_checks. rejects_cases.
  - unfold canonical_hashes. apply rejects_seq; [|apply rejects_seq].
    + unfold pack_sha. rejects_cases.
    + unfold dict_sha. rejects_cases.
    + apply rejects_for_blocks. intros b k. unfold block_sha. rejects_cases.
  - apply rejects_for_blocks. intros b k. unfold block_decode.
    destruct (strictB64Decode _); rejects_cases.
    destruct (scxq2DecodeUtf16 _ _ _); rejects_cases.
  - unfold proof_object. rejects_cases. apply rejects_witness_fields.
Qed.

Lemma first_result_accepted steps otherwise :
  Forall rejects steps ->
  prop (first_result steps otherwise) "ok" = VBool true ->
  Forall (fun o => o = None) steps.
Proof.
  induction 1 as [|o steps Ho _ IH]; simpl; [done|].
  destruct o as [r|].
  - intros Hok. by rewrite (Ho r eq_refl) in Hok.
  - intros Hok. constructor; auto.
Qed.

(** The result is a success exactly when no step returns. *)
Lemma accepted_iff pack opts :
  let P := merge_policy opts in
  prop (scxq2PackVerify pack opts) "ok" = VBool true <->
  pack_structure P pack = None /\
  dict_structure P (prop pack "dict") = None /\
  block_structure P pack = None /\
  canonical_hashes pack = None /\
  decode_blocks P pack = None /\
  proof_object P pack = None.
Proof.
  intros P. unfold scxq2PackVerify. fold P. split.
  - intros Hok.
    apply (first_result_accepted _ _ (steps_reject P pack)) in Hok.
    by repeat (apply Forall_cons in Hok as [? Hok]).
  - intros (-> & -> & -> & -> & -> & ->). reflexivity.
Qed.
End acceptance.


Section accepted_packs.
Context `{Host}.

Lemma for_blocks_Forall (Q : value -> Prop) body blocks k :
  for_blocks body blocks k = None ->
  (forall b k, body b k = None -> Q b) ->
  Forall Q blocks.
Proof.
  intros Hnone HQ. apply Forall_lookup. intros i b Hi.
  apply (HQ b (k + i)%nat). by eapply for_blocks_None.
Qed.

(** X13. An accepted pack carries the canonical hashes: if the result of
    [scxq2PackVerify] has [ok: true], then [pack_sha256_canon] is the
    SHA-256 of the canonical form of the pack without that field, the
    same holds of the dictionary and of every block with their hash
    fields, and every block names the hash of the dictionary of the
    pack. *)
Theorem accepted_pack_hashes pack opts :
  prop (scxq2PackVerify pack opts) "ok" = VBool true ->
  let dict := prop pack "dict" in
  prop pack "pack_sha256_canon"
  = VStr (sha256HexUtf8 (canon (copyMinus pack (js "pack_sha256_canon")))) /\
  prop dict "dict_sha256_canon"
  = VStr (sha256HexUtf8 (canon (copyMinus dict (js "dict_sha256_canon")))) /\
  Forall (fun b =>
            prop b "block_sha256_canon"
            = VStr (sha256HexUtf8
                      (canon (copyMinus b (js "block_sha256_canon")))) /\
            prop b "dict_sha256_canon" = prop dict "dict_sha256_canon")
         (array_elems (prop pack "blocks")).
Proof.
  intros Hok dict. apply accepted_iff in Hok as (_ & _ & Hblocks & Hsha & _).
  unfold canonical_hashes in Hsha.
  destruct (pack_sha pack) eqn:Hpack; [done|].
  destruct (dict_sha (prop pack "dict")) eqn:Hdict; [done|].
  split; [|split].
  - unfold pack_sha in Hpack. repeat case_match; try done.
    tests_to_props. symmetry. by apply strict_eq_true.
  - unfold dict_sha in Hdict. repeat case_match; try done.
    tests_to_props. symmetry. by apply strict_eq_true.
  - apply Forall_and. split.
    + apply (for_blocks_Forall _ _ _ _ Hsha). intros b k Hb.
      unfold block_sha in Hb. repeat case_match; try done.
      tests_to_props. symmetry. by apply strict_eq_true.
    + apply (for_blocks_Forall _ _ _ _ Hblocks). intros b k Hb.
      unfold block_checks in Hb. repeat case_match; try done.
      tests_to_props. by apply strict_eq_true.
Qed.

(** The decoding step of the verifier, block by block. *)
Lemma blocks_decode_of_accepted pack opts :
  prop (scxq2PackVerify pack opts) "ok" = VBool true ->
  let P := merge_policy opts in
  Forall (fun b => exists s v,
            prop b "b64" = VStr s /\ s <> [] /\
            forallb is_b64_char s = true /\
            Z.of_nat (length (Buffer_from_base64 s))
            <= Policy.maxBlockB64Bytes P /\
            scxq2DecodeUtf16 (array_elems (prop (prop pack "dict") "dict"))
              (Buffer_from_base64 s)
              {| lim_maxOutputUnits := Some (Policy.maxOutputUnits P) |}
            = DecOk v /\
            (Policy.requireRoundtrip P = true ->
             prop b "source_sha256_utf8" = VStr (sha256HexUtf8 v)))
         (array_elems (prop pack "blocks")).
Proof.
  intros Hok P. apply accepted_iff in Hok as (_ & _ & _ & _ & Hdec & _).
  fold P in Hdec. apply (for_blocks_Forall _ _ _ _ Hdec). intros b k Hb.
  unfold block_decode, strictB64Decode in Hb.
  destruct (prop b "b64") as [| | | |s| |]; try done.
  case_bool_decide as Hne; [done|].
  destruct (forallb is_b64_char s) eqn:Hall; [|done]. cbn [negb] in Hb.
  destruct (_ >? _) eqn:Hlen; [done|]. tests_to_props.
  destruct (scxq2DecodeUtf16 _ _ _) as [v|] eqn:Hv; [|done].
  exists s, v. repeat split; try done.
  intros Hrt. rewrite Hrt in Hb. cbn [andb] in Hb.
  destruct (strict_eq _ _) eqn:E; [|done].
  symmetry. by apply strict_eq_true.
Qed.


End accepted_packs.

(** The sealed pack of the examples is accepted under the default
    policy. *)
Lemma sealed_pack_accepted :
  prop (@scxq2PackVerify Node.host
          (@Example.sealed_pack Node.host "QUJD" (js "ABC")) Opts.none) "ok"
  = VBool true.
Proof. vm_compute. reflexivity. Qed.

Lemma accepted_pack_hashes_witness :
  let pack := @Example.sealed_pack Node.host "QUJD" (js "ABC") in
  let dict := prop pack "dict" in
  prop pack "pack_sha256_canon"
  = VStr (@sha256HexUtf8 Node.host
            (@canon Node.host (copyMinus pack (js "pack_sha256_canon")))) /\
  prop dict "dict_sha256_canon"
  = VStr (@sha256HexUtf8 Node.host
            (@canon Node.host (copyMinus dict (js "dict_sha256_canon")))) /\
  Forall (fun b =>
            prop b "block_sha256_canon"
            = VStr (@sha256HexUtf8 Node.host
                      (@canon Node.host
                         (copyMinus b (js "block_sha256_canon")))) /\
            prop b "dict_sha256_canon" = prop dict "dict_sha256_canon")
         (array_elems (prop pack "blocks")).
Proof.
  exact (@accepted_pack_hashes Node.host
           (@Example.sealed_pack Node.host "QUJD" (js "ABC")) Opts.none
           sealed_pack_accepted).
Defined.




(** ** Relaxing the policy *)

Lemma for_blocks_None_impl body body' blocks k :
  (forall b k, body b k = None -> body' b k = None) ->
  for_blocks body blocks k = None -> for_blocks body' blocks k = None.
Proof.
  intros Himpl. revert k.
  induction blocks as [|b blocks IH]; intros k H; [done|]. simpl in *.
  destruct (body b k) eqn:E; [done|]. rewrite (Himpl _ _ E). by apply IH.
Qed.

Lemma dict_entries_policy P P' entries j :
  Policy.maxDictEntryUnits P' = Policy.maxDictEntryUnits P ->
  dict_entries P' entries j = dict_entries P entries j.
Proof.
  intros Heq. revert j. induction entries as [|e entries IH]; intros j; [done|].
  simpl. rewrite Heq. destruct e; try done. by rewrite IH.
Qed.

Section relaxing.
Context `{Host}.

(** The steps under a policy that differs from [P] only in not requiring
    the proof, or only in not requiring the round trip. *)
Lemma steps_relaxed P P' pack :
  (Policy.requireRoundtrip P' = Policy.requireRoundtrip P \/
   Policy.requireRoundtrip P' = false) ->
  (Policy.requireProof P' = Policy.requireProof P \/
   Policy.requireProof P' = false) ->
  Policy.maxDictEntries P' = Policy.maxDictEntries P ->
  Policy.maxDictEntryUnits P' = Policy.maxDictEntryUnits P ->
  Policy.maxBlocks P' = Policy.maxBlocks P ->
  Policy.maxBlockB64Bytes P' = Policy.maxBlockB64Bytes P ->
  Policy.maxOutputUnits P' = Policy.maxOutputUnits P ->
  Policy.allowEdges P' = Policy.allowEdges P ->
  Policy.allowUnknownPackFields P' = Policy.allowUnknownPackFields P ->
  Policy.allowUnknownBlockFields P' = Policy.allowUnknownBlockFields P ->
  Policy.allowedModes P' = Policy.allowedModes P ->
  Policy.allowedEncodings P' = Policy.allowedEncodings P ->
  (pack_structure P pack = None -> pack_structure P' pack = None) /\
  (dict_structure P (prop pack "dict") = None ->
   dict_structure P' (prop pack "dict") = None) /\
  (block_structure P pack = None -> block_structure P' pack = None) /\
  (decode_blocks P pack = None -> decode_blocks P' pack = None) /\
  (proof_object P pack = None -> proof_object P' pack = None).
Proof.
  intros Hrt Hpf E1 E2 E3 E4 E5 E6 E7 E8 E9 E10.
  split; [|split; [|split; [|split]]].
  - unfold pack_structure. rewrite E3, E7, E9, E10.
    destruct Hpf as [-> | ->]; [done|].
    intros Hp. repeat case_match; try done.
  - unfold dict_structure, dict_header, dict_body.
    rewrite E1, E9, E10, (dict_entries_policy P P') by done. done.
  - apply for_blocks_None_impl. intros b k. unfold block_checks.
    rewrite E6, E8, E9, E10.
    destruct Hrt as [-> | ->]; [done|].
    intros Hb. repeat case_match; try done.
  - apply for_blocks_None_impl. intros b k. unfold block_decode.
    rewrite E4, E5.
    destruct Hrt as [-> | ->]; [done|].
    intros Hb. repeat case_match; try done.
  - unfold proof_object. destruct Hpf as [-> | ->]; [done|]. done.
Qed.

(** X16. Relaxing the policy keeps acceptance: a pack that is accepted
    under some options is accepted under the same options with
    [requireProof: false], and under the same options with
    [requireRoundtrip: false]. *)
Theorem relaxed_policy_accepts pack opts :
  prop (scxq2PackVerify pack opts) "ok" = VBool true ->
  prop (scxq2PackVerify pack (Opts.without_proof opts)) "ok" = VBool true /\
  prop (scxq2PackVerify pack (Opts.without_roundtrip opts)) "ok" = VBool true.
Proof.
  intros Hok. apply accepted_iff in Hok as (H1 & H2 & H3 & H4 & H5 & H6).
  split; apply accepted_iff.
  - destruct (steps_relaxed (merge_policy opts)
                (merge_policy (Opts.without_proof opts)) pack)
      as (R1 & R2 & R3 & R5 & R6); try reflexivity;
      [by left|by right|]. auto 10.
  - destruct (steps_relaxed (merge_policy opts)
                (merge_policy (Opts.without_roundtrip opts)) pack)
      as (R1 & R2 & R3 & R5 & R6); try reflexivity;
      [by right|by left|]. auto 10.
Qed.
End relaxing.

Lemma relaxed_policy_accepts_witness :
  let pack := @Example.sealed_pack Node.host "QUJD" (js "ABC") in
  prop (@scxq2PackVerify Node.host pack (Opts.without_proof Opts.none)) "ok"
  = VBool true /\
  prop (@scxq2PackVerify Node.host pack (Opts.without_roundtrip Opts.none)) "ok"
  = VBool true.
Proof.
  exact (@relaxed_policy_accepts Node.host
           (@Example.sealed_pack Node.host "QUJD" (js "ABC")) Opts.none
           sealed_pack_accepted).
Defined.


(** ** The engine: canonical input *)

(** Induction on a list, with the hypothesis for the tail and for the
    tail of the tail. *)
Lemma list_ind2 {A} (P : list A -> Prop) :
  P [] -> (forall a, P [a]) ->
  (forall a b l, P l -> P (b :: l) -> P (a :: b :: l)) ->
  forall l, P l.
Proof.
  intros H0 H1 H2 l. cut (P l /\ forall a, P (a :: l)); [tauto|].
  induction l as [|b l [IH1 IH2]]; [auto|].
  split; [apply IH2|]. intros a. apply H2; auto.
Qed.

Lemma replace_crlf_single a : replace_crlf [a] = [a].
Proof.
  destruct a as [|p|p]; try done.
  do 4 (destruct p as [p|p|]; try done).
Qed.

Lemma replace_crlf_cons a b l :
  replace_crlf (a :: b :: l)
  = if bool_decide (a = 13 /\ b = 10) then 10 :: replace_crlf l
    else a :: replace_crlf (b :: l).
Proof.
  case_bool_decide as E.
  - by destruct E as [-> ->].
  - destruct a as [|p|p]; try done.
    do 4 (destruct p as [p|p|]; try done).
    destruct b as [|q|q]; try done.
    do 4 (destruct q as [q|q|]; try done). by destruct E.
Qed.

Lemma replace_crlf_elem c s : c ∈ replace_crlf s -> c ∈ s.
Proof.
  induction s as [|a|a b l IH1 IH2] using list_ind2;
    [done|by rewrite replace_crlf_single|].
  rewrite replace_crlf_cons. case_bool_decide as E.
  - destruct E as [_ ->]. intros [->|Hin]%elem_of_cons.
    + right. left.
    + right. right. auto.
  - intros [->|Hin]%elem_of_cons; [left|]. right. auto.
Qed.

Lemma replace_crlf_length s : (length (replace_crlf s) <= length s)%nat.
Proof.
  induction s as [|a|a b l IH1 IH2] using list_ind2;
    [done|by rewrite replace_crlf_single|].
  rewrite replace_crlf_cons. case_bool_decide; simpl in *; lia.
Qed.

Lemma replace_crlf_id s : 13 ∉ s -> replace_crlf s = s.
Proof.
  induction s as [|a|a b l IH1 IH2] using list_ind2;
    [done|by rewrite replace_crlf_single|].
  intros Hcr. rewrite replace_crlf_cons.
  rewrite bool_decide_eq_false_2.
  - f_equal. apply IH2. intros Hin. apply Hcr. by right.
  - intros [-> _]. apply Hcr. left.
Qed.

Lemma replace_cr_no_cr s : 13 ∉ replace_cr s.
Proof.
  unfold replace_cr. intros (c & Hc & _)%list_elem_of_fmap.
  destruct (c =? 13) eqn:E; [done|]. tests_to_props. done.
Qed.

Lemma replace_cr_id s : 13 ∉ s -> replace_cr s = s.
Proof.
  unfold replace_cr. induction s as [|c s IH]; [done|].
  intros Hcr. simpl. rewrite IH by (intros ?; apply Hcr; by right).
  replace (c =? 13) with false; [done|].
  symmetry. apply Z.eqb_neq. intros ->. apply Hcr. left.
Qed.

(** The canonical input of a well-formed string is well formed. *)
Lemma canonicalizeInput_wf input :
  wf_string input -> wf_string (canonicalizeInput input).
Proof.
  unfold wf_string, canonicalizeInput, replace_cr. intros Hwf.
  apply Forall_forall. intros c (d & -> & Hd)%list_elem_of_fmap.
  destruct (d =? 13); [unfold is_code_unit; lia|].
  apply replace_crlf_elem in Hd.
  by apply (proj1 (Forall_forall _ _) Hwf).
Qed.

(** X17. [canonicalizeInput] on a string: the result holds no carriage
    return and is not longer than the input; a string without carriage
    returns is returned as it is, so canonicalizing twice is
    canonicalizing once. *)
Theorem canonicalizeInput_normalizes input :
  (13 ∉ canonicalizeInput input) /\
  (length (canonicalizeInput input) <= length input)%nat /\
  (13 ∉ input -> canonicalizeInput input = input) /\
  canonicalizeInput (canonicalizeInput input) = canonicalizeInput input.
Proof.
  assert (forall s, 13 ∉ s -> canonicalizeInput s = s) as Hid.
  { intros s Hs. unfold canonicalizeInput.
    by rewrite replace_crlf_id, replace_cr_id. }
  split; [apply replace_cr_no_cr|]. split; [|split; [apply Hid|]].
  - unfold canonicalizeInput, replace_cr. rewrite length_map.
    apply replace_crlf_length.
  - apply Hid, replace_cr_no_cr.
Qed.


(** ** The engine: ranking and dictionary *)

(** *** The two comparators are total preorders *)

Global Instance scored_le_total : Total scored_le.
Proof.
  intros a b. unfold scored_le, scored_leb.
  destruct (total str_le (tok a) (tok b)) as [Hs|Hs]; unfold str_le in Hs;
    rewrite Hs; repeat case_match; tests_to_props; auto; lia.
Qed.

Global Instance scored_le_trans : Transitive scored_le.
Proof.
  intros a b c. unfold scored_le, scored_leb.
  repeat case_match; tests_to_props; try done; try lia.
  apply str_le_trans.
Qed.

Global Instance dict_le_total : Total dict_le.
Proof.
  intros a b. unfold dict_le, dict_leb.
  destruct (total str_le a b) as [Hs|Hs]; unfold str_le in Hs;
    rewrite Hs; repeat case_match; tests_to_props; auto; lia.
Qed.

Global Instance dict_le_trans : Transitive dict_le.
Proof.
  intros a b c. unfold dict_le, dict_leb.
  repeat case_match; tests_to_props; try done; try lia.
  apply str_le_trans.
Qed.

Lemma dict_le_length a b : dict_le a b -> (length b <= length a)%nat.
Proof.
  unfold dict_le, dict_leb. repeat case_match; tests_to_props; try done; lia.
Qed.

Lemma StronglySorted_lookup {A} (R : relation A) l i j a b :
  StronglySorted R l -> (i < j)%nat ->
  l !! i = Some a -> l !! j = Some b -> R a b.
Proof.
  intros Hs. revert i j. induction Hs as [|x l _ IH Hall]; intros i j Hij Hi Hj.
  - done.
  - destruct j as [|j]; [lia|]. destruct i as [|i]; simpl in *.
    + injection Hi as <-. apply (proj1 (Forall_forall _ _) Hall).
      by eapply list_elem_of_lookup_2.
    + apply (IH i j); [lia|done|done].
Qed.

(** *** The table of frequencies *)

Lemma freq_incr_absent freq t :
  t ∉ map fst freq -> freq_incr freq t = freq ++ [(t, 1)].
Proof.
  induction freq as [|[t' n] freq IH]; simpl; intros Hout; [done|].
  rewrite decide_False by (intros ->; apply Hout; left).
  rewrite IH; [done|]. intros ?. apply Hout. by right.
Qed.

Lemma freq_incr_table o freq t :
  countable o t -> table o freq -> table o (freq_incr freq t).
Proof.
  intros Ht [Hnd Hall]. induction freq as [|[t' n] freq IH]; simpl.
  - split; [apply NoDup_singleton|].
    apply Forall_singleton. split; [done|simpl; lia].
  - apply NoDup_cons in Hnd as [Hout Hnd].
    apply Forall_cons in Hall as [[Ht' Hn] Hall]. simpl in *.
    case_decide as E.
    + subst t'. split.
      * simpl. by apply NoDup_cons.
      * constructor; [simpl; split; [done|lia]|done].
    + destruct (IH Hnd Hall) as [Hnd' Hall']. split.
      * simpl. apply NoDup_cons. split; [|done].
        intros Hin. apply freq_incr_keys in Hin as [?|?]; [congruence|done].
      * by constructor.
Qed.

Lemma add_table o freq t : table o freq -> table o (add o freq t).
Proof.
  intros Hf. unfold add.
  case_bool_decide as Hnil; [done|]. cbn [orb].
  destruct (lt_number _ _) eqn:Hlen; [done|].
  case_bool_decide as Hnul; [done|].
  by apply freq_incr_table.
Qed.

Lemma foldl_add_table o toks freq :
  table o freq -> table o (foldl (add o) freq toks).
Proof.
  revert freq. induction toks as [|t toks IH]; intros freq Hf; [done|].
  simpl. by apply IH, add_table.
Qed.

Lemma foldl_matches_table o (f : regexp_match -> list jsstring) ms freq :
  table o freq ->
  table o (foldl (fun freq m => foldl (add o) freq (f m)) freq ms).
Proof.
  revert freq. induction ms as [|m ms IH]; intros freq Hf; [done|].
  simpl. by apply IH, foldl_add_table.
Qed.

Lemma scored_of_table o freq :
  table o freq ->
  let scored :=
    flat_map (fun e : jsstring * Z =>
                if e.2 <? 2 then []
                else
                  let savings := (estimateBytes e.1 - 3) * e.2 in
                  if 0 <? savings
                  then [{| tok := e.1; count := e.2; totalSavings := savings |}]
                  else [])
             freq in
  NoDup (map tok scored) /\ Forall (ranked o) scored.
Proof.
  intros [Hnd Hall]. cbv zeta.
  induction freq as [|[t n] freq IH]; [split; constructor|].
  apply NoDup_cons in Hnd as [Hout Hnd].
  apply Forall_cons in Hall as [[Ht Hn] Hall].
  destruct (IH Hnd Hall) as [IH1 IH2]. cbn [flat_map fst snd].
  destruct (n <? 2) eqn:E2; [done|].
  destruct (0 <? _) eqn:E0; [|done]. tests_to_props. cbn [app map tok].
  split.
  - apply NoDup_cons. split; [|done]. intros Hin. apply Hout.
    apply list_elem_of_fmap in Hin as (s & -> & Hs).
    apply list_elem_of_In, in_flat_map in Hs as ([t' n'] & Hin' & Hs).
    apply list_elem_of_fmap. exists (t', n'). split; [|by apply list_elem_of_In].
    cbn [fst snd] in Hs. repeat case_match; try done.
    by destruct Hs as [<-|[]].
  - constructor; [|done]. repeat split; cbn [tok count totalSavings];
      try apply Ht; try lia. nia.
Qed.

Section ranking.
Context `{Host}.

(** The ranking is read off the table of counts. *)
Lemma ranking_of_table text o :
  NoDup (map tok (collectTokens text o)) /\
  StronglySorted scored_le (collectTokens text o) /\
  Forall (ranked o) (collectTokens text o).
Proof.
  unfold collectTokens.
  match goal with |- context [merge_sort _ (flat_map _ ?freq)] =>
    assert (table o freq) as Hfreq
  end.
  { repeat first [ apply foldl_matches_table
                 | match goal with |- context [if ?b then _ else _] =>
                     destruct b end
                 | split; constructor ]. }
  apply scored_of_table in Hfreq. cbv zeta in Hfreq.
  destruct Hfreq as [Hnd Hall]. split; [|split].
  - by rewrite merge_sort_Permutation.
  - apply StronglySorted_merge_sort; apply _.
  - by rewrite merge_sort_Permutation.
Qed.

(** X18. The ranking of [collectTokens]: no token appears twice; the
    entries are in the order of the comparator of [scored.sort]; and each
    token is not empty, is not shorter than [minLen], holds no NUL, was
    counted at least twice, and has a [totalSavings] of
    [(estimateBytes(tok) - 3) * count] that is positive, so that a
    reference to it is shorter than its literal bytes. *)
Theorem collectTokens_ranking text o :
  NoDup (map tok (collectTokens text o)) /\
  StronglySorted scored_le (collectTokens text o) /\
  Forall (ranked o) (collectTokens text o).
Proof. apply ranking_of_table. Qed.
End ranking.


(** The loop of [buildDict] takes a prefix of the ranking. *)
Lemma fill_dict_prefix maxDict scored dict :
  exists n, fill_dict maxDict scored dict = dict ++ map tok (take n scored).
Proof.
  revert dict. induction scored as [|s scored IH]; intros dict; simpl.
  - exists 0%nat. by rewrite app_nil_r.
  - destruct (ge_number _ _).
    + exists 0%nat. by rewrite app_nil_r.
    + destruct (IH (dict ++ [tok s])) as [n ->]. exists (S n).
      by rewrite <- app_assoc.
Qed.

Section dictionary.
Context `{Host}.

(** X19. The dictionary that [ccCompress] builds: its entries are tokens
    of the ranking, none twice and none empty, and they are in the order
    of the comparator of [dict.sort], so that no entry is longer than an
    entry before it. *)
Theorem buildDict_of_ranking text o :
  let dict := buildDict (collectTokens text o) o in
  NoDup dict /\
  dict ⊆ map tok (collectTokens text o) /\
  Forall (fun t => t <> []) dict /\
  StronglySorted dict_le dict /\
  forall i j a b, (i <= j)%nat -> dict !! i = Some a -> dict !! j = Some b ->
                  (length b <= length a)%nat.
Proof.
  intros dict.
  destruct (ranking_of_table text o) as (Hnd & _ & _).
  destruct (fill_dict_prefix (o_maxDict o) (collectTokens text o) [])
    as [n Hfill].
  assert (dict ≡ₚ map tok (take n (collectTokens text o))) as Hperm.
  { unfold dict, buildDict. by rewrite merge_sort_Permutation, Hfill. }
  assert (StronglySorted dict_le dict) as Hsorted
    by (apply StronglySorted_merge_sort; apply _).
  split; [|split; [|split; [|split]]].
  - rewrite Hperm. apply (sublist_NoDup _ _ Hnd).
    apply fmap_sublist, sublist_take.
  - intros t Ht. rewrite Hperm in Ht.
    apply list_elem_of_fmap in Ht as (s & -> & Hs).
    apply list_elem_of_fmap. exists s. split; [done|].
    apply elem_of_take in Hs as (k & Hk & _).
    by eapply list_elem_of_lookup_2.
  - apply buildDict_nonempty.
  - exact Hsorted.
  - intros i j a b Hij Ha Hb. destruct (decide (i = j)) as [->|Hne].
    + rewrite Ha in Hb. by injection Hb as <-.
    + apply dict_le_length.
      apply (StronglySorted_lookup _ _ i j a b Hsorted); [lia|done|done].
Qed.

(** X20. Greedy longest match.  Where the inner loop of [encodeSCXQ2]
    finds an entry of the dictionary of [buildDict] at a position of the
    text, no entry of the dictionary that matches at that position is
    longer. *)
Theorem encoder_takes_longest_match scored o text i tok :
  find (fun t => startsWith text t i) (buildDict scored o) = Some tok ->
  forall t, t ∈ buildDict scored o -> startsWith text t i = true ->
            (length t <= length tok)%nat.
Proof.
  assert (StronglySorted dict_le (buildDict scored o)) as Hsorted
    by (apply StronglySorted_merge_sort; apply _).
  induction Hsorted as [|x l _ IH Hall]; [done|].
  simpl. destruct (startsWith text x i) eqn:Hx.
  - intros [= <-] t [->|Hin]%elem_of_cons _; [done|].
    by apply dict_le_length, (proj1 (Forall_forall _ _) Hall).
  - intros Hfind t [->|Hin]%elem_of_cons Ht; [congruence|]. by apply IH.
Qed.
End dictionary.

Lemma encoder_takes_longest_match_witness :
  (length (js "ab") <= length (js "abcd"))%nat.
Proof.
  apply (@encoder_takes_longest_match
           [ {| tok := js "ab"; count := 2; totalSavings := 9 |};
             {| tok := js "abcd"; count := 2; totalSavings := 2 |} ]
           (@normalizeOpts Node.host CCOpts.none) (js "xabcd") 1 (js "abcd")
           eq_refl (js "ab")).
  - apply (bool_decide_unpack _). vm_compute. exact I.
  - reflexivity.
Defined.


(** ** The engine: compression and back *)

(** The objects that [ccCompress] builds, field by field. *)
Lemma dictJson_fields dict srcSha o h :
  let dictJson := assign (makeDictJson dict srcSha o) "dict_sha256_canon" h in
  is_object dictJson = true /\ truthy dictJson = true /\
  prop dictJson "@type" = str "scxq2.dict" /\
  prop dictJson "mode" = str SCXQ2_ENCODING_mode /\
  prop dictJson "encoding" = str SCXQ2_ENCODING_encoding /\
  prop dictJson "dict" = VArr (VStr <$> dict) /\
  prop dictJson "dict_sha256_canon" = h.
Proof. repeat split; reflexivity. Qed.

Lemma blockJson_fields b64 srcSha dictSha src `{Host} o edges h :
  let blockJson :=
    assign (makeBlockJson b64 srcSha dictSha src o edges)
      "block_sha256_canon" h in
  is_object blockJson = true /\ truthy blockJson = true /\
  prop blockJson "@type" = str "scxq2.block" /\
  prop blockJson "mode" = str SCXQ2_ENCODING_mode /\
  prop blockJson "encoding" = str SCXQ2_ENCODING_encoding /\
  prop blockJson "b64" = VStr b64 /\
  prop blockJson "dict_sha256_canon" = dictSha.
Proof. destruct edges as [[|e es]|]; repeat split; reflexivity. Qed.

(** [verifyPack] accepts what [ccCompress] builds. *)
Lemma verifyPack_compressed `{Host} dict srcSha o h1 b64 src edges h2 :
  verifyPack
    (assign (makeDictJson dict srcSha o) "dict_sha256_canon" (VStr h1))
    (assign (makeBlockJson b64 srcSha (VStr h1) src o edges)
       "block_sha256_canon" h2)
  = Returns tt.
Proof.
  destruct (dictJson_fields dict srcSha o (VStr h1))
    as (D1 & D2 & D3 & D4 & D5 & D6 & D7).
  destruct (blockJson_fields b64 srcSha (VStr h1) src o edges h2)
    as (B1 & B2 & B3 & B4 & B5 & B6 & B7).
  cbv zeta in *. unfold verifyPack.
  rewrite D1, D2, D3, D4, D5, D6, D7, B1, B2, B3, B4, B5, B6, B7.
  replace (strict_eq (VStr h1) (VStr h1)) with true
    by (symmetry; by apply bool_decide_eq_true_2).
  simpl. by destruct (negb _).
Qed.

Section compression.
Context `{Host}.

Lemma base64ToBytes_encoded bytes :
  base64_inverts -> Forall is_byte bytes ->
  base64ToBytes (bytesToBase64 bytes) = bytes.
Proof.
  intros Hinv Hb. unfold base64ToBytes.
  rewrite bool_decide_eq_false_2; [by apply Hinv|].
  unfold bytesToBase64. apply base64_encode_no_prefix, mod_256_bytes.
Qed.

(** What [ccCompress] returns on a well-formed string: the block holds
    the base64 text of the bytes of the encoder, and [ccDecompress] gives
    the canonical input back. *)
Lemma ccCompress_returns input opts :
  wf_string input ->
  CCOpts.maxDict opts <> Some NaN ->
  base64_inverts ->
  exists r enc,
    ccCompress input opts = Compressed r /\
    encodeSCXQ2 (S (length (canonicalizeInput input))) (canonicalizeInput input)
      (buildDict (collectTokens (canonicalizeInput input) (normalizeOpts opts))
                 (normalizeOpts opts))
      {| opt_enableEdgeOps := o_enableEdgeOps (normalizeOpts opts) |}
    = Some enc /\
    prop (cc_block r) "b64" = VStr (bytesToBase64 (enc_bytes enc)) /\
    ccDecompress (cc_dict r) (cc_block r) = Returns (canonicalizeInput input) /\
    prop (cc_proof r) "ok" = VBool true.
Proof.
  intros Hwf Hmax Hinv. unfold ccCompress.
  set (o := normalizeOpts opts). set (src := canonicalizeInput input).
  set (dict := buildDict (collectTokens src o) o).
  destruct (encode_decode_limits src dict
              {| opt_enableEdgeOps := o_enableEdgeOps o |}
              {| lim_maxOutputUnits := Some (Z.of_nat (length src)) |})
    as (enc & Henc & Hbytes & Hdec).
  { by apply canonicalizeInput_wf. }
  { by apply buildDict_bound. }
  { apply buildDict_nonempty. }
  { unfold maxOut_of. simpl. lia. }
  rewrite Henc.
  assert (enc_b64 enc = bytesToBase64 (enc_bytes enc)) as Hb64.
  { unfold encodeSCXQ2 in Henc.
    destruct (encode_loop _ _ _ _ _ _ _ _) as [[bytes edges]|]; [|done].
    by injection Henc as <-. }
  set (srcSha := sha256HexUtf8 src).
  set (h1 := sha256HexUtf8 (canon (strip (makeDictJson dict srcSha o)
                                         [js "dict_sha256_canon"]))).
  change (prop (assign (makeDictJson dict srcSha o) "dict_sha256_canon"
                       (VStr h1)) "dict_sha256_canon") with (VStr h1).
  match goal with |- context [assign (makeBlockJson ?a ?b ?c ?d ?e ?f)
                                "block_sha256_canon" ?h] =>
    set (h2 := h)
  end.
  pose proof (blockJson_fields (enc_b64 enc) srcSha (VStr h1) src o
                (enc_edges enc) h2) as (_ & _ & _ & _ & _ & Hb & _).
  assert (ccDecompress
            (assign (makeDictJson dict srcSha o) "dict_sha256_canon" (VStr h1))
            (assign (makeBlockJson (enc_b64 enc) srcSha (VStr h1) src o
                       (enc_edges enc)) "block_sha256_canon" h2)
          = Returns src) as Hrt.
  { apply (decompress_of_strict_decode _ _ (enc_b64 enc)
             {| lim_maxOutputUnits := Some (Z.of_nat (length src)) |}).
    - apply verifyPack_compressed.
    - exact Hb.
    - rewrite Hb64, base64ToBytes_encoded by done.
      destruct (dictJson_fields dict srcSha o (VStr h1))
        as (_ & _ & _ & _ & _ & -> & _).
      exact Hdec. }
  rewrite Hrt. eexists _, enc. split; [reflexivity|]. split; [done|].
  cbn [cc_dict cc_block cc_proof].
  split; [by rewrite Hb, Hb64|]. split; [exact Hrt|].
  change (prop (makeProof ?s ?t _ _ _) "ok") with (VBool (bool_decide (s = t))).
  by rewrite bool_decide_eq_true_2.
Qed.

(** X21. Compression and back.  For every well-formed string and every
    options object whose [maxDict] is not [NaN], on a platform whose
    base64 decoder inverts its encoder: [ccCompress] returns; on the
    dictionary and the block returned, [ccDecompress] returns the
    canonical input; and the proof returned has [ok: true]. *)
Theorem ccCompress_round_trip input opts :
  wf_string input ->
  CCOpts.maxDict opts <> Some NaN ->
  base64_inverts ->
  exists r,
    ccCompress input opts = Compressed r /\
    ccDecompress (cc_dict r) (cc_block r) = Returns (canonicalizeInput input) /\
    prop (cc_proof r) "ok" = VBool true.
Proof.
  intros Hwf Hmax Hinv.
  destruct (ccCompress_returns input opts Hwf Hmax Hinv)
    as (r & enc & Hr & _ & _ & Hrt & Hok).
  eauto.
Qed.

(** X24. The empty text.  [ccCompress] of the empty string returns a
    block whose [b64] is the empty string, and [scxq2PackVerify] accepts
    no pack that holds a block whose [b64] is the empty string, whatever
    the policy. *)
Theorem empty_text_block_not_accepted opts :
  CCOpts.maxDict opts <> Some NaN ->
  base64_inverts ->
  exists r,
    ccCompress [] opts = Compressed r /\
    prop (cc_block r) "b64" = VStr [] /\
    forall pack vopts b,
      b ∈ array_elems (prop pack "blocks") -> prop b "b64" = VStr [] ->
      prop (scxq2PackVerify pack vopts) "ok" <> VBool true.
Proof.
  intros Hmax Hinv.
  destruct (ccCompress_returns [] opts (Forall_nil_2 _) Hmax Hinv)
    as (r & enc & Hr & Henc & Hb & _ & _).
  exists r. split; [done|]. split.
  - rewrite Hb. unfold encodeSCXQ2 in Henc. simpl in Henc.
    by injection Henc as <-.
  - intros pack vopts b Hin Hb64 Hok.
    apply blocks_decode_of_accepted in Hok.
    apply (proj1 (Forall_forall _ _) Hok) in Hin
      as (s & v & Hs & Hne & _).
    congruence.
Qed.
End compression.


Lemma ccCompress_round_trip_witness :
  exists r,
    @ccCompress Node.host (js "hello world hello world hello") CCOpts.none
    = Compressed r /\
    @ccDecompress Node.host (cc_dict r) (cc_block r)
    = Returns (canonicalizeInput (js "hello world hello world hello")) /\
    prop (cc_proof r) "ok" = VBool true.
Proof.
  apply (@ccCompress_round_trip Node.host
           (js "hello world hello world hello") CCOpts.none).
  - apply (bool_decide_unpack _). vm_compute. exact I.
  - discriminate.
  - exact Node_base64_inverts.
Defined.

Lemma empty_text_block_not_accepted_witness :
  exists r,
    @ccCompress Node.host [] CCOpts.none = Compressed r /\
    prop (cc_block r) "b64" = VStr [] /\
    forall pack vopts b,
      b ∈ array_elems (prop pack "blocks") -> prop b "b64" = VStr [] ->
      prop (@scxq2PackVerify Node.host pack vopts) "ok" <> VBool true.
Proof.
  apply (@empty_text_block_not_accepted Node.host CCOpts.none).
  - discriminate.
  - exact Node_base64_inverts.
Defined.

(** ** [ccDecompress] at the end of the stream *)

(** Where the strict decoder succeeds on a prefix, the loop of
    [ccDecompress] on the whole stream comes to the end of the prefix with
    the same output. *)
Lemma decompress_loop_prefix rest f D pre M i out n v :
  (i <= length pre)%nat ->
  decode_loop f D pre M i out n = Some (DecOk v) ->
  forall g, (f <= g)%nat ->
    exists g', (0 < g')%nat /\ (g - f < g')%nat /\
      decompress_loop g D (pre ++ rest) i out
      = decompress_loop g' D (pre ++ rest) (length pre) v.
Proof.
  revert i out n. induction f as [|f IH]; intros i out n Hi H g Hg; [done|].
  destruct g as [|g]; [lia|].
  rewrite decode_loop_unfold in H.
  destruct (i <? length pre)%nat eqn:Hlt; simpl in H; tests_to_props.
  - destruct (decode_body D pre M i out n) as [[[i' out'] n']|r] eqn:Hb.
    + pose proof (decode_body_continue _ _ _ _ _ _ _ _ _ Hlt Hb) as (Hi' & _).
      destruct (IH _ _ _ (proj2 Hi') H g) as (g' & Hpos & Hg' & Hrun); [lia|].
      exists g'. split; [done|]. split; [lia|].
      cbn [decompress_loop].
      replace (i <? length (pre ++ rest))%nat with true
        by (symmetry; apply Nat.ltb_lt; rewrite length_app; lia).
      cbn [negb].
      rewrite (decompress_body_agrees D (pre ++ rest) M i out n i' out' n');
        [done|rewrite length_app; lia|by apply decode_body_app].
    + injection H as ->. by apply decode_body_no_ok in Hb.
  - injection H as <-. exists (S g). split; [lia|]. split; [lia|].
    by replace i with (length pre) by lia.
Qed.

(** X22. [ccDecompress] does not report a truncated stream.  Let the
    bytes of a block be a prefix that [scxq2DecodeUtf16] decodes to [v],
    followed by a last byte 0x81.  [scxq2DecodeUtf16] rejects the stream
    with [truncated_sequence]; [ccDecompress] reads the two missing bytes
    as zero and returns [v] followed by U+0000. *)
Theorem ccDecompress_trailing_marker `{Host} dictJson blockJson s pre lim v :
  verifyPack dictJson blockJson = Returns tt ->
  prop blockJson "b64" = VStr s ->
  base64ToBytes s = pre ++ [129] ->
  scxq2DecodeUtf16 (array_elems (prop dictJson "dict")) pre lim = DecOk v ->
  scxq2DecodeUtf16 (array_elems (prop dictJson "dict")) (pre ++ [129]) lim
  = DecErr (truncated_sequence (length pre)) /\
  ccDecompress dictJson blockJson = Returns (v ++ [0]).
Proof.
  intros Hv Hs Hbytes Hdec. split.
  { apply (truncated_after_prefix _ _ _ _ _ _ Hdec); [by right|simpl; lia]. }
  apply (ccDecompress_eq _ _ s _ Hv Hs). rewrite Hbytes.
  apply scxq2DecodeUtf16_eq in Hdec.
  destruct (decompress_loop_prefix [129] _ _ _ _ _ _ _ _ (Nat.le_0_l _) Hdec
              (S (length (pre ++ [129]))))
    as (g & Hpos & Hg & ->); [rewrite length_app; simpl; lia|].
  rewrite length_app in Hg. simpl in Hg.
  destruct g as [|[|g]]; [lia|lia|].
  cbn [decompress_loop].
  assert (length (pre ++ [129]) = S (length pre)) as Hlen
    by (rewrite length_app; simpl; lia).
  rewrite Hlen.
  replace (length pre <? S (length pre))%nat with true
    by (symmetry; apply Nat.ltb_lt; lia).
  cbn [negb]. unfold decompress_body, pair_at, byte_at.
  rewrite list_lookup_middle by done.
  rewrite !lookup_ge_None_2 by lia.
  change (default 0 (Some 129)) with 129. change (default 0 None) with 0.
  change (129 =? 128) with false. change (129 =? 129) with true.
  cbn match.
  replace (length pre + 3 <? S (length pre))%nat with false
    by (symmetry; apply Nat.ltb_ge; lia).
  reflexivity.
Qed.

Lemma ccDecompress_trailing_marker_witness :
  scxq2DecodeUtf16 (array_elems (prop Example.plain_dict "dict")) ([65] ++ [129])
    lim1000
  = DecErr (truncated_sequence (length [65])) /\
  @ccDecompress Node.host Example.plain_dict (Example.plain_block "QYE=")
  = Returns (js "A" ++ [0]).
Proof.
  apply (@ccDecompress_trailing_marker Node.host Example.plain_dict
           (Example.plain_block "QYE=") (js "QYE=") [65] lim1000 (js "A"));
    reflexivity.
Defined.

(** ** Options *)

(** X23. [normalizeOpts] clamps: when [maxDict] and [minLen] are absent or
    numbers other than [NaN], the normalized [maxDict] is a number from 1
    to 65535 and the normalized [minLen] a number from 2 to 128; an
    absent [maxDict] gives 1024 and an absent [minLen] gives 3. *)
Theorem normalizeOpts_clamps `{Host} opts :
  CCOpts.maxDict opts <> Some NaN ->
  CCOpts.minLen opts <> Some NaN ->
  exists d m,
    o_maxDict (normalizeOpts opts) = Num d /\ 1 <= d <= 65535 /\
    o_minLen (normalizeOpts opts) = Num m /\ 2 <= m <= 128 /\
    (CCOpts.maxDict opts = None -> d = 1024) /\
    (CCOpts.minLen opts = None -> m = 3).
Proof.
  intros Hd Hm. cbn [normalizeOpts o_maxDict o_minLen].
  destruct (CCOpts.maxDict opts) as [[d| | |]|], (CCOpts.minLen opts)
    as [[m| | |]|]; try done; unfold clamp; simpl;
    eexists _, _; repeat split; try reflexivity; try lia; try done.
Qed.

Lemma normalizeOpts_clamps_witness :
  exists d m,
    o_maxDict (@normalizeOpts Node.host CCOpts.none) = Num d /\
    1 <= d <= 65535 /\
    o_minLen (@normalizeOpts Node.host CCOpts.none) = Num m /\
    2 <= m <= 128 /\
    (CCOpts.maxDict CCOpts.none = None -> d = 1024) /\
    (CCOpts.minLen CCOpts.none = None -> m = 3).
Proof.
  apply (@normalizeOpts_clamps Node.host CCOpts.none); discriminate.
Defined.


(** ** Canonical form: what [sortKeysDeep] builds *)

(** *** Assignment to a property, read back *)

Lemma lookup_prop_app (props q : list (jsstring * value)) k :
  lookup_prop (props ++ q) k
  = match lookup_prop props k with
    | Some v => Some v
    | None => lookup_prop q k
    end.
Proof.
  induction props as [|[k' v'] props IH]; simpl; [done|]. by case_decide.
Qed.

Lemma lookup_replace_prop (props : list (jsstring * value)) k v k' :
  is_Some (lookup_prop props k) ->
  lookup_prop (replace_prop k v props) k'
  = if decide (k = k') then Some v else lookup_prop props k'.
Proof.
  induction props as [|[k0 v0] props IH]; simpl; intros Hk.
  - by destruct Hk.
  - destruct (decide (k0 = k)) as [->|Hne]; simpl.
    + by destruct (decide (k = k')).
    + destruct (decide (k0 = k')) as [->|Hne'].
      * by rewrite decide_False by congruence.
      * by apply IH.
Qed.

Lemma lookup_insert_index (props : list (jsstring * value)) n k v k' :
  lookup_prop props k = None ->
  lookup_prop (insert_index n k v props) k'
  = if decide (k = k') then Some v else lookup_prop props k'.
Proof.
  induction props as [|[k0 v0] props IH]; simpl; [done|].
  destruct (decide (k0 = k)) as [->|Hne]; [done|]. intros Hk.
  destruct (array_index k0) as [n0|]; [destruct (n0 <? n)|]; simpl;
    try done.
  rewrite IH by done.
  destruct (decide (k0 = k')) as [->|Hne']; [|done].
  by rewrite decide_False by congruence.
Qed.

Lemma lookup_obj_set (props : list (jsstring * value)) k v k' :
  lookup_prop (obj_set props k v) k'
  = if decide (k = k' /\ k <> js "__proto__") then Some v
    else lookup_prop props k'.
Proof.
  unfold obj_set. destruct (decide (k = js "__proto__")) as [->|Hproto].
  { rewrite decide_False; [done|]. by intros [_ ?]. }
  case_bool_decide as Hin.
  - rewrite lookup_replace_prop by done.
    destruct (decide (k = k')) as [->|Hne].
    + by rewrite decide_True.
    + rewrite decide_False; [done|]. by intros [? _].
  - assert (lookup_prop props k = None) as Hnone
      by (destruct (lookup_prop props k); [by destruct Hin|done]).
    destruct (array_index k).
    + rewrite lookup_insert_index by done.
      destruct (decide (k = k')) as [->|Hne].
      * by rewrite decide_True.
      * rewrite decide_False; [done|]. by intros [? _].
    + rewrite lookup_prop_app. simpl.
      destruct (decide (k = k')) as [->|Hne].
      * by rewrite Hnone, decide_True.
      * rewrite (decide_False (P := k = k' /\ _)) by (by intros [? _]).
        by destruct (lookup_prop props k').
Qed.

Lemma replace_prop_same (props : list (jsstring * value)) k v :
  lookup_prop props k = Some v -> replace_prop k v props = props.
Proof.
  induction props as [|[k0 v0] props IH]; simpl; [done|].
  destruct (decide (k0 = k)) as [->|Hne]; [by intros [= ->]|].
  intros Hk. by rewrite IH.
Qed.

(** Assigning to a property the value that it has changes nothing. *)
Lemma obj_set_same (props : list (jsstring * value)) k v :
  lookup_prop props k = Some v -> obj_set props k v = props.
Proof.
  intros Hk. unfold obj_set. case_decide; [done|].
  rewrite bool_decide_eq_true_2 by (by rewrite Hk).
  by apply replace_prop_same.
Qed.

Lemma keys_replace_prop (props : list (jsstring * value)) k v :
  map fst (replace_prop k v props) = map fst props.
Proof.
  induction props as [|[k0 v0] props IH]; simpl; [done|].
  destruct (decide (k0 = k)) as [->|Hne]; simpl; [done|]. by rewrite IH.
Qed.

Lemma keys_insert_index (props : list (jsstring * value)) n k v :
  map fst (insert_index n k v props) ≡ₚ k :: map fst props.
Proof.
  induction props as [|[k0 v0] props IH]; simpl; [done|].
  destruct (array_index k0) as [n0|]; [destruct (n0 <? n)|]; simpl; try done.
  rewrite IH. apply perm_swap.
Qed.

(** An assignment to a key that the object does not have adds the key. *)
Lemma keys_obj_set_new (props : list (jsstring * value)) k v :
  k <> js "__proto__" -> k ∉ map fst props ->
  map fst (obj_set props k v) ≡ₚ k :: map fst props.
Proof.
  intros Hproto Hout. unfold obj_set. rewrite decide_False by done.
  rewrite bool_decide_eq_false_2.
  - destruct (array_index k); [apply keys_insert_index|].
    rewrite map_app. simpl. by rewrite Permutation_app_comm.
  - apply lookup_prop_None in Hout. rewrite Hout. by intros [? ?].
Qed.

(** *** The loop over the sorted keys *)

Abbreviation assign_all g := (fun out k => obj_set out k (g k)).

Lemma foldl_obj_set_ext_in (f g : jsstring -> value) keys out :
  (forall k, k ∈ keys -> f k = g k) ->
  foldl (assign_all f) out keys = foldl (assign_all g) out keys.
Proof.
  revert out. induction keys as [|k keys IH]; intros out Hfg; simpl; [done|].
  rewrite Hfg by left. apply IH. intros k' Hk'. apply Hfg. by right.
Qed.

Lemma foldl_obj_set_lookup (g : jsstring -> value) keys out k :
  lookup_prop (foldl (assign_all g) out keys) k
  = if decide (k ∈ keys /\ k <> js "__proto__") then Some (g k)
    else lookup_prop out k.
Proof.
  revert out. induction keys as [|a keys IH]; intros out.
  - destruct (decide _) as [[Hin _]|]; [by apply elem_of_nil in Hin|done].
  - cbn [foldl]. rewrite IH, lookup_obj_set.
    destruct (decide (k ∈ keys /\ k <> js "__proto__")) as [[Hin Hp]|Hno];
      destruct (decide (k ∈ a :: keys /\ k <> js "__proto__"))
        as [[Hin' Hp']|Hno']; try done.
    + destruct Hno'. split; [by right|done].
    + apply elem_of_cons in Hin' as [->|Hin']; [|by destruct Hno].
      by rewrite decide_True.
    + destruct (decide (a = k /\ a <> js "__proto__")) as [[-> Hp]|]; [|done].
      destruct Hno'. split; [left|done].
Qed.

Lemma added_keys_spec seen keys :
  NoDup (added_keys seen keys) /\
  forall k, k ∈ added_keys seen keys
            <-> k ∈ keys /\ k <> js "__proto__" /\ k ∉ seen.
Proof.
  revert seen. induction keys as [|a keys IH]; intros seen; simpl.
  - split; [constructor|]. intros k. split; [by intros ?%elem_of_nil|].
    by intros [?%elem_of_nil _].
  - case_bool_decide as Hskip.
    + destruct (IH seen) as [Hnd Hin]. split; [done|]. intros k.
      rewrite Hin, elem_of_cons. split; [tauto|].
      intros ([->|?] & Hp & Hs); [|tauto]. destruct Hskip; tauto.
    + destruct (IH (a :: seen)) as [Hnd Hin]. split.
      * apply NoDup_cons. split; [|done]. rewrite Hin, elem_of_cons. tauto.
      * intros k. rewrite !elem_of_cons, Hin, elem_of_cons. split.
        -- intros [->|(? & ? & ?)]; [|tauto].
           split; [by left|]. split; intros ?; apply Hskip; tauto.
        -- intros ([->|?] & ? & ?); [by left|].
           destruct (decide (k = a)) as [->|]; [by left|]. right. tauto.
Qed.

Lemma added_keys_ext seen seen' keys :
  (forall k, k ∈ seen <-> k ∈ seen') ->
  added_keys seen keys = added_keys seen' keys.
Proof.
  revert seen seen'. induction keys as [|a keys IH]; intros seen seen' Hs; [done|].
  simpl. rewrite (bool_decide_ext _ (a = js "__proto__" \/ a ∈ seen'))
    by (by rewrite Hs).
  case_bool_decide; [by apply IH|]. f_equal. apply IH. intros k.
  by rewrite !elem_of_cons, Hs.
Qed.

Lemma added_keys_sorted seen keys :
  StronglySorted str_le keys -> StronglySorted str_le (added_keys seen keys).
Proof.
  intros Hs. revert seen.
  induction Hs as [|a keys _ IH Hall]; intros seen; simpl; [constructor|].
  case_bool_decide; [apply IH|]. constructor; [apply IH|].
  apply Forall_forall. intros k Hk.
  apply (proj2 (added_keys_spec _ _)) in Hk as (Hk & _).
  by apply (proj1 (Forall_forall _ _) Hall).
Qed.

(** The loop assigns as if it went over the added keys only: a key that
    is there already has its value, and [__proto__] adds nothing. *)
Lemma foldl_obj_set_added (g : jsstring -> value) keys out :
  (forall k v, lookup_prop out k = Some v -> v = g k) ->
  foldl (assign_all g) out keys
  = foldl (assign_all g) out (added_keys (map fst out) keys).
Proof.
  revert out. induction keys as [|a keys IH]; intros out Hout; [done|].
  simpl. case_bool_decide as Hskip.
  - assert (obj_set out a (g a) = out) as ->; [|by apply IH].
    destruct Hskip as [->|Hin]; [by unfold obj_set; rewrite decide_True|].
    apply obj_set_same. destruct (lookup_prop out a) as [v|] eqn:E.
    + by rewrite (Hout _ _ E).
    + by apply lookup_prop_None in E.
  - simpl. rewrite IH.
    + f_equal. apply added_keys_ext. intros k.
      rewrite keys_obj_set_new; [done|tauto|tauto].
    + intros k v. rewrite lookup_obj_set. case_decide as E; [|by apply Hout].
      destruct E as [-> _]. by intros [= <-].
Qed.

Lemma foldl_obj_set_keys (g : jsstring -> value) keys out :
  NoDup keys ->
  (forall k, k ∈ keys -> k <> js "__proto__" /\ k ∉ map fst out) ->
  map fst (foldl (assign_all g) out keys) ≡ₚ map fst out ++ keys.
Proof.
  revert out. induction keys as [|a keys IH]; intros out Hnd Hnew; simpl.
  - by rewrite app_nil_r.
  - apply NoDup_cons in Hnd as [Ha Hnd].
    destruct (Hnew a) as [Hp Hout]; [left|].
    rewrite IH; [|done|].
    + rewrite keys_obj_set_new by done. simpl. apply Permutation_middle.
    + intros k Hk. destruct (Hnew k) as [? ?]; [by right|]. split; [done|].
      rewrite keys_obj_set_new by done.
      intros [->|?]%elem_of_cons; done.
Qed.

(** The properties of what [sortKeysDeep] returns for an object: its keys
    are the added keys, and each carries the sorted value. *)
Lemma sortKeysDeep_obj_added props :
  let g k := from_option sortKeysDeep VUndef (lookup_prop props k) in
  let added := added_keys [] (sort_keys (map fst props)) in
  sortKeysDeep (VObj props) = VObj (foldl (assign_all g) [] added) /\
  map fst (foldl (assign_all g) [] added) ≡ₚ added /\
  NoDup added /\ StronglySorted str_le added /\
  (forall k, k ∈ added <-> k ∈ map fst props /\ k <> js "__proto__").
Proof.
  intros g added. destruct (added_keys_spec [] (sort_keys (map fst props)))
    as [Hnd Hin].
  split; [|split; [|split; [|split]]].
  - rewrite sortKeysDeep_obj. f_equal.
    by rewrite (foldl_obj_set_added g _ []).
  - rewrite foldl_obj_set_keys; [done|done|].
    intros k Hk. apply Hin in Hk as (_ & ? & _). split; [done|].
    apply not_elem_of_nil.
  - done.
  - apply added_keys_sorted, StronglySorted_merge_sort; apply _.
  - intros k. fold added in Hin. rewrite Hin. unfold sort_keys.
    rewrite merge_sort_Permutation. split; [tauto|].
    intros [? ?]. split; [done|]. split; [done|]. apply not_elem_of_nil.
Qed.

(** A sorted list of distinct keys is its own sorting. *)
Lemma sort_keys_sorted keys :
  StronglySorted str_le keys -> sort_keys keys = keys.
Proof.
  intros Hs. apply (StronglySorted_unique str_le); [|done|].
  - apply StronglySorted_merge_sort; apply _.
  - apply merge_sort_Permutation.
Qed.

(** X25. [sortKeysDeep] is idempotent: sorting a sorted value returns
    it, so the canonical string of [sortKeysDeep(v)] is that of [v]. *)
Theorem sortKeysDeep_idempotent `{Host} v :
  sortKeysDeep (sortKeysDeep v) = sortKeysDeep v /\
  canon (sortKeysDeep v) = canon v.
Proof.
  assert (sortKeysDeep (sortKeysDeep v) = sortKeysDeep v) as Hid;
    [|split; [done|unfold canon; by rewrite Hid]].
  induction v as [| | | | |elems IH|props IH] using value_ind'; try done.
  - simpl. f_equal. rewrite map_map. apply map_ext_Forall. exact IH.
  - destruct (sortKeysDeep_obj_added props)
      as (Hsort & Hkeys & Hnd & Hsorted & Hin).
    rewrite Hsort. set (g k := from_option sortKeysDeep VUndef
                                 (lookup_prop props k)) in *.
    set (added := added_keys [] (sort_keys (map fst props))) in *.
    rewrite sortKeysDeep_obj. f_equal.
    rewrite (sort_keys_perm _ _ Hkeys), (sort_keys_sorted _ Hsorted).
    apply foldl_obj_set_ext_in. intros k Hk.
    rewrite foldl_obj_set_lookup, decide_True
      by (split; [done|by apply Hin]).
    simpl. unfold g. apply Hin in Hk as [Hk _].
    destruct (lookup_prop props k) as [w|] eqn:E.
    + simpl. apply lookup_prop_Some in E.
      by apply (proj1 (Forall_forall _ _) IH (k, w)).
    + by apply lookup_prop_None in E.
Qed.

(** X26. The canonical string does not cover an own property named
    [__proto__]: [sortKeysDeep] assigns it to [sorted["__proto__"]], which
    sets the prototype and adds no property, so an object and its copy
    without that key have the same canonical string. *)
Theorem canon_ignores_proto_key `{Host} props :
  canon (VObj props) = canon (strip (VObj props) [js "__proto__"]).
Proof.
  unfold canon. f_equal. cbn [strip foldl].
  destruct (sortKeysDeep_obj_added props) as (-> & _ & Hnd & Hs & Hin).
  destruct (sortKeysDeep_obj_added (obj_delete props (js "__proto__")))
    as (-> & _ & Hnd' & Hs' & Hin').
  f_equal.
  assert (added_keys [] (sort_keys (map fst props))
          = added_keys []
              (sort_keys (map fst (obj_delete props (js "__proto__")))))
    as <-.
  { apply (StronglySorted_unique str_le); [done|done|].
    apply NoDup_Permutation; [done|done|]. intros k.
    rewrite Hin, Hin', keys_delete, list_elem_of_filter. tauto. }
  apply foldl_obj_set_ext_in. intros k Hk. apply Hin in Hk as [_ Hp].
  by rewrite lookup_prop_delete, decide_False.
Qed.

(** ** The engine: lanes *)

Lemma insert_lane_Permutation x sorted : insert_lane x sorted ≡ₚ x :: sorted.
Proof.
  induction sorted as [|y rest IH]; simpl; [done|].
  destruct (negb _); [done|]. rewrite IH. apply Permutation_swap.
Qed.

Lemma sort_lanes_Permutation acc lanes :
  foldl (fun sorted x => insert_lane x sorted) acc lanes ≡ₚ acc ++ lanes.
Proof.
  revert acc. induction lanes as [|x lanes IH]; intros acc; simpl.
  - by rewrite app_nil_r.
  - rewrite IH, insert_lane_Permutation. simpl. apply Permutation_middle.
Qed.

Lemma insert_lane_sorted x sorted :
  StronglySorted lane_le sorted -> StronglySorted lane_le (insert_lane x sorted).
Proof.
  induction 1 as [|y rest Hs IH Hall]; simpl.
  - repeat constructor.
  - destruct (str_leb (lane_id y) (lane_id x)) eqn:E; simpl.
    + constructor; [done|]. rewrite insert_lane_Permutation.
      by constructor.
    + assert (lane_le x y) as Hxy.
      { destruct (total str_le (lane_id x) (lane_id y)) as [Hle|Hle]; [done|].
        unfold str_le in Hle. congruence. }
      constructor; [by constructor|]. constructor; [done|].
      eapply Forall_impl; [exact Hall|]. intros z Hz.
      unfold lane_le in *. by etrans.
Qed.

Lemma sort_lanes_sorted acc lanes :
  StronglySorted lane_le acc ->
  StronglySorted lane_le
    (foldl (fun sorted x => insert_lane x sorted) acc lanes).
Proof.
  revert acc. induction lanes as [|x lanes IH]; intros acc Hacc; simpl;
    [done|]. by apply IH, insert_lane_sorted.
Qed.

Lemma lanes_with_none k lanes :
  Forall (fun z => lane_id z <> k) lanes -> lanes_with k lanes = [].
Proof.
  unfold lanes_with. induction 1 as [|z lanes Hz _ IH]; [done|].
  rewrite filter_cons. by destruct (decide _).
Qed.

(** A lane goes behind the lanes of its own [lane_id]. *)
Lemma insert_lane_stable k x sorted :
  StronglySorted lane_le sorted ->
  lanes_with k (insert_lane x sorted) = lanes_with k sorted ++ lanes_with k [x].
Proof.
  unfold lanes_with.
  induction 1 as [|y rest Hs IH Hall]; simpl; [done|].
  destruct (str_leb (lane_id y) (lane_id x)) eqn:E; simpl.
  - rewrite !(filter_cons _ y). destruct (decide _); by rewrite IH.
  - rewrite (filter_cons _ x), (filter_cons _ x), filter_nil.
    destruct (decide (lane_id x = k)) as [Hk|Hk]; [|by rewrite app_nil_r].
    pose proof (lanes_with_none k (y :: rest)) as Hn. unfold lanes_with in Hn.
    rewrite Hn; [done|]. constructor.
    + intros Hy. rewrite Hy, <- Hk, str_leb_refl in E. done.
    + eapply Forall_impl; [exact Hall|]. intros z Hz Hzk.
      unfold lane_le, str_le in Hz. rewrite Hzk, <- Hk in Hz. congruence.
Qed.

Lemma sort_lanes_stable k acc lanes :
  StronglySorted lane_le acc ->
  lanes_with k (foldl (fun sorted x => insert_lane x sorted) acc lanes)
  = lanes_with k acc ++ lanes_with k lanes.
Proof.
  revert acc. induction lanes as [|x lanes IH]; intros acc Hacc; simpl.
  - unfold lanes_with. by rewrite filter_nil, app_nil_r.
  - rewrite IH by by apply insert_lane_sorted.
    rewrite insert_lane_stable by done. rewrite <- app_assoc. f_equal.
    unfold lanes_with. rewrite !(filter_cons _ x), filter_nil.
    by destruct (decide _).
Qed.

(** [String] on numbers: in full up to 21 digits, the digits being those
    of the shortest decimal, and in exponent form from there on. *)
Lemma Number_to_string_examples :
  Number_to_string 7 = js "7" /\
  Number_to_string (-12345) = js "-12345" /\
  Number_to_string (2 ^ 53) = js "9007199254740992" /\
  Number_to_string (2 ^ 64) = js "18446744073709552000" /\
  Number_to_string (10 ^ 21) = js "1e+21" /\
  Number_to_string (2 ^ 70) = js "1.1805916207174113e+21" /\
  Number_to_string (- 2 ^ 100) = js "-1.2676506002282294e+30" /\
  Number_to_string 99999999999999991611392 = js "1e+23".
Proof. repeat split; vm_compute; reflexivity. Qed.

Lemma lanes_of_Forall2 elems raw :
  lanes_of elems = Returns raw ->
  Forall2 (fun l x => lane_of l = Returns x) elems raw.
Proof.
  revert raw. induction elems as [|l elems IH]; intros raw; simpl.
  - intros [= <-]. constructor.
  - destruct (lane_of l) as [x|] eqn:Hx; [|done].
    destruct (lanes_of elems) as [xs|]; [|done].
    intros [= <-]. constructor; [done|by apply IH].
Qed.

Lemma lane_of_returns l x :
  lane_of l = Returns x ->
  lane_id x <> [] /\ optional_prop l "text" = VStr (lane_text x).
Proof.
  unfold lane_of. destruct (String_of _) as [s|]; [|done].
  case_bool_decide as Hs; [done|].
  destruct (optional_prop l "text") as [| | | |text| |]; try done.
  by intros [= <-].
Qed.

(** X27. The lanes of [normalizeLanes].  Where it returns, the lanes are
    in the order of their [lane_id], by code units; they are the lanes
    read off the elements of [laneInput.lanes], one for each element, each
    with a [lane_id] that is not empty and the text of its element; and the
    lanes of one [lane_id] keep the order they have in the input. *)
Theorem normalizeLanes_sorted laneInput lanes :
  normalizeLanes laneInput = Returns lanes ->
  StronglySorted lane_le lanes /\
  exists raw,
    Forall2 (fun l x => lane_of l = Returns x /\ lane_id x <> [] /\
                        optional_prop l "text" = VStr (lane_text x))
            (array_elems (prop laneInput "lanes")) raw /\
    lanes ≡ₚ raw /\
    forall k, lanes_with k lanes = lanes_with k raw.
Proof.
  unfold normalizeLanes. destruct (_ || _); [done|].
  destruct (_ || _); [done|].
  destruct (lanes_of _) as [raw|] eqn:Hraw; [|done]. intros [= <-].
  split; [apply sort_lanes_sorted; constructor|].
  exists raw. split; [|split].
  - apply lanes_of_Forall2 in Hraw. eapply Forall2_impl; [exact Hraw|].
    intros l x Hx. split; [done|]. by apply lane_of_returns.
  - apply (sort_lanes_Permutation [] raw).
  - intros k. apply (sort_lanes_stable k [] raw). constructor.
Qed.

Lemma normalizeLanes_sorted_witness :
  let laneInput :=
    obj [("lanes",
          VArr [obj [("lane_id", str " b "); ("text", str "second")];
                obj [("lane_id", VNum (Num 7)); ("text", str "first")];
                obj [("lane_id", str "b"); ("text", str "third")]])]%string in
  let lanes :=
    [ {| lane_id := js "7"; lane_text := js "first" |};
      {| lane_id := js "b"; lane_text := js "second" |};
      {| lane_id := js "b"; lane_text := js "third" |} ] in
  normalizeLanes laneInput = Returns lanes /\
  StronglySorted lane_le lanes /\
  exists raw,
    Forall2 (fun l x => lane_of l = Returns x /\ lane_id x <> [] /\
                        optional_prop l "text" = VStr (lane_text x))
            (array_elems (prop laneInput "lanes")) raw /\
    lanes ≡ₚ raw /\
    forall k, lanes_with k lanes = lanes_with k raw.
Proof.
  cbv zeta. split; [reflexivity|]. by apply normalizeLanes_sorted.
Defined.

(** The block of a lane, field by field. *)
Lemma laneBlockJson_fields laneId b64 srcSha dictSha src `{Host} o edges h :
  let blockJson :=
    assign (makeLaneBlockJson laneId b64 srcSha dictSha src o edges)
      "block_sha256_canon" h in
  is_object blockJson = true /\ truthy blockJson = true /\
  prop blockJson "@type" = str "scxq2.block" /\
  prop blockJson "mode" = str SCXQ2_ENCODING_mode /\
  prop blockJson "encoding" = str SCXQ2_ENCODING_encoding /\
  prop blockJson "b64" = VStr b64 /\
  prop blockJson "dict_sha256_canon" = dictSha /\
  prop blockJson "lane_id" = VStr laneId.
Proof. destruct edges as [[|e es]|]; repeat split; reflexivity. Qed.

(** [verifyPack] accepts the dictionary and the block of a lane. *)
Lemma verifyPack_lane `{Host} dict srcSha o h1 laneId b64 laneSha src edges h2 :
  verifyPack
    (assign (makeDictJson dict srcSha o) "dict_sha256_canon" (VStr h1))
    (assign (makeLaneBlockJson laneId b64 laneSha (VStr h1) src o edges)
       "block_sha256_canon" h2)
  = Returns tt.
Proof.
  destruct (dictJson_fields dict srcSha o (VStr h1))
    as (D1 & D2 & D3 & D4 & D5 & D6 & D7).
  destruct (laneBlockJson_fields laneId b64 laneSha (VStr h1) src o edges h2)
    as (B1 & B2 & B3 & B4 & B5 & B6 & B7 & _).
  cbv zeta in *. unfold verifyPack.
  rewrite D1, D2, D3, D4, D5, D6, D7, B1, B2, B3, B4, B5, B6, B7.
  replace (strict_eq (VStr h1) (VStr h1)) with true
    by (symmetry; by apply bool_decide_eq_true_2).
  simpl. by destruct (negb _).
Qed.

Section lanes.
Context `{Host}.

(** The loop over the lanes pushes one block for each lane. *)
Lemma encode_lanes_returns o dict srcSha h1 lanes :
  let dictJson :=
    assign (makeDictJson dict srcSha o) "dict_sha256_canon" (VStr h1) in
  Z.of_nat (length dict) <= 65535 ->
  Forall (fun tok => tok <> []) dict ->
  base64_inverts ->
  Forall (fun x => wf_string (lane_text x)) lanes ->
  exists blocks,
    encode_lanes o dict dictJson lanes = Ended blocks /\
    Forall2 (fun x b =>
               prop b "lane_id" = VStr (lane_id x) /\
               ccDecompress dictJson b
               = Returns (canonicalizeInput (lane_text x)))
            lanes blocks.
Proof.
  intros dictJson Hsize Hne Hinv.
  induction 1 as [|lane lanes Hwf _ (blocks & IH & Hall)]; simpl.
  { exists []. split; [done|constructor]. }
  set (src := canonicalizeInput (lane_text lane)).
  destruct (encode_decode_limits src dict
              {| opt_enableEdgeOps := o_enableEdgeOps o |}
              {| lim_maxOutputUnits := Some (Z.of_nat (length src)) |})
    as (enc & Henc & Hbytes & Hdec); [by apply canonicalizeInput_wf|done|done| |].
  { unfold maxOut_of. simpl. lia. }
  rewrite Henc.
  assert (enc_b64 enc = bytesToBase64 (enc_bytes enc)) as Hb64.
  { unfold encodeSCXQ2 in Henc.
    destruct (encode_loop _ _ _ _ _ _ _ _) as [[bytes edges]|]; [|done].
    by injection Henc as <-. }
  change (prop dictJson "dict_sha256_canon") with (VStr h1).
  match goal with |- context [assign (makeLaneBlockJson ?a ?b ?c ?d ?e ?f ?g)
                                "block_sha256_canon" ?h] =>
    set (h2 := h)
  end.
  pose proof (laneBlockJson_fields (lane_id lane) (enc_b64 enc)
                (sha256HexUtf8 src) (VStr h1) src o (enc_edges enc) h2)
    as (_ & _ & _ & _ & _ & Hb & _ & Hid).
  cbv zeta in Hb, Hid.
  assert (ccDecompress dictJson
            (assign (makeLaneBlockJson (lane_id lane) (enc_b64 enc)
                       (sha256HexUtf8 src) (VStr h1) src o (enc_edges enc))
                    "block_sha256_canon" h2)
          = Returns src) as Hrt.
  { apply (decompress_of_strict_decode _ _ (enc_b64 enc)
             {| lim_maxOutputUnits := Some (Z.of_nat (length src)) |}).
    - apply verifyPack_lane.
    - exact Hb.
    - rewrite Hb64, base64ToBytes_encoded by done.
      destruct (dictJson_fields dict srcSha o (VStr h1))
        as (_ & _ & _ & _ & _ & Hd & _).
      cbv zeta in Hd. fold dictJson in Hd. rewrite Hd. exact Hdec. }
  rewrite Hrt, bool_decide_eq_true_2 by done. cbn [negb].
  rewrite IH. eexists. split; [reflexivity|]. by constructor.
Qed.

(** The body that the two functions share returns, with or without
    [steps] in the proof. *)
Lemma compress_lanes_returns steps laneInput opts lanes :
  normalizeLanes laneInput = Returns lanes ->
  Forall (fun x => wf_string (lane_text x)) lanes ->
  CCOpts.maxDict opts <> Some NaN ->
  base64_inverts ->
  exists r,
    compress_lanes steps laneInput opts = Ended r /\ lanes_restored lanes r.
Proof.
  intros Hl Hwf Hmax Hinv. unfold compress_lanes. rewrite Hl.
  set (o := normalizeOpts opts).
  match goal with |- context [buildDict (collectTokens ?j o) o] =>
    set (joined := j)
  end.
  set (dict := buildDict (collectTokens joined o) o).
  match goal with |- context [assign (makeDictJson dict ?s o)
                                "dict_sha256_canon" (VStr ?h)] =>
    destruct (encode_lanes_returns o dict s h lanes)
      as (blocks & Hblocks & Hall)
  end; [by apply buildDict_bound|apply buildDict_nonempty|done|done|].
  cbv zeta in Hblocks, Hall. rewrite Hblocks.
  eexists. split; [reflexivity|]. unfold lanes_restored.
  cbn [cl_dict cl_lanes cl_proof cl_audit].
  split; [exact Hall|].
  split; [by destruct steps|].
  apply Forall2_length in Hall. rewrite <- Hall. reflexivity.
Qed.

(** X28. Lanes round trip.  For every lane input that [normalizeLanes]
    takes, with well-formed texts, and every options object whose
    [maxDict] is not [NaN], on a platform whose base64 decoder inverts its
    encoder: [ccCompressLanes] returns; the blocks returned are one for
    each lane, in the order of [normalizeLanes]; each block carries the
    [lane_id] of its lane, and on the dictionary returned and that block
    [ccDecompress] returns the canonical text of the lane; the proof says
    [ok: true], and the audit counts the lanes.  [ccCompressLanesSync]
    returns such a result where [getNodeCrypto] returns the crypto
    module; where it returns [null], as in an ES module, where [require]
    is not defined, [ccCompressLanesSync] throws. *)
Theorem ccCompressLanes_round_trip p laneInput opts lanes :
  normalizeLanes laneInput = Returns lanes ->
  Forall (fun x => wf_string (lane_text x)) lanes ->
  CCOpts.maxDict opts <> Some NaN ->
  base64_inverts ->
  (exists r,
     ccCompressLanes laneInput opts = Ended r /\ lanes_restored lanes r) /\
  (getNodeCrypto p <> None ->
   exists r,
     ccCompressLanesSync p laneInput opts = Ended r /\
     lanes_restored lanes r) /\
  (getNodeCrypto p = None ->
   ccCompressLanesSync p laneInput opts
   = Thrown (js "SCXQ2: ccCompressLanesSync requires Node.js crypto")).
Proof.
  intros Hl Hwf Hmax Hinv. split; [|split].
  - by apply compress_lanes_returns.
  - intros Hnode. unfold ccCompressLanesSync.
    destruct (getNodeCrypto p); [|done]. by apply compress_lanes_returns.
  - intros Hnode. unfold ccCompressLanesSync. by rewrite Hnode.
Qed.
End lanes.

Lemma ccCompressLanes_round_trip_witness :
  let laneInput :=
    obj [("lanes",
          VArr [obj [("lane_id", str "js"); ("text", str "let a; let a;")];
                obj [("lane_id", str "css"); ("text", str "a{}")]])]%string in
  let lanes :=
    [ {| lane_id := js "css"; lane_text := js "a{}" |};
      {| lane_id := js "js"; lane_text := js "let a; let a;" |} ] in
  (exists r,
     @ccCompressLanes Node.host laneInput CCOpts.none = Ended r /\
     @lanes_restored Node.host lanes r) /\
  (exists r,
     @ccCompressLanesSync Node.host commonjs_on_node laneInput CCOpts.none
     = Ended r /\
     @lanes_restored Node.host lanes r) /\
  @ccCompressLanesSync Node.host es_module_on_node laneInput CCOpts.none
  = Thrown (js "SCXQ2: ccCompressLanesSync requires Node.js crypto").
Proof.
  cbv zeta.
  assert (Forall (fun x => wf_string (lane_text x))
            [ {| lane_id := js "css"; lane_text := js "a{}" |};
              {| lane_id := js "js"; lane_text := js "let a; let a;" |} ])
    as Hwf.
  { repeat constructor; apply (bool_decide_unpack _); vm_compute; exact I. }
  split; [|split].
  - refine (proj1 (@ccCompressLanes_round_trip Node.host commonjs_on_node
                     _ CCOpts.none _ _ Hwf _ Node_base64_inverts)).
    + reflexivity.
    + discriminate.
  - refine (proj1 (proj2 (@ccCompressLanes_round_trip Node.host
                            commonjs_on_node _ CCOpts.none _ _ Hwf _
                            Node_base64_inverts)) _).
    + reflexivity.
    + discriminate.
    + discriminate.
  - refine (proj2 (proj2 (@ccCompressLanes_round_trip Node.host
                            es_module_on_node _ CCOpts.none _ _ Hwf _
                            Node_base64_inverts)) _).
    + reflexivity.
    + discriminate.
    + reflexivity.
Defined.
